(** * Geocoding pipeline of [scripts/geocode-servers.mjs]

    A shallow embedding of the script that enriches the country -> cities
    catalog with coordinates: name normalisation, cache keys, the work
    list, the queued tasks with their primary and fallback provider calls,
    the resumable cache and the files read and written.

    The two provider adapters are the outside world: a call is an event of
    the trace and its outcome (an object, [null] or an exception) an input
    of the run.  The tasks are asynchronous functions; the body of a task
    runs without interruption from one [await] to the next, and what
    happens between two such turns - which task the queue starts, which
    pending call or timer completes - is a schedule.  Properties are proved
    for every schedule and every behaviour of the provider. *)

From Stdlib Require Import String Ascii List Arith Bool Lia.
From Stdlib Require Import Floats.PrimFloat.
From stdpp Require Import base option list gmap strings.

Open Scope string_scope.
Open Scope nat_scope.
Open Scope list_scope.

(** ** Strings

    A JavaScript string is a sequence of UTF-16 code units.  The model keeps
    the code units below 256 (one [ascii] each), which covers every
    character the regular expression of [normalizeName] distinguishes. *)

Module Str.

(** [\s] of a regular expression and the characters [String.prototype.trim]
    removes, restricted to code units below 256: TAB, LF, VT, FF, CR, SPACE
    and NO-BREAK SPACE. *)
Definition is_space (c : ascii) : bool :=
  let n := nat_of_ascii c in
  ((9 <=? n) && (n <=? 13)) || (n =? 32) || (n =? 160).

(** Canonical form of a code unit under the [i] flag: for code units below
    256 only the ASCII letters have a case partner that the letters of
    the pattern can match. *)
Definition fold_case (c : ascii) : ascii :=
  let n := nat_of_ascii c in
  if (65 <=? n) && (n <=? 90) then ascii_of_nat (n + 32) else c.

Fixpoint drop_spaces (l : list ascii) : list ascii :=
  match l with
  | c :: l' => if is_space c then drop_spaces l' else l
  | [] => []
  end.

(** [strip_prefix_ci p l] removes the literal [p] from the front of [l],
    comparing case-insensitively. *)
Fixpoint strip_prefix_ci (p l : list ascii) : option (list ascii) :=
  match p, l with
  | [], _ => Some l
  | a :: p', c :: l' =>
      if Ascii.eqb (fold_case a) (fold_case c) then strip_prefix_ci p' l'
      else None
  | _ :: _, [] => None
  end.

(** [s.trim()] *)
Definition trim (l : list ascii) : list ascii :=
  rev (drop_spaces (rev (drop_spaces l))).

(** [s.replace(/\s+\(virtual\)\s*$/i, "")].  The pattern is anchored at the
    end of the string, so the match is read from the end: the trailing
    white space, the literal "(virtual)", and one or more white-space
    characters before it.  The leftmost match starts at the beginning of
    that white-space run; everything from there on is replaced by the empty
    string.  Without a match the string is returned unchanged. *)
Definition strip_virtual (l : list ascii) : list ascii :=
  match
    strip_prefix_ci (rev (list_ascii_of_string "(virtual)"))
                    (drop_spaces (rev l))
  with
  | Some (c :: before) =>
      if is_space c then rev (drop_spaces before) else l
  | _ => l
  end.

End Str.

(** [function normalizeName(s = "") { return s.replace(...).trim(); }] *)
Definition normalizeName (s : string) : string :=
  string_of_list_ascii (Str.trim (Str.strip_virtual (list_ascii_of_string s))).

(** [function key(country, city) { return `${country}::${city}`; }] *)
Definition key (country city : string) : string :=
  country +:+ "::" +:+ city.

(** ** Data model *)

(** A cache record [{ lat, lng }]. *)
Record coord := Coord { lat : float; lng : float }.

(** What a provider adapter returns on success: [{ lat, lng, provider }]. *)
Record geo := Geo { g_lat : float; g_lng : float; g_provider : string }.

(** What the task keeps of it for the cache:
    [{ lat: res.lat, lng: res.lng }]. *)
Definition coord_of (g : geo) : coord := Coord (g_lat g) (g_lng g).

(** An element of an output array, [{ name: city, ...cache[k] }]: the name
    and the properties spread from the cache record read at that moment
    ([None] when [cache[k]] is undefined, which spreads nothing). *)
Record entry := Entry { e_name : string; e_coord : option coord }.

(** [{ country, city, k }] *)
Record WorkItem := Item { w_country : string; w_city : string; w_k : string }.

(** The parsed input file, as [Object.entries(raw)] enumerates it: country
    names with their arrays of city names; [None] stands for a falsy value
    such as [null], which [(cities || [])] replaces by the empty array. *)
Definition catalog : Type := list (string * option (list string)).

(** ** The object [out] (line 87)

    [out] is a plain object, [{}], that the script fills like a map from
    country names to arrays.  For every name but one, [out[name] = l]
    creates or replaces the own property [name], and [out[name]] reads it.
    The name "__proto__" is the accessor that [Object.prototype] provides:
    [out["__proto__"] = l] makes the array [l] the prototype of [out] and
    creates no property, and [out["__proto__"]] reads that array from then
    on.  No other inherited property is in the way of a country name: they
    are writable data properties, which an assignment shadows with an own
    property.

    The model keeps under each name the array that [out[name]] reaches: the
    own property of that name, and under "__proto__" the array that is the
    prototype.  [Object.keys] and [JSON.stringify] see the own properties
    only. *)
Definition PROTO : string := "__proto__".

Definition own_properties (o : gmap string (list entry))
    : gmap string (list entry) :=
  delete PROTO o.

(** ** Work list (lines 89-99) *)

Definition items_of (country : string) (cities : option (list string))
    : list WorkItem :=
  map (fun cityRaw =>
         let city := normalizeName cityRaw in
         Item country city (key country city))
      (default [] cities).

(** One turn of the outer [for] loop: [out[country] = []], after which
    [out[country]] reaches a new empty array - an own property, or for the
    country "__proto__" the prototype - and a [work.push] per city. *)
Definition build_step (acc : gmap string (list entry) * list WorkItem)
    (e : string * option (list string))
    : gmap string (list entry) * list WorkItem :=
  let country := normalizeName e.1 in
  (<[country := []]> acc.1, acc.2 ++ items_of country e.2).

Definition build (raw : catalog) : gmap string (list entry) * list WorkItem :=
  foldl build_step (∅, []) raw.

(** ** Provider calls, schedule and trace *)

(** The two adapters as the task calls them. *)
Inductive call :=
  | geocodeMapTiler (q country : string)
  | geocodeNominatim (q : string).

(** How an awaited adapter call ends: it returns an object or [null], or it
    throws ([!r.ok], a transport failure). *)
Inductive response :=
  | Returned (res : option geo)
  | Threw.

(** What the run does to the outside, in order. *)
Inductive io :=
  | Call (i : nat) (c : call)
  | Resp (i : nat) (r : response)
  | Sleep (i : nat) (ms : nat)
  | Progress (processed allCities hits misses : nat).

(** Where the body of task [i] stands: not started by the queue, suspended
    at one of its four [await]s, or returned. *)
Inductive pc :=
  | Queued
  | AwaitPrimary
  | SleepPrimary (res : option geo)
  | AwaitFallback
  | SleepFallback (res : option geo)
  | Settled.

(** What the event loop does next: the queue starts its next task, the
    adapter call task [i] awaits ends with [r], or the timer task [i] awaits
    fires. *)
Inductive sched :=
  | Start
  | Respond (i : nat) (r : response)
  | Wake (i : nat).

(** The variables the tasks share (lines 86-87, 102), the promise of each
    task, and the trace.  A cache record is an object, so [cache[k]] is
    truthy exactly when the key is bound. *)
Record state := State {
  cache : gmap string coord;
  out : gmap string (list entry);
  processed : nat;
  hits : nat;
  misses : nat;
  tasks : list pc;
  trace : list io;
  rejected : bool   (* a task body threw: [Promise.all] rejects *)
}.

Definition emit (e : io) (st : state) : state :=
  State (cache st) (out st) (processed st) (hits st) (misses st)
        (tasks st) (trace st ++ [e]) (rejected st).

Definition set_pc (i : nat) (p : pc) (st : state) : state :=
  State (cache st) (out st) (processed st) (hits st) (misses st)
        (<[i := p]> (tasks st)) (trace st) (rejected st).

Definition set_cache (k : string) (c : coord) (st : state) : state :=
  State (<[k := c]> (cache st)) (out st) (processed st) (hits st) (misses st)
        (tasks st) (trace st) (rejected st).

Definition count_hit (st : state) : state :=
  State (cache st) (out st) (processed st) (S (hits st)) (misses st)
        (tasks st) (trace st) (rejected st).

Definition count_miss (st : state) : state :=
  State (cache st) (out st) (processed st) (hits st) (S (misses st))
        (tasks st) (trace st) (rejected st).

(** The body of a task threw outside its [try] blocks. *)
Definition reject (i : nat) (st : state) : state :=
  State (cache st) (out st) (processed st) (hits st) (misses st)
        (<[i := Settled]> (tasks st)) (trace st) true.

(** [out[country].push({ name: city, ...cache[k] })]: the array that
    [out[country]] reaches gets one more element.  [None] is the TypeError
    of calling [push] where [out[country]] reaches no array. *)
Definition push (w : WorkItem) (st : state) : option state :=
  l ← out st !! w_country w;
  Some (State (cache st)
              (<[w_country w := l ++ [Entry (w_city w) (cache st !! w_k w)]]>
                 (out st))
              (processed st) (hits st) (misses st)
              (tasks st) (trace st) (rejected st)).

Definition is_active (p : pc) : bool :=
  match p with
  | Queued | Settled => false
  | _ => true
  end.

Definition running (p : pc) : nat := if is_active p then 1 else 0.

(** What [tasks[i]] holds is a settled promise. *)
Definition is_settled (p : option pc) : bool :=
  match p with
  | Some Settled => true
  | _ => false
  end.

Fixpoint next_queued (ts : list pc) : option nat :=
  match ts with
  | [] => None
  | Queued :: _ => Some 0
  | _ :: ts' => S <$> next_queued ts'
  end.

Section Scheduler.

(** [keyed]: [MAPTILER_KEY] is non-empty.  [work]: the work list. *)
Variable keyed : bool.
Variable work : list WorkItem.

Definition allCities : nat := length work.

(** [new PQueue({ concurrency: MAPTILER_KEY ? 6 : 1 })] *)
Definition concurrency : nat := if keyed then 6 else 1.

(** [processed++] and the progress line (lines 112-115 and 145-148). *)
Definition tick (st : state) : state :=
  let st := State (cache st) (out st) (S (processed st)) (hits st) (misses st)
                  (tasks st) (trace st) (rejected st) in
  if (processed st mod 10 =? 0) || (processed st =? allCities)
  then emit (Progress (processed st) allCities (hits st) (misses st)) st
  else st.

Definition provider_call (q : string) (w : WorkItem) : call :=
  if keyed then geocodeMapTiler q (w_country w) else geocodeNominatim q.

(** [`${city}, ${country}`] *)
Definition primary_query (w : WorkItem) : string :=
  w_city w +:+ ", " +:+ w_country w.

(** Lines 138-148: the result, if any, is written to the cache and pushed
    to the output; otherwise the task is a miss. *)
Definition settle (i : nat) (w : WorkItem) (res : option geo) (st : state)
    : state :=
  match res with
  | Some g =>
      let st := set_cache (w_k w) (coord_of g) st in
      match push w st with
      | Some st => set_pc i Settled (tick st)
      | None => reject i st
      end
  | None => set_pc i Settled (tick (count_miss st))
  end.

(** Lines 130-136: [if (!res)] the bare city name is tried. *)
Definition after_primary (i : nat) (w : WorkItem) (res : option geo)
    (st : state) : state :=
  match res with
  | None =>
      set_pc i AwaitFallback (emit (Call i (provider_call (w_city w) w)) st)
  | Some _ => settle i w res st
  end.

(** Lines 109-128 up to the first [await]: the cache-hit path, or the
    primary call. *)
Definition begin (i : nat) (w : WorkItem) (st : state) : state :=
  match cache st !! w_k w with
  | Some _ =>
      match push w st with
      | Some st => set_pc i Settled (tick (count_hit st))
      | None => reject i st
      end
  | None =>
      set_pc i AwaitPrimary
             (emit (Call i (provider_call (primary_query w) w)) st)
  end.

(** The primary call ends (lines 121-128).  With a key the result goes on
    at once; without one [sleep(1100)] comes after the call inside the
    [try], so it is skipped when the call throws. *)
Definition primary_done (i : nat) (w : WorkItem) (r : response) (st : state)
    : state :=
  let st := emit (Resp i r) st in
  match r with
  | Threw => after_primary i w None st
  | Returned res =>
      if keyed then after_primary i w res st
      else set_pc i (SleepPrimary res) (emit (Sleep i 1100) st)
  end.

(** The fallback call ends (lines 132-135). *)
Definition fallback_done (i : nat) (w : WorkItem) (r : response) (st : state)
    : state :=
  let st := emit (Resp i r) st in
  match r with
  | Threw => settle i w None st
  | Returned res =>
      if keyed then settle i w res st
      else set_pc i (SleepFallback res) (emit (Sleep i 1100) st)
  end.

(** Tasks the queue has started and that have not returned. *)
Definition pending (st : state) : nat :=
  sum_list_with running (tasks st).

(** One turn of the event loop; [None] when the event cannot happen in
    [st].  The queue starts tasks in the order of the work list and keeps
    at most [concurrency] of them running. *)
Definition step (e : sched) (st : state) : option state :=
  match e with
  | Start =>
      if decide (pending st < concurrency) then
        i ← next_queued (tasks st);
        w ← work !! i;
        Some (begin i w st)
      else None
  | Respond i r =>
      w ← work !! i;
      p ← tasks st !! i;
      match p with
      | AwaitPrimary => Some (primary_done i w r st)
      | AwaitFallback => Some (fallback_done i w r st)
      | _ => None
      end
  | Wake i =>
      w ← work !! i;
      p ← tasks st !! i;
      match p with
      | SleepPrimary res => Some (after_primary i w res st)
      | SleepFallback res => Some (settle i w res st)
      | _ => None
      end
  end.

Fixpoint exec (evs : list sched) (st : state) : option state :=
  match evs with
  | [] => Some st
  | e :: evs' => st' ← step e st; exec evs' st'
  end.

(** The state when the tasks have been queued (lines 86-106). *)
Definition init (out0 : gmap string (list entry)) (cache0 : gmap string coord)
    : state :=
  State cache0 out0 0 0 0 (replicate (length work) Queued) [] false.

(** [await Promise.all(tasks)] resumes when every task has returned. *)
Definition finished (st : state) : bool :=
  forallb (fun p => is_settled (Some p)) (tasks st).

End Scheduler.

(** The run of the script on a parsed catalog and a loaded cache. *)
Definition start (raw : catalog) (cache0 : gmap string coord) : state :=
  init (build raw).2 (build raw).1 cache0.

Definition run (keyed : bool) (raw : catalog) (cache0 : gmap string coord)
    (evs : list sched) : option state :=
  exec keyed (build raw).2 evs (start raw cache0).

(** ** Files (lines 17-19, 40-43, 85-86 and 153-156) *)

Definition INPUT : string := "data/servers.json".
Definition OUTPUT : string := "data/servers_geocoded.json".
Definition CACHE : string := "data/geocode-cache.json".

(** [loadJSON(path, fallback)]: [files !! path] is what [fs.readFile]
    yields, [None] when it rejects; [parse text] is [JSON.parse], [None] when
    it throws.  Either failure lands in the [catch], which returns
    [fallback]. *)
Definition loadJSON {A : Type} (parse : string → option A)
    (files : gmap string string) (path : string) (fallback : A) : A :=
  match files !! path with
  | Some text =>
      match parse text with
      | Some v => v
      | None => fallback
      end
  | None => fallback
  end.

Section Main.

(** [JSON.parse] read at the two shapes the script expects, and
    [JSON.stringify(_, null, 2)] on the cache and on the own properties of
    the output. *)
Variable parse_catalog : string → option catalog.
Variable parse_cache : string → option (gmap string coord).
Variable stringify_cache : gmap string coord → string.
Variable stringify_out : gmap string (list entry) → string.

Variable keyed : bool.

Definition loaded_catalog (files : gmap string string) : catalog :=
  loadJSON parse_catalog files INPUT [].

Definition loaded_cache (files : gmap string string) : gmap string coord :=
  loadJSON parse_cache files CACHE ∅.

(** Lines 153-156: the cache, then the output.  [JSON.stringify(out)]
    writes the own properties of [out]: what was pushed to an array that is
    the prototype of [out] is not in the file. *)
Definition persist (st : state) (files : gmap string string)
    : gmap string string :=
  <[OUTPUT := stringify_out (own_properties (out st))]>
    (<[CACHE := stringify_cache (cache st)]> files).

(** The whole script under the schedule [evs]: the files after it has
    written them, or [None] when [evs] cannot happen, leaves a task
    unfinished, or a task rejected and [Promise.all] threw. *)
Definition main (files : gmap string string) (evs : list sched)
    : option (gmap string string) :=
  st ← run keyed (loaded_catalog files) (loaded_cache files) evs;
  if finished st && negb (rejected st) then Some (persist st files) else None.

End Main.

(** ** The provider adapters (lines 22-36 and 51-81)

    What the two adapters send and how they read the reply.  The network
    is the outside world: a request is a value, and what [fetch] and
    [r.json()] yield is an input. *)

(** A JSON value as [JSON.parse] builds it, and [undefined], which reading
    a property can yield.  An object lists its own properties, each name
    once. *)
#[local] Set Warnings "-register-all".
Inductive js :=
  | JUndefined
  | JNull
  | JBool (b : bool)
  | JNum (x : float)
  | JStr (s : string)
  | JArr (items : list js)
  | JObj (fields : list (string * js)).
#[local] Set Warnings "+register-all".

Module Js.

(** [!!v] *)
Definition truthy (v : js) : bool :=
  match v with
  | JUndefined | JNull => false
  | JBool b => b
  | JNum x => PrimFloat.eqb x x && negb (PrimFloat.eqb x 0)
  | JStr EmptyString => false
  | JStr (String _ _) | JArr _ | JObj _ => true
  end.

(** The own property [k] of an object. *)
Fixpoint field (k : string) (fields : list (string * js)) : option js :=
  match fields with
  | [] => None
  | (k', v) :: rest => if String.eqb k' k then Some v else field k rest
  end.

(** [v.k] for a name [k] that no prototype defines ("features",
    "geometry", "coordinates", "lat", "lon"): the own property of an
    object, [undefined] on any other value that has properties, and
    [None], the TypeError, on [null] and [undefined]. *)
Definition prop (k : string) (v : js) : option js :=
  match v with
  | JUndefined | JNull => None
  | JObj fields => Some (default JUndefined (field k fields))
  | _ => Some JUndefined
  end.

(** The code unit of [s] at [i], as a string. *)
Definition char_at (i : nat) (s : string) : js :=
  match String.get i s with
  | Some c => JStr (String c EmptyString)
  | None => JUndefined
  end.

(** [v[0]] *)
Definition first (v : js) : option js :=
  match v with
  | JUndefined | JNull => None
  | JArr items => Some (default JUndefined (head items))
  | JStr s => Some (char_at 0 s)
  | JObj fields => Some (default JUndefined (field "0" fields))
  | _ => Some JUndefined
  end.

(** [const [a, b] = v]: the first two values [v] iterates over; [None] is
    the TypeError on a value that is not iterable. *)
Definition pair_of (v : js) : option (js * js) :=
  match v with
  | JArr items =>
      Some (default JUndefined (items !! 0), default JUndefined (items !! 1))
  | JStr s => Some (char_at 0 s, char_at 1 s)
  | _ => None
  end.

End Js.

(** How [fetch] and [r.json()] end: the request fails, or a response
    arrives with its [ok] flag and its body, [None] when the body is not
    JSON. *)
Inductive fetched :=
  | NetworkError
  | Fetched (ok : bool) (body : option js).

(** What an adapter returns: [{ lat, lng, provider }]. *)
Record found := Found { f_lat : js; f_lng : js; f_provider : string }.

(** How a call of an adapter ends. *)
Inductive outcome :=
  | Gives (res : option found)
  | Throws.

(** Lines 22-36. *)
Definition ISO_HINT : list (string * string) :=
  [("United States", "US"); ("United Kingdom", "GB"); ("South Korea", "KR");
   ("North Macedonia", "MK"); ("Czech Republic", "CZ");
   ("United Arab Emirates", "AE"); ("Vietnam", "VN"); ("Laos", "LA");
   ("Myanmar", "MM"); ("Taiwan", "TW"); ("Hong Kong", "HK")].

(** [ISO_HINT.get(country)] *)
Fixpoint hint (country : string) (hints : list (string * string))
    : option string :=
  match hints with
  | [] => None
  | (name, iso) :: rest =>
      if String.eqb name country then Some iso else hint country rest
  end.

Module Uri.

(** The characters [encodeURIComponent] leaves alone: letters, digits and
    [- _ . ! ~ * ' ( )]. *)
Definition unreserved (c : ascii) : bool :=
  let n := nat_of_ascii c in
  ((65 <=? n) && (n <=? 90)) || ((97 <=? n) && (n <=? 122))
  || ((48 <=? n) && (n <=? 57))
  || existsb (Ascii.eqb c) (list_ascii_of_string "-_.!~*'()").

Definition hex (n : nat) : ascii :=
  nth n (list_ascii_of_string "0123456789ABCDEF") "0"%char.

(** [%XX] for one byte. *)
Definition percent (byte : nat) : list ascii :=
  ["%"%char; hex (byte / 16); hex (byte mod 16)].

(** A code unit below 128 is one UTF-8 byte, one from 128 to 255 two. *)
Definition encode_unit (c : ascii) : list ascii :=
  let n := nat_of_ascii c in
  if unreserved c then [c]
  else if n <? 128 then percent n
  else percent (192 + n / 64) ++ percent (128 + n mod 64).

End Uri.

(** [encodeURIComponent(s)] *)
Definition encodeURIComponent (s : string) : string :=
  string_of_list_ascii (flat_map Uri.encode_unit (list_ascii_of_string s)).

(** A request: the URL without its query, the search parameters in the
    order they were set, and the User-Agent header. *)
Record request := Request {
  r_url : string;
  r_params : list (string * string);
  r_agent : string
}.

(** [url.searchParams.set(name, value)]: the first parameter of that name
    takes the value and the others of that name go; without one the
    parameter is appended. *)
Fixpoint set_param (name value : string) (params : list (string * string))
    : list (string * string) :=
  match params with
  | [] => [(name, value)]
  | (n, v) :: rest =>
      if String.eqb n name
      then (name, value) :: filter (fun p => p.1 ≠ name) rest
      else (n, v) :: set_param name value rest
  end.

Definition USER_AGENT : string := "tonyser96.github.io-geocoder/1.0".

Module Adapter.

(** Lines 52-58: the request of [geocodeMapTiler(q, country)]. *)
Definition mapTilerRequest (MAPTILER_KEY q country : string) : request :=
  let params := set_param "key" MAPTILER_KEY [] in
  let params := set_param "limit" "1" params in
  let params := set_param "language" "en" params in
  let params :=
    match hint country ISO_HINT with
    | Some iso => set_param "country" iso params
    | None => params
    end in
  Request ("https://api.maptiler.com/geocoding/" +:+ encodeURIComponent q
           +:+ ".json")
          params USER_AGENT.

(** Lines 59-64: what [geocodeMapTiler] makes of the reply. *)
Definition geocodeMapTiler (r : fetched) : outcome :=
  match r with
  | NetworkError | Fetched false _ | Fetched true None => Throws
  | Fetched true (Some j) =>
      match Js.prop "features" j with
      | None => Throws
      | Some features =>
          let f :=
            match features with
            | JUndefined | JNull => JUndefined
            | _ => default JUndefined (Js.first features)
            end in
          if negb (Js.truthy f) then Gives None
          else
            match
              geometry ← Js.prop "geometry" f;
              coordinates ← Js.prop "coordinates" geometry;
              Js.pair_of coordinates
            with
            | Some (lng, lat) => Gives (Some (Found lat lng "maptiler"))
            | None => Throws
            end
      end
  end.

(** Lines 68-75: the request of [geocodeNominatim(q)]. *)
Definition nominatimRequest (q : string) : request :=
  let params := set_param "q" q [] in
  let params := set_param "format" "jsonv2" params in
  let params := set_param "limit" "1" params in
  let params := set_param "accept-language" "en" params in
  Request "https://nominatim.openstreetmap.org/search" params USER_AGENT.

(** Lines 76-80: what [geocodeNominatim] makes of the reply; [parseFloat]
    is the global function, which reads a number off the text of its
    argument. *)
Definition geocodeNominatim (parseFloat : js → float) (r : fetched) : outcome :=
  match r with
  | NetworkError | Fetched false _ | Fetched true None => Throws
  | Fetched true (Some j) =>
      match Js.first j with
      | None => Throws
      | Some f =>
          if negb (Js.truthy f) then Gives None
          else
            match Js.prop "lat" f, Js.prop "lon" f with
            | Some lat, Some lon =>
                Gives (Some (Found (JNum (parseFloat lat)) (JNum (parseFloat lon))
                                   "nominatim"))
            | _, _ => Throws
            end
      end
  end.

End Adapter.

(** The outcome of an adapter as the task sees it, when the coordinates are
    numbers. *)
Definition as_response (o : outcome) : option response :=
  match o with
  | Throws => Some Threw
  | Gives None => Some (Returned None)
  | Gives (Some (Found (JNum lat) (JNum lng) provider)) =>
      Some (Returned (Some (Geo lat lng provider)))
  | Gives (Some _) => None
  end.

(** The adapter the task calls (lines 122-125 and 133-134). *)
Definition adapter (keyed : bool) (parseFloat : js → float) (r : fetched)
    : outcome :=
  if keyed then Adapter.geocodeMapTiler r
  else Adapter.geocodeNominatim parseFloat r.

(** The request failed, the status is not OK, or the body is not JSON. *)
Definition failed_reply (r : fetched) : bool :=
  match r with
  | NetworkError | Fetched false _ | Fetched true None => true
  | Fetched true (Some _) => false
  end.

(** ** What one turn of the event loop does

    Every turn belongs to one task: it moves the task from one [await] to
    the next, records that task's provider traffic in the trace, and does
    one of five things to the shared cache, output and counters. *)

(** A query that did not produce a result: it threw or returned [null]. *)
Definition failing (r : response) : bool :=
  match r with
  | Returned (Some _) => false
  | _ => true
  end.

Definition call_of (i : nat) (e : io) : option call :=
  match e with
  | Call j c => if decide (j = i) then Some c else None
  | _ => None
  end.

Definition resp_of (i : nat) (e : io) : option response :=
  match e with
  | Resp j r => if decide (j = i) then Some r else None
  | _ => None
  end.

(** The provider calls task [i] made, and how each of them ended. *)
Definition calls (i : nat) (tr : list io) : list call := omap (call_of i) tr.
Definition resps (i : nat) (tr : list io) : list response :=
  omap (resp_of i) tr.

(** In [tr] every provider call that returned is followed at once by the
    [sleep(1100)] of its task. *)
Fixpoint delayed (tr : list io) : bool :=
  match tr with
  | [] => true
  | Resp i (Returned _) :: rest =>
      match rest with
      | Sleep j ms :: _ => (i =? j) && (ms =? 1100) && delayed rest
      | _ => false
      end
  | _ :: rest => delayed rest
  end.

(** [tr] ends with a call that returned, whose delay is still due. *)
Definition delay_due (tr : list io) : bool :=
  match last tr with
  | Some (Resp _ (Returned _)) => true
  | _ => false
  end.

Inductive kind :=
  | Silent
  | CacheMiss
  | HitK (c : coord)
  | ResolveK (g : geo)
  | MissK.

Section Turns.

Variable keyed : bool.
Variable work : list WorkItem.

Local Abbreviation q1 w := (provider_call keyed (primary_query w) w).
Local Abbreviation q2 w := (provider_call keyed (w_city w) w).

(** The moves of one task: from where, the calls and responses the turn
    adds to the trace, to where, and what it does to the shared state. *)
Inductive local (w : WorkItem)
    : pc → list call → list response → pc → kind → Prop :=
  | L_hit c :
      local w Queued [] [] Settled (HitK c)
  | L_primary :
      local w Queued [q1 w] [] AwaitPrimary CacheMiss
  | L_primary_sleep res :
      keyed = false →
      local w AwaitPrimary [] [Returned res] (SleepPrimary res) Silent
  | L_primary_failed r :
      failing r = true →
      local w AwaitPrimary [q2 w] [r] AwaitFallback Silent
  | L_primary_resolved g :
      keyed = true →
      local w AwaitPrimary [] [Returned (Some g)] Settled (ResolveK g)
  | L_woken_fallback :
      local w (SleepPrimary None) [q2 w] [] AwaitFallback Silent
  | L_woken_resolved g :
      local w (SleepPrimary (Some g)) [] [] Settled (ResolveK g)
  | L_fallback_sleep res :
      keyed = false →
      local w AwaitFallback [] [Returned res] (SleepFallback res) Silent
  | L_fallback_resolved g :
      keyed = true →
      local w AwaitFallback [] [Returned (Some g)] Settled (ResolveK g)
  | L_fallback_missed r :
      failing r = true →
      local w AwaitFallback [] [r] Settled MissK
  | L_woken_resolved2 g :
      local w (SleepFallback (Some g)) [] [] Settled (ResolveK g)
  | L_woken_missed :
      local w (SleepFallback None) [] [] Settled MissK.

(** The effect of a turn of an item [w] on the shared state. *)
Definition shared (w : WorkItem) (kd : kind) (st st' : state) : Prop :=
  match kd with
  | Silent =>
      cache st' = cache st ∧ out st' = out st ∧
      processed st' = processed st ∧ hits st' = hits st ∧
      misses st' = misses st
  | CacheMiss =>
      cache st !! w_k w = None ∧
      cache st' = cache st ∧ out st' = out st ∧
      processed st' = processed st ∧ hits st' = hits st ∧
      misses st' = misses st
  | HitK c =>
      cache st !! w_k w = Some c ∧
      cache st' = cache st ∧
      (∃ l, out st !! w_country w = Some l ∧
            out st'
            = <[w_country w := l ++ [Entry (w_city w) (Some c)]]> (out st)) ∧
      processed st' = S (processed st) ∧ hits st' = S (hits st) ∧
      misses st' = misses st
  | ResolveK g =>
      cache st' = <[w_k w := coord_of g]> (cache st) ∧
      (∃ l, out st !! w_country w = Some l ∧
            out st'
            = <[w_country w := l ++ [Entry (w_city w) (Some (coord_of g))]]>
                (out st)) ∧
      processed st' = S (processed st) ∧ hits st' = hits st ∧
      misses st' = misses st
  | MissK =>
      cache st' = cache st ∧ out st' = out st ∧
      processed st' = S (processed st) ∧ hits st' = hits st ∧
      misses st' = S (misses st)
  end.

Inductive turn (i : nat) (w : WorkItem) (st st' : state) : Prop :=
  | Turn (p p' : pc) (cs : list call) (rs : list response) (kd : kind)
         (new : list io) :
      work !! i = Some w →
      tasks st !! i = Some p →
      tasks st' = <[i := p']> (tasks st) →
      trace st' = trace st ++ new →
      (∀ j, calls j new = if decide (j = i) then cs else []) →
      (∀ j, resps j new = if decide (j = i) then rs else []) →
      rejected st' = rejected st →
      (p = Queued → pending st < concurrency keyed) →
      (keyed = false → delayed new = true ∧ delay_due new = false) →
      local w p cs rs p' kd →
      shared w kd st st' →
      turn i w st st'.

(** Every work item's country has its output array. *)
Definition out_ready (st : state) : Prop :=
  ∀ w, w ∈ work → is_Some (out st !! w_country w).

Lemma next_queued_lookup (ts : list pc) (i : nat) :
  next_queued ts = Some i → ts !! i = Some Queued.
Proof.
  revert i. induction ts as [|p ts IH]; intros i H; [done|].
  destruct p; simpl in H; try (by simplify_eq);
    destruct (next_queued ts) as [j|]; simplify_eq/=; by apply IH.
Qed.

Lemma tick_spec (st : state) :
  ∃ new, trace (tick work st) = trace st ++ new ∧
    (new = [] ∨ ∃ a b c d, new = [Progress a b c d]) ∧
    (∀ j, calls j new = []) ∧ (∀ j, resps j new = []) ∧
    cache (tick work st) = cache st ∧ out (tick work st) = out st ∧
    processed (tick work st) = S (processed st) ∧
    hits (tick work st) = hits st ∧ misses (tick work st) = misses st ∧
    tasks (tick work st) = tasks st ∧ rejected (tick work st) = rejected st.
Proof.
  unfold tick. cbn. destruct (_ || _); cbn.
  - eexists [_]. repeat split; eauto 10.
  - exists []. rewrite app_nil_r. repeat split; eauto.
Qed.

Ltac ticked :=
  match goal with
  | |- context [tick ?wk ?s] =>
      let new := fresh "new" in
      destruct (tick_spec s) as (new & ? & ? & ? & ? & ? & ? & ? & ? & ? & ? & ?);
      generalize dependent (tick wk s); intros; cbn in *
  end.

Ltac proj_events :=
  let j := fresh "j" in
  intros j; unfold calls, resps in *; rewrite ?omap_app;
  repeat match goal with H : ∀ j, omap _ _ = [] |- _ => rewrite !H end;
  cbn; repeat (case_decide; simplify_eq/=); done.

Ltac close_shared :=
  rewrite ?lookup_insert_eq in *;
  repeat match goal with
  | H : ?x = Some _ |- context [?x] => rewrite H
  | H : ?x = Some _, H' : context [?x] |- _ => rewrite H in H'
  | H : ?x = None |- context [?x] => rewrite H
  end;
  repeat split; cbn; try congruence; eauto.

Ltac close_trace :=
  repeat match goal with H : trace _ = _ |- _ => rewrite H end;
  rewrite <- ?app_assoc; done.

Ltac close_delay :=
  intros ?;
  first [ congruence
        | repeat match goal with
                 | H : _ = [] ∨ _ |- _ => destruct H as [->|(? & ? & ? & ? & ->)]
                 end;
          cbn; rewrite ?Nat.eqb_refl; done ].

Ltac close_turn :=
  first [ by constructor
        | close_delay
        | cbn in *; simplify_eq/=;
          first [ done | congruence | close_trace | proj_events | by close_shared ] ].

Ltac item_of_step Hstep Hout i w l Hw Hp Hl :=
  destruct (work !! i) as [w|] eqn:Hw; [|done]; simpl in Hstep;
  match type of Hstep with
  | context [tasks ?st !! i] =>
      let p := fresh "p" in
      destruct (tasks st !! i) as [p|] eqn:Hp; [|done]; simpl in Hstep
  end;
  destruct (Hout w) as [l Hl]; [by eapply list_elem_of_lookup_2|].

(** Every enabled event is a turn of one task. *)
Lemma step_turn (e : sched) (st st' : state) :
  out_ready st → step keyed work e st = Some st' → ∃ i w, turn i w st st'.
Proof.
  intros Hout Hstep. destruct e as [|i r|i]; simpl in Hstep.
  - case_decide; [|done].
    destruct (next_queued (tasks st)) as [i|] eqn:Hq; [|done]. simpl in Hstep.
    destruct (work !! i) as [w|] eqn:Hw; [|done]. simpl in Hstep. simplify_eq.
    apply next_queued_lookup in Hq.
    exists i, w. unfold begin.
    destruct (cache st !! w_k w) as [c|] eqn:Hc.
    + destruct (Hout w) as [l Hl]; [by eapply list_elem_of_lookup_2|].
      unfold push. rewrite Hl. simpl. ticked.
      eapply (Turn _ _ _ _ Queued Settled [] [] (HitK c) new); close_turn.
    + eapply (Turn _ _ _ _ Queued AwaitPrimary [q1 w] [] CacheMiss [_]); close_turn.
  - item_of_step Hstep Hout i w l Hw Hp Hl.
    exists i, w.
    destruct p; simplify_eq;
      unfold primary_done, fallback_done, after_primary, settle, push.
    + destruct r as [[g|]|], keyed eqn:Hk; cbn; rewrite ?Hl; cbn; try ticked.
      * eapply (Turn _ _ _ _ AwaitPrimary Settled [] [_] (ResolveK g)
                  ([Resp i (Returned (Some g))] ++ new)); close_turn.
      * eapply (Turn _ _ _ _ AwaitPrimary (SleepPrimary (Some g)) [] [_] Silent
                  [Resp i (Returned (Some g)); Sleep i 1100]); close_turn.
      * eapply (Turn _ _ _ _ AwaitPrimary AwaitFallback [q2 w] [_] Silent
                  [Resp i (Returned None); Call i _]); close_turn.
      * eapply (Turn _ _ _ _ AwaitPrimary (SleepPrimary None) [] [_] Silent
                  [Resp i (Returned None); Sleep i 1100]); close_turn.
      * eapply (Turn _ _ _ _ AwaitPrimary AwaitFallback [q2 w] [_] Silent
                  [Resp i Threw; Call i _]); close_turn.
      * eapply (Turn _ _ _ _ AwaitPrimary AwaitFallback [q2 w] [_] Silent
                  [Resp i Threw; Call i _]); close_turn.
    + destruct r as [[g|]|], keyed eqn:Hk; cbn; rewrite ?Hl; cbn; try ticked.
      * eapply (Turn _ _ _ _ AwaitFallback Settled [] [_] (ResolveK g)
                  ([Resp i (Returned (Some g))] ++ new)); close_turn.
      * eapply (Turn _ _ _ _ AwaitFallback (SleepFallback (Some g)) [] [_] Silent
                  [Resp i (Returned (Some g)); Sleep i 1100]); close_turn.
      * eapply (Turn _ _ _ _ AwaitFallback Settled [] [_] MissK
                  ([Resp i (Returned None)] ++ new)); close_turn.
      * eapply (Turn _ _ _ _ AwaitFallback (SleepFallback None) [] [_] Silent
                  [Resp i (Returned None); Sleep i 1100]); close_turn.
      * eapply (Turn _ _ _ _ AwaitFallback Settled [] [_] MissK
                  ([Resp i Threw] ++ new)); close_turn.
      * eapply (Turn _ _ _ _ AwaitFallback Settled [] [_] MissK
                  ([Resp i Threw] ++ new)); close_turn.
  - item_of_step Hstep Hout i w l Hw Hp Hl.
    exists i, w.
    destruct p as [| |res| |res|]; simplify_eq; unfold after_primary, settle, push;
      destruct res as [g|]; cbn; rewrite ?Hl; cbn; try ticked.
    + eapply (Turn _ _ _ _ (SleepPrimary (Some g)) Settled [] [] (ResolveK g) new);
        close_turn.
    + eapply (Turn _ _ _ _ (SleepPrimary None) AwaitFallback [q2 w] [] Silent [Call i _]);
        close_turn.
    + eapply (Turn _ _ _ _ (SleepFallback (Some g)) Settled [] [] (ResolveK g) new);
        close_turn.
    + eapply (Turn _ _ _ _ (SleepFallback None) Settled [] [] MissK new); close_turn.
Qed.

End Turns.

(** ** Counting over the tasks *)

Section Counting.

Context {A : Type}.

Lemma sum_insert (f : A → nat) (l : list A) (i : nat) (x y : A) :
  l !! i = Some x →
  sum_list_with f (<[i:=y]> l) + f x = sum_list_with f l + f y.
Proof.
  revert i. induction l as [|a l IH]; intros [|i] H; simplify_eq/=; [lia|].
  specialize (IH _ H). lia.
Qed.

Lemma sum_lookup_le (f : A → nat) (l : list A) (i : nat) (x : A) :
  l !! i = Some x → f x ≤ sum_list_with f l.
Proof.
  revert i. induction l as [|a l IH]; intros [|i] H; simplify_eq/=; [lia|].
  specialize (IH _ H). lia.
Qed.

Lemma sum_le_one_unique (f : A → nat) (l : list A) (i j : nat) (x y : A) :
  sum_list_with f l ≤ 1 → l !! i = Some x → l !! j = Some y →
  0 < f x → 0 < f y → i = j.
Proof.
  revert i j. induction l as [|a l IH]; intros [|i] [|j] Hs Hi Hj Hx Hy;
    simplify_eq/=; try done.
  - pose proof (sum_lookup_le f _ _ _ Hj). lia.
  - pose proof (sum_lookup_le f _ _ _ Hi). lia.
  - f_equal. apply IH; [lia|done..].
Qed.

(** [count P n]: how many indices below [n] satisfy [P]. *)
Fixpoint count (P : nat → bool) (n : nat) : nat :=
  match n with
  | 0 => 0
  | S m => count P m + (if P m then 1 else 0)
  end.

Lemma count_ext (P Q : nat → bool) (n : nat) :
  (∀ j, j < n → P j = Q j) → count P n = count Q n.
Proof.
  induction n as [|n IH]; intros H; [done|]. simpl.
  rewrite IH, (H n); [done | lia | intros; apply H; lia].
Qed.

Lemma count_set (P Q : nat → bool) (n i : nat) :
  i < n → (∀ j, j < n → j ≠ i → Q j = P j) →
  count Q n + (if P i then 1 else 0) = count P n + (if Q i then 1 else 0).
Proof.
  induction n as [|n IH]; intros Hi H; [lia|]. simpl.
  destruct (decide (i = n)) as [->|Hne].
  - rewrite (count_ext Q P n); [lia|]. intros j Hj. apply H; lia.
  - rewrite (H n) by lia.
    assert (count Q n + (if P i then 1 else 0) = count P n + (if Q i then 1 else 0))
      by (apply IH; [lia | intros; apply H; lia]).
    lia.
Qed.

Lemma count_all (P : nat → bool) (n : nat) :
  (∀ j, j < n → P j = true) → count P n = n.
Proof.
  induction n as [|n IH]; intros H; [done|]. simpl.
  rewrite IH, (H n); [lia | lia | intros; apply H; lia].
Qed.

Lemma count_none (P : nat → bool) (n : nat) :
  (∀ j, j < n → P j = false) → count P n = 0.
Proof.
  induction n as [|n IH]; intros H; [done|]. simpl.
  rewrite IH, (H n); [lia | lia | intros; apply H; lia].
Qed.

Lemma count_le (P Q : nat → bool) (n : nat) :
  (∀ j, j < n → P j = true → Q j = true) → count P n ≤ count Q n.
Proof.
  induction n as [|n IH]; intros H; [done|]. simpl.
  assert (count P n ≤ count Q n) by (apply IH; intros; apply H; [lia | done]).
  destruct (P n) eqn:E; [rewrite (H n) by (lia || done)|]; destruct (Q n); lia.
Qed.

(** Counting the indices of a list is counting its elements. *)
Lemma count_lookup (f : A → bool) (l : list A) :
  count (fun i => from_option f false (l !! i)) (length l)
  = length (filter (fun x => f x = true) l).
Proof.
  induction l as [|x l IH] using rev_ind; [done|].
  rewrite length_app, filter_app, length_app. simpl.
  rewrite Nat.add_1_r. simpl.
  rewrite <- IH. f_equal.
  - apply count_ext. intros j Hj. by rewrite lookup_app_l.
  - rewrite lookup_app_r, Nat.sub_diag by lia. simpl.
    rewrite filter_cons, filter_nil. by destruct (f x) eqn:E; case_decide.
Qed.

End Counting.

(** ** The history of a task *)

(** Both queries of the task failed. *)
Definition missed (rs : list response) : bool :=
  match rs with
  | [r1; r2] => failing r1 && failing r2
  | _ => false
  end.

Definition no_calls (cs : list call) : bool :=
  match cs with
  | [] => true
  | _ => false
  end.

(** How many turns a task can still take. *)
Definition weight (p : pc) : nat :=
  match p with
  | Queued => 5
  | AwaitPrimary => 4
  | SleepPrimary _ => 3
  | AwaitFallback => 2
  | SleepFallback _ => 1
  | Settled => 0
  end.

Section History.

Variable keyed : bool.

Local Abbreviation q1 w := (provider_call keyed (primary_query w) w).
Local Abbreviation q2 w := (provider_call keyed (w_city w) w).

(** The calls a task has made and the responses it has received, given
    where it stands. *)
Definition history_ok (w : WorkItem) (p : pc)
    (cs : list call) (rs : list response) : Prop :=
  match p with
  | Queued => cs = [] ∧ rs = []
  | AwaitPrimary => cs = [q1 w] ∧ rs = []
  | SleepPrimary res => cs = [q1 w] ∧ rs = [Returned res] ∧ keyed = false
  | AwaitFallback => cs = [q1 w; q2 w] ∧ ∃ r1, rs = [r1] ∧ failing r1 = true
  | SleepFallback res =>
      cs = [q1 w; q2 w] ∧ (∃ r1, rs = [r1; Returned res] ∧ failing r1 = true) ∧
      keyed = false
  | Settled =>
      (cs = [] ∧ rs = []) ∨
      (cs = [q1 w] ∧ ∃ g, rs = [Returned (Some g)]) ∨
      (cs = [q1 w; q2 w] ∧ ∃ r1 r2, rs = [r1; r2] ∧ failing r1 = true)
  end.

(** What the kind of a turn says about the task's history after it. *)
Definition outcome_ok (kd : kind) (p p' : pc)
    (cs : list call) (rs : list response) : Prop :=
  match kd with
  | HitK _ => p = Queued ∧ p' = Settled ∧ cs = [] ∧ rs = []
  | CacheMiss => p = Queued ∧ is_active p' = true ∧ cs ≠ []
  | Silent => is_active p = true ∧ is_active p' = true ∧ cs ≠ []
  | ResolveK g =>
      is_active p = true ∧ p' = Settled ∧ cs ≠ [] ∧
      last rs = Some (Returned (Some g)) ∧ missed rs = false
  | MissK =>
      is_active p = true ∧ p' = Settled ∧ cs ≠ [] ∧ missed rs = true
  end.

End History.

Lemma local_history (keyed : bool) (w : WorkItem) (p p' : pc)
    (cs cs0 : list call) (rs rs0 : list response) (kd : kind) :
  local keyed w p cs rs p' kd →
  history_ok keyed w p cs0 rs0 →
  history_ok keyed w p' (cs0 ++ cs) (rs0 ++ rs) ∧
  outcome_ok kd p p' (cs0 ++ cs) (rs0 ++ rs).
Proof.
  intros Hl Hh. destruct Hl; simpl in *; destruct_and?;
    repeat match goal with H : ∃ _, _ |- _ => destruct H as (? & ? & ?) end;
    subst; simpl.
  all: split;
    [ first [ done | by eauto 6 | by (right; left; eauto)
            | by (right; right; eauto 6) ] | ].
  all: repeat (split; [done|]); try done.
  all: repeat match goal with H : failing _ = true |- _ => rewrite H end; done.
Qed.

Lemma local_weight (keyed : bool) (w : WorkItem) (p p' : pc)
    (cs : list call) (rs : list response) (kd : kind) :
  local keyed w p cs rs p' kd → weight p' < weight p.
Proof. destruct 1; simpl; lia. Qed.

(** ** Invariants of a run *)

Lemma calls_app (i : nat) (tr tr' : list io) :
  calls i (tr ++ tr') = calls i tr ++ calls i tr'.
Proof. apply omap_app. Qed.

Lemma resps_app (i : nat) (tr tr' : list io) :
  resps i (tr ++ tr') = resps i tr ++ resps i tr'.
Proof. apply omap_app. Qed.

Lemma history_active (keyed : bool) (w : WorkItem) (p : pc)
    (cs : list call) (rs : list response) :
  history_ok keyed w p cs rs → is_active p = true → cs ≠ [].
Proof. destruct p; simpl; intros H ?; destruct_and?; by subst. Qed.

Lemma missed_last (rs : list response) (g : geo) :
  missed rs = true → last rs ≠ Some (Returned (Some g)).
Proof.
  destruct rs as [|r1 [|r2 [|r3 rs]]]; simpl; try done.
  intros [_ H]%andb_prop E. by simplify_eq.
Qed.

Ltac rew_goal :=
  repeat match goal with H : ?x = _ |- context [?x] => rewrite H end.

Section Invariants.

Variable keyed : bool.
Variable work : list WorkItem.
Variable cache0 : gmap string coord.

Definition settled_at (st : state) (i : nat) : bool :=
  is_settled (tasks st !! i).

Definition hit_at (st : state) (i : nat) : bool :=
  settled_at st i && no_calls (calls i (trace st)).

Definition missed_at (st : state) (i : nat) : bool :=
  settled_at st i && missed (resps i (trace st)).

(** What holds in every state of a run that started from the cache
    [cache0]: each task has the history its position allows; the loaded
    cache is still there, and a task that called the provider had found
    nothing under its key in it; the result of a resolved task is in the
    output; the counters count the settled tasks, the hits among them and
    the misses among them; every output entry and every new cache entry
    comes from a settled task that did not miss; the queue respects its
    limit. *)
Record inv (st : state) : Prop := Inv {
  inv_len : length (tasks st) = length work;
  inv_out : out_ready work st;
  inv_rej : rejected st = false;
  inv_hist : ∀ i w p,
    work !! i = Some w → tasks st !! i = Some p →
    history_ok keyed w p (calls i (trace st)) (resps i (trace st));
  inv_cache0 : ∀ k c, cache0 !! k = Some c → cache st !! k = Some c;
  inv_called : ∀ i w,
    work !! i = Some w → calls i (trace st) ≠ [] → cache0 !! w_k w = None;
  inv_found : ∀ i w g,
    work !! i = Some w → tasks st !! i = Some Settled →
    last (resps i (trace st)) = Some (Returned (Some g)) →
    ∃ l, out st !! w_country w = Some l ∧
         Entry (w_city w) (Some (coord_of g)) ∈ l;
  inv_processed : processed st = count (settled_at st) (length work);
  inv_hits : hits st = count (hit_at st) (length work);
  inv_misses : misses st = count (missed_at st) (length work);
  inv_out_from : ∀ c l e,
    out st !! c = Some l → e ∈ l →
    is_Some (e_coord e) ∧
    ∃ i w, work !! i = Some w ∧ w_country w = c ∧ w_city w = e_name e ∧
           tasks st !! i = Some Settled ∧ missed (resps i (trace st)) = false;
  inv_cache_from : ∀ k c,
    cache st !! k = Some c →
    cache0 !! k = Some c ∨
    ∃ i w g, work !! i = Some w ∧ w_k w = k ∧ c = coord_of g ∧
             tasks st !! i = Some Settled ∧
             last (resps i (trace st)) = Some (Returned (Some g));
  inv_pending : pending st ≤ concurrency keyed
}.

(** What a turn of task [i] leaves alone and what it changes. *)
Record turned (i : nat) (w : WorkItem) (p p' : pc) (kd : kind)
    (st st' : state) : Prop := Turned {
  td_item : work !! i = Some w;
  td_index : i < length work;
  td_before : tasks st !! i = Some p;
  td_after : tasks st' !! i = Some p';
  td_tasks : tasks st' = <[i := p']> (tasks st);
  td_other : ∀ j, j ≠ i →
    tasks st' !! j = tasks st !! j ∧
    calls j (trace st') = calls j (trace st) ∧
    resps j (trace st') = resps j (trace st);
  td_hist : history_ok keyed w p' (calls i (trace st')) (resps i (trace st'));
  td_outcome : outcome_ok kd p p' (calls i (trace st')) (resps i (trace st'));
  td_old_hist : history_ok keyed w p (calls i (trace st)) (resps i (trace st));
  td_shared : shared w kd st st';
  td_rejected : rejected st' = rejected st;
  td_slot : p = Queued → pending st < concurrency keyed;
  td_local : ∃ cs rs, local keyed w p cs rs p' kd
}.

Lemma turn_turned (i : nat) (w : WorkItem) (st st' : state) :
  inv st → turn keyed work i w st st' → ∃ p p' kd, turned i w p p' kd st st'.
Proof.
  intros I [p p' cs rs kd new Hw Hp Hts Htr Hcs Hrs Hrej Hslot _ Hloc Hsh].
  exists p, p', kd.
  pose proof (inv_hist _ I _ _ _ Hw Hp) as Hh.
  destruct (local_history _ _ _ _ _ _ _ _ _ Hloc Hh) as [Hh' Ho].
  assert (i < length (tasks st)) by by eapply lookup_lt_Some.
  split; try done.
  - by eapply lookup_lt_Some.
  - rewrite Hts. by apply list_lookup_insert_eq.
  - intros j Hj. rewrite Hts, Htr, calls_app, resps_app, Hcs, Hrs.
    rewrite list_lookup_insert_ne by done.
    rewrite !decide_False by done. by rewrite !app_nil_r.
  - rewrite Htr, calls_app, resps_app, Hcs, Hrs, !decide_True by done. done.
  - rewrite Htr, calls_app, resps_app, Hcs, Hrs, !decide_True by done. done.
  - eauto.
Qed.

Definition pushes (kd : kind) : Prop :=
  match kd with
  | HitK _ | ResolveK _ => True
  | _ => False
  end.

Lemma shared_out_mono (w : WorkItem) (kd : kind) (st st' : state)
    (c : string) (l : list entry) :
  shared w kd st st' → out st !! c = Some l →
  ∃ l', out st' !! c = Some l' ∧ ∀ e, e ∈ l → e ∈ l'.
Proof.
  intros Hsh Hl.
  destruct kd; simpl in Hsh; destruct_and?;
    repeat match goal with H : ∃ _, _ |- _ => destruct H as (l0 & Hl0 & ->) end;
    try (exists l; split; [congruence | done]).
  all: destruct (decide (w_country w = c)) as [<-|Hne];
    [ rewrite lookup_insert_eq; simplify_eq; eexists; split; [done|];
      intros e He; apply elem_of_app; by left
    | rewrite lookup_insert_ne by done; eauto ].
Qed.

Lemma shared_out_new (w : WorkItem) (kd : kind) (st st' : state)
    (c : string) (l' : list entry) (e : entry) :
  shared w kd st st' → out st' !! c = Some l' → e ∈ l' →
  (∃ l, out st !! c = Some l ∧ e ∈ l) ∨
  (pushes kd ∧ c = w_country w ∧ e_name e = w_city w ∧ is_Some (e_coord e) ∧
   e_coord e = cache st' !! w_k w).
Proof.
  intros Hsh Hl He.
  destruct kd; simpl in Hsh; destruct_and?;
    repeat match goal with H : ∃ _, _ |- _ => destruct H as (l0 & Hl0 & Ho) end;
    try (left; exists l'; split; [congruence | done]).
  all: rewrite Ho in Hl; destruct (decide (w_country w = c)) as [<-|Hne];
    [ rewrite lookup_insert_eq in Hl; simplify_eq;
      apply elem_of_app in He as [He|He%list_elem_of_singleton];
      [ left; eauto | right; subst e; simpl ]
    | rewrite lookup_insert_ne in Hl by done; left; eauto ].
  - repeat split; eauto. congruence.
  - repeat split; eauto.
    match goal with H : cache st' = _ |- _ => rewrite H end.
    by rewrite lookup_insert_eq.
Qed.

Lemma shared_cache_new (w : WorkItem) (kd : kind) (st st' : state)
    (k : string) (c : coord) :
  shared w kd st st' → cache st' !! k = Some c →
  cache st !! k = Some c ∨ (∃ g, kd = ResolveK g ∧ k = w_k w ∧ c = coord_of g).
Proof.
  intros Hsh Hc.
  destruct kd; simpl in Hsh; destruct_and?; try (left; congruence).
  match goal with H : cache st' = _ |- _ => rewrite H in Hc end.
  destruct (decide (w_k w = k)) as [<-|Hne].
  - rewrite lookup_insert_eq in Hc. simplify_eq. right. eauto.
  - rewrite lookup_insert_ne in Hc by done. by left.
Qed.

Lemma shared_cache_mono (w : WorkItem) (kd : kind) (st st' : state)
    (k : string) (c : coord) :
  shared w kd st st' → cache st !! k = Some c →
  (∀ g, kd = ResolveK g → k ≠ w_k w) →
  cache st' !! k = Some c.
Proof.
  intros Hsh Hc Hk.
  destruct kd; simpl in Hsh; destruct_and?; try congruence.
  match goal with H : cache st' = _ |- _ => rewrite H end.
  rewrite lookup_insert_ne; [done|]. intros E. by eapply Hk.
Qed.

Section Preservation.

Context {i : nat} {w : WorkItem} {p p' : pc} {kd : kind} {st st' : state}.
Hypothesis I : inv st.
Hypothesis T : turned i w p p' kd st st'.

Lemma pres_len : length (tasks st') = length work.
Proof. rewrite (td_tasks _ _ _ _ _ _ _ T), length_insert. apply I. Qed.

Lemma pres_out : out_ready work st'.
Proof.
  intros w' Hw'. destruct (inv_out _ I w' Hw') as [l Hl].
  destruct (shared_out_mono _ _ _ _ _ _ (td_shared _ _ _ _ _ _ _ T) Hl) as (l' & -> & _).
  done.
Qed.

Lemma pres_rej : rejected st' = false.
Proof. rewrite (td_rejected _ _ _ _ _ _ _ T). apply I. Qed.

Lemma pres_hist (j : nat) (w' : WorkItem) (q : pc) :
  work !! j = Some w' → tasks st' !! j = Some q →
  history_ok keyed w' q (calls j (trace st')) (resps j (trace st')).
Proof.
  intros Hw' Hq. destruct (decide (j = i)) as [->|Hne].
  - rewrite (td_item _ _ _ _ _ _ _ T) in Hw'.
    rewrite (td_after _ _ _ _ _ _ _ T) in Hq. simplify_eq. apply T.
  - destruct (td_other _ _ _ _ _ _ _ T j Hne) as (E1 & -> & ->).
    rewrite E1 in Hq. by apply I.
Qed.

Lemma p_not_settled : p ≠ Settled.
Proof. destruct (td_local _ _ _ _ _ _ _ T) as (cs & rs & Hl). by destruct Hl. Qed.

Lemma pres_called (j : nat) (w' : WorkItem) :
  work !! j = Some w' → calls j (trace st') ≠ [] → cache0 !! w_k w' = None.
Proof.
  intros Hw' Hc. destruct (decide (j = i)) as [->|Hne].
  - rewrite (td_item _ _ _ _ _ _ _ T) in Hw'. simplify_eq.
    pose proof (td_outcome _ _ _ _ _ _ _ T) as Ho.
    pose proof (td_shared _ _ _ _ _ _ _ T) as Hs.
    pose proof (td_old_hist _ _ _ _ _ _ _ T) as Hh.
    pose proof (td_item _ _ _ _ _ _ _ T) as Hw.
    assert (is_active p = true → cache0 !! w_k w' = None) as Hact.
    { intros Ha. apply (inv_called _ I i w' Hw). by eapply history_active. }
    destruct kd; simpl in Ho, Hs; destruct_and?; eauto; try done.
    destruct (cache0 !! w_k w') as [c|] eqn:E; [|done].
    apply (inv_cache0 _ I) in E. congruence.
  - destruct (td_other _ _ _ _ _ _ _ T j Hne) as (_ & E & _).
    rewrite E in Hc. by eapply (inv_called _ I).
Qed.

Lemma pres_cache0 (k : string) (c : coord) :
  cache0 !! k = Some c → cache st' !! k = Some c.
Proof.
  intros Hc. eapply shared_cache_mono; [apply T | by apply I |].
  intros g Ek Ew.
  pose proof (td_outcome _ _ _ _ _ _ _ T) as Ho. rewrite Ek in Ho.
  simpl in Ho. destruct_and?.
  rewrite Ew, (pres_called i w) in Hc; [done | apply T | done].
Qed.

Lemma pres_found (j : nat) (w' : WorkItem) (g : geo) :
  work !! j = Some w' → tasks st' !! j = Some Settled →
  last (resps j (trace st')) = Some (Returned (Some g)) →
  ∃ l, out st' !! w_country w' = Some l ∧
       Entry (w_city w') (Some (coord_of g)) ∈ l.
Proof.
  intros Hw' Hq Hlast. destruct (decide (j = i)) as [->|Hne].
  - rewrite (td_item _ _ _ _ _ _ _ T) in Hw'.
    rewrite (td_after _ _ _ _ _ _ _ T) in Hq. simplify_eq.
    pose proof (td_outcome _ _ _ _ _ _ _ T) as Ho.
    pose proof (td_shared _ _ _ _ _ _ _ T) as Hs.
    destruct kd; simpl in Ho, Hs; destruct_and?; try done.
    + match goal with H : resps _ _ = [] |- _ => by rewrite H in Hlast end.
    + match goal with H : ∃ _, _ |- _ => destruct H as (l & Hl & ->) end.
      rewrite lookup_insert_eq.
      eexists; split; [done|]. apply elem_of_app. right.
      match goal with H : last _ = Some _ |- _ => rewrite H in Hlast end.
      simplify_eq. by apply list_elem_of_singleton.
    + by eapply missed_last in Hlast.
  - destruct (td_other _ _ _ _ _ _ _ T j Hne) as (E1 & _ & E3).
    rewrite E1 in Hq. rewrite E3 in Hlast.
    destruct (inv_found _ I j w' g Hw' Hq Hlast) as (l & Hl & He).
    destruct (shared_out_mono _ _ _ _ _ _ (td_shared _ _ _ _ _ _ _ T) Hl)
      as (l' & Hl' & Hin).
    eauto.
Qed.

Lemma settled_before : settled_at st i = false.
Proof.
  unfold settled_at. rewrite (td_before _ _ _ _ _ _ _ T).
  pose proof p_not_settled. by destruct p.
Qed.

Lemma settled_after : settled_at st' i = is_settled (Some p').
Proof. unfold settled_at. by rewrite (td_after _ _ _ _ _ _ _ T). Qed.

Lemma count_turn (f : state → nat → bool) :
  (∀ j, j ≠ i → f st' j = f st j) → f st i = false →
  count (f st') (length work)
  = count (f st) (length work) + (if f st' i then 1 else 0).
Proof.
  intros Hother Hi.
  pose proof (count_set (f st) (f st') (length work) i
                (td_index _ _ _ _ _ _ _ T) (fun j _ Hj => Hother j Hj)) as H.
  rewrite Hi in H. lia.
Qed.

Lemma pres_processed : processed st' = count (settled_at st') (length work).
Proof.
  rewrite (count_turn settled_at), <- (inv_processed _ I).
  - rewrite settled_after.
    pose proof (td_outcome _ _ _ _ _ _ _ T) as Ho.
    pose proof (td_shared _ _ _ _ _ _ _ T) as Hs.
    destruct kd; simpl in Ho, Hs; destruct_and?; subst; simpl; try lia.
    all: destruct p'; simpl in *; try done; lia.
  - intros j Hj. unfold settled_at.
    by destruct (td_other _ _ _ _ _ _ _ T j Hj) as (-> & _).
  - apply settled_before.
Qed.

Lemma pres_hits : hits st' = count (hit_at st') (length work).
Proof.
  rewrite (count_turn hit_at), <- (inv_hits _ I).
  - unfold hit_at. rewrite settled_after.
    pose proof (td_outcome _ _ _ _ _ _ _ T) as Ho.
    pose proof (td_shared _ _ _ _ _ _ _ T) as Hs.
    destruct kd; simpl in Ho, Hs; destruct_and?; subst; simpl.
    all: try (destruct p'; simpl in *; try done; lia).
    + rew_goal. simpl. lia.
    + destruct (calls i (trace st')); [done|]. simpl. lia.
    + destruct (calls i (trace st')); [done|]. simpl. lia.
  - intros j Hj. unfold hit_at, settled_at.
    by destruct (td_other _ _ _ _ _ _ _ T j Hj) as (-> & -> & _).
  - unfold hit_at. by rewrite settled_before.
Qed.

Lemma pres_misses : misses st' = count (missed_at st') (length work).
Proof.
  rewrite (count_turn missed_at), <- (inv_misses _ I).
  - unfold missed_at. rewrite settled_after.
    pose proof (td_outcome _ _ _ _ _ _ _ T) as Ho.
    pose proof (td_shared _ _ _ _ _ _ _ T) as Hs.
    destruct kd; simpl in Ho, Hs; destruct_and?; subst; simpl.
    all: try (destruct p'; simpl in *; try done; lia).
    + rew_goal. simpl. lia.
    + rew_goal. lia.
    + rew_goal. lia.
  - intros j Hj. unfold missed_at, settled_at.
    by destruct (td_other _ _ _ _ _ _ _ T j Hj) as (-> & _ & ->).
  - unfold missed_at. by rewrite settled_before.
Qed.

(** A task that was settled before the turn is not the one that moved. *)
Lemma settled_other (j : nat) :
  tasks st !! j = Some Settled →
  j ≠ i ∧ tasks st' !! j = Some Settled ∧
  calls j (trace st') = calls j (trace st) ∧
  resps j (trace st') = resps j (trace st).
Proof.
  intros Hj. assert (j ≠ i) as Hne.
  { intros ->. rewrite (td_before _ _ _ _ _ _ _ T) in Hj.
    pose proof p_not_settled. congruence. }
  destruct (td_other _ _ _ _ _ _ _ T j Hne) as (-> & -> & ->). done.
Qed.

Lemma pres_out_from (c : string) (l : list entry) (e : entry) :
  out st' !! c = Some l → e ∈ l →
  is_Some (e_coord e) ∧
  ∃ j w', work !! j = Some w' ∧ w_country w' = c ∧ w_city w' = e_name e ∧
          tasks st' !! j = Some Settled ∧ missed (resps j (trace st')) = false.
Proof.
  intros Hl He.
  destruct (shared_out_new _ _ _ _ _ _ _ (td_shared _ _ _ _ _ _ _ T) Hl He)
    as [(l0 & Hl0 & He0)|(Hpush & -> & Hname & Hco & _)].
  - destruct (inv_out_from _ I c l0 e Hl0 He0) as (Hco & j & w' & ? & ? & ? & Hs & ?).
    split; [done|]. exists j, w'.
    destruct (settled_other j Hs) as (_ & ? & _ & ->). done.
  - split; [done|]. exists i, w.
    pose proof (td_outcome _ _ _ _ _ _ _ T) as Ho.
    pose proof (td_after _ _ _ _ _ _ _ T) as Ha.
    pose proof (td_item _ _ _ _ _ _ _ T) as Hw.
    destruct kd; simpl in Ho, Hpush; destruct_and?; try done.
    + repeat split; try done; try congruence. by rew_goal.
    + repeat split; try done; congruence.
Qed.

Lemma pres_cache_from (k : string) (c : coord) :
  cache st' !! k = Some c →
  cache0 !! k = Some c ∨
  ∃ j w' g, work !! j = Some w' ∧ w_k w' = k ∧ c = coord_of g ∧
            tasks st' !! j = Some Settled ∧
            last (resps j (trace st')) = Some (Returned (Some g)).
Proof.
  intros Hc.
  destruct (shared_cache_new _ _ _ _ _ _ (td_shared _ _ _ _ _ _ _ T) Hc)
    as [Hold|(g & Ek & -> & ->)].
  - destruct (inv_cache_from _ I k c Hold) as [?|(j & w' & g & ? & ? & ? & Hs & ?)];
      [by left|].
    right. exists j, w', g.
    destruct (settled_other j Hs) as (_ & ? & _ & ->). done.
  - right. exists i, w, g.
    pose proof (td_outcome _ _ _ _ _ _ _ T) as Ho. rewrite Ek in Ho.
    pose proof (td_after _ _ _ _ _ _ _ T) as Ha.
    pose proof (td_item _ _ _ _ _ _ _ T) as Hw.
    simpl in Ho. destruct_and?. repeat split; try done; congruence.
Qed.

Lemma pending_turn : pending st' + running p = pending st + running p'.
Proof.
  unfold pending. rewrite (td_tasks _ _ _ _ _ _ _ T).
  apply (sum_insert running). apply T.
Qed.

Lemma pres_pending : pending st' ≤ concurrency keyed.
Proof.
  pose proof pending_turn as E.
  pose proof (inv_pending _ I) as Hle.
  pose proof (td_slot _ _ _ _ _ _ _ T) as Hslot.
  assert (running p' ≤ 1) by (unfold running; destruct (is_active p'); lia).
  pose proof p_not_settled as Hns. unfold running in *.
  destruct p; simpl in *; try done; try lia.
  specialize (Hslot eq_refl). lia.
Qed.

Lemma weight_turn :
  sum_list_with weight (tasks st') < sum_list_with weight (tasks st).
Proof.
  destruct (td_local _ _ _ _ _ _ _ T) as (cs & rs & Hl).
  apply local_weight in Hl.
  pose proof (sum_insert weight (tasks st) i p p' (td_before _ _ _ _ _ _ _ T)) as E.
  rewrite <- (td_tasks _ _ _ _ _ _ _ T) in E. lia.
Qed.

Lemma pres_inv : inv st'.
Proof.
  split.
  - apply pres_len.
  - apply pres_out.
  - apply pres_rej.
  - apply pres_hist.
  - apply pres_cache0.
  - apply pres_called.
  - apply pres_found.
  - apply pres_processed.
  - apply pres_hits.
  - apply pres_misses.
  - apply pres_out_from.
  - apply pres_cache_from.
  - apply pres_pending.
Qed.

End Preservation.

End Invariants.

(** ** Runs *)

(** A property of the first state that every turn preserves holds after
    any schedule. *)
Lemma exec_invariant (keyed : bool) (work : list WorkItem) (P : state → Prop)
    (evs : list sched) (st0 st : state) :
  P st0 →
  (∀ e s s', P s → step keyed work e s = Some s' → P s') →
  exec keyed work evs st0 = Some st → P st.
Proof.
  intros H0 Hstep. revert st0 H0.
  induction evs as [|e evs IH]; intros st0 H0 He; simpl in He; [by simplify_eq|].
  destruct (step keyed work e st0) as [st1|] eqn:E; [|done]. simpl in He.
  eapply IH; [|done]. eauto.
Qed.

Section Reachable.

Variable keyed : bool.
Variable work : list WorkItem.
Variable cache0 : gmap string coord.
Variable out0 : gmap string (list entry).

Hypothesis out0_ready : ∀ w, w ∈ work → is_Some (out0 !! w_country w).
Hypothesis out0_empty : ∀ c l, out0 !! c = Some l → l = [].

Lemma inv_init : inv keyed work cache0 (init work out0 cache0).
Proof.
  split; simpl.
  - apply length_replicate.
  - exact out0_ready.
  - done.
  - intros i w p _ [-> _]%lookup_replicate. done.
  - done.
  - done.
  - intros i w g _ [? _]%lookup_replicate. done.
  - symmetry. apply count_none. intros j Hj. unfold settled_at. simpl.
    by rewrite lookup_replicate_2.
  - symmetry. apply count_none. intros j Hj. unfold hit_at, settled_at. simpl.
    by rewrite lookup_replicate_2.
  - symmetry. apply count_none. intros j Hj. unfold missed_at, settled_at. simpl.
    by rewrite lookup_replicate_2.
  - intros c l e Hl He. apply out0_empty in Hl. subst. by apply elem_of_nil in He.
  - intros k c Hc. by left.
  - unfold pending. simpl.
    assert (sum_list_with running (replicate (length work) Queued) = 0) as ->; [|lia].
    induction (length work); simpl; lia.
Qed.

Lemma inv_step (e : sched) (st st' : state) :
  inv keyed work cache0 st → step keyed work e st = Some st' →
  inv keyed work cache0 st'.
Proof.
  intros I Hs.
  destruct (step_turn _ _ _ _ _ (inv_out _ _ _ _ I) Hs) as (i & w & Ht).
  destruct (turn_turned _ _ _ _ _ _ _ I Ht) as (p & p' & kd & Hd).
  by eapply pres_inv.
Qed.

Lemma inv_exec (evs : list sched) (st : state) :
  exec keyed work evs (init work out0 cache0) = Some st →
  inv keyed work cache0 st.
Proof.
  apply exec_invariant; [apply inv_init | apply inv_step].
Qed.

End Reachable.

(** ** The work list and the pre-allocated output *)

Definition country_of (e : string * option (list string)) : string :=
  normalizeName e.1.

Lemma foldl_build_work (acc : gmap string (list entry) * list WorkItem)
    (raw : catalog) :
  (foldl build_step acc raw).2
  = acc.2 ++ (raw ≫= fun e => items_of (country_of e) e.2).
Proof.
  revert acc. induction raw as [|e raw IH]; intros acc; simpl.
  - by rewrite app_nil_r.
  - rewrite IH. simpl. by rewrite <- app_assoc.
Qed.

Lemma foldl_build_out (acc : gmap string (list entry) * list WorkItem)
    (raw : catalog) (c : string) :
  (foldl build_step acc raw).1 !! c
  = if decide (c ∈ country_of <$> raw) then Some [] else acc.1 !! c.
Proof.
  revert acc. induction raw as [|e raw IH]; intros acc.
  - done.
  - change (foldl build_step acc (e :: raw))
      with (foldl build_step (build_step acc e) raw).
    rewrite IH, fmap_cons.
    destruct (decide (c ∈ country_of <$> raw)) as [Hin|Hnin].
    + rewrite decide_True; [done | by right].
    + destruct (decide (c = country_of e)) as [->|Hne].
      * rewrite decide_True by by left. apply lookup_insert_eq.
      * rewrite decide_False by (by intros [?|?]%elem_of_cons).
        apply lookup_insert_ne. by intros <-.
Qed.

(** The work list is the concatenation of the cities of every country, in
    the order of the catalog. *)
Lemma build_work (raw : catalog) :
  (build raw).2 = raw ≫= fun e => items_of (country_of e) e.2.
Proof. unfold build. by rewrite foldl_build_work. Qed.

Lemma build_out (raw : catalog) (c : string) :
  (build raw).1 !! c = if decide (c ∈ country_of <$> raw) then Some [] else None.
Proof. unfold build. by rewrite foldl_build_out. Qed.

Lemma build_items (raw : catalog) (w : WorkItem) :
  w ∈ (build raw).2 ↔
  ∃ e cityRaw, e ∈ raw ∧ cityRaw ∈ default [] e.2 ∧
    w = Item (country_of e) (normalizeName cityRaw)
             (key (country_of e) (normalizeName cityRaw)).
Proof.
  rewrite build_work, list_elem_of_bind. unfold items_of. split.
  - intros (e & Hw & He). apply list_elem_of_fmap in Hw as (cityRaw & -> & Hc).
    eauto.
  - intros (e & cityRaw & He & Hc & ->). exists e. split; [|done].
    apply list_elem_of_fmap. eauto.
Qed.

Lemma build_ready (raw : catalog) (w : WorkItem) :
  w ∈ (build raw).2 → is_Some ((build raw).1 !! w_country w).
Proof.
  intros (e & cityRaw & He & _ & ->)%build_items. simpl.
  rewrite build_out, decide_True; [done|].
  apply list_elem_of_fmap. eauto.
Qed.

Lemma build_empty (raw : catalog) (c : string) (l : list entry) :
  (build raw).1 !! c = Some l → l = [].
Proof. rewrite build_out. case_decide; congruence. Qed.

Lemma build_keys (raw : catalog) (w : WorkItem) :
  w ∈ (build raw).2 → w_k w = key (w_country w) (w_city w).
Proof. by intros (e & cityRaw & _ & _ & ->)%build_items. Qed.


(** Every state a run can reach satisfies the invariants. *)
Lemma inv_run (keyed : bool) (raw : catalog) (cache0 : gmap string coord)
    (evs : list sched) (st : state) :
  run keyed raw cache0 evs = Some st → inv keyed (build raw).2 cache0 st.
Proof.
  apply inv_exec; [apply build_ready | apply build_empty].
Qed.

(** ** One task per key at a time

    The cache is read when a task starts and written when it returns.  When
    no two tasks for the same key are in flight together - the queue runs
    one task at a time, or the keys of the work list are pairwise distinct -
    no cache entry is ever replaced and the output agrees with the cache. *)

Section Exclusive.

Variable keyed : bool.
Variable work : list WorkItem.
Variable cache0 : gmap string coord.

Hypothesis exclusive : keyed = false ∨ NoDup (w_k <$> work).
Hypothesis keys_ok : ∀ w, w ∈ work → w_k w = key (w_country w) (w_city w).

Record agree (st : state) : Prop := Agree {
  ag_absent : ∀ i w p,
    work !! i = Some w → tasks st !! i = Some p → is_active p = true →
    cache st !! w_k w = None;
  ag_out : ∀ c l e,
    out st !! c = Some l → e ∈ l →
    ∃ co, e_coord e = Some co ∧ cache st !! key c (e_name e) = Some co
}.

Lemma distinct_keys (i j : nat) (w w' : WorkItem) :
  NoDup (w_k <$> work) → work !! i = Some w → work !! j = Some w' →
  w_k w = w_k w' → i = j.
Proof.
  intros Hnd Hi Hj E.
  eapply (NoDup_lookup _ i j (w_k w)); [done | |].
  - by rewrite list_lookup_fmap, Hi.
  - by rewrite list_lookup_fmap, Hj, E.
Qed.

Section Preservation.

Context {i : nat} {w : WorkItem} {p p' : pc} {kd : kind} {st st' : state}.
Hypothesis I : inv keyed work cache0 st.
Hypothesis A : agree st.
Hypothesis T : turned keyed work i w p p' kd st st'.

(** While a task that will write the cache is in flight, no other task
    for its key is. *)
Lemma alone (j : nat) (w' : WorkItem) (q : pc) :
  is_active p = true →
  work !! j = Some w' → tasks st !! j = Some q → is_active q = true →
  w_k w' = w_k w → j = i.
Proof.
  intros Hp Hw' Hq Ha E. destruct exclusive as [Hk|Hnd].
  - eapply (sum_le_one_unique running (tasks st) j i q p);
      [| done | apply T | unfold running; rewrite Ha; lia
       | unfold running; rewrite Hp; lia ].
    pose proof (inv_pending _ _ _ _ I) as Hle. unfold pending in Hle.
    unfold concurrency in Hle. by rewrite Hk in Hle.
  - eapply distinct_keys; [done | done | apply T | done].
Qed.

Lemma pres_absent (j : nat) (w' : WorkItem) (q : pc) :
  work !! j = Some w' → tasks st' !! j = Some q → is_active q = true →
  cache st' !! w_k w' = None.
Proof.
  intros Hw' Hq Ha.
  pose proof (td_outcome _ _ _ _ _ _ _ _ _ T) as Ho.
  pose proof (td_shared _ _ _ _ _ _ _ _ _ T) as Hs.
  destruct (decide (j = i)) as [->|Hne].
  - rewrite (td_item _ _ _ _ _ _ _ _ _ T) in Hw'.
    rewrite (td_after _ _ _ _ _ _ _ _ _ T) in Hq. simplify_eq.
    destruct kd; simpl in Ho, Hs; destruct_and?; subst; try done.
    + rew_goal. eapply (ag_absent _ A); [apply T | apply T | done].
    + by rew_goal.
  - destruct (td_other _ _ _ _ _ _ _ _ _ T j Hne) as (E1 & _ & _).
    rewrite E1 in Hq.
    pose proof (ag_absent _ A j w' q Hw' Hq Ha) as Hold.
    pose proof (fun Hp => alone j w' q Hp Hw' Hq Ha) as Halone.
    destruct kd; simpl in Ho, Hs; destruct_and?; try by rew_goal.
    rew_goal. rewrite lookup_insert_ne; [done|].
    intros E. apply Hne. by apply Halone.
Qed.

Lemma pres_agree_out (c : string) (l : list entry) (e : entry) :
  out st' !! c = Some l → e ∈ l →
  ∃ co, e_coord e = Some co ∧ cache st' !! key c (e_name e) = Some co.
Proof.
  intros Hl He.
  pose proof (td_shared _ _ _ _ _ _ _ _ _ T) as Hs.
  pose proof (td_outcome _ _ _ _ _ _ _ _ _ T) as Ho.
  assert (w ∈ work) as Hin by (eapply list_elem_of_lookup_2; apply T).
  destruct (shared_out_new _ _ _ _ _ _ _ Hs Hl He)
    as [(l0 & Hl0 & He0)|(Hpush & -> & Hname & [co Hco] & Hcache)].
  - destruct (ag_out _ A c l0 e Hl0 He0) as (co & Hco & Hc).
    exists co. split; [done|].
    eapply shared_cache_mono; [done | done |].
    intros g Ek Ekey. rewrite Ek in Ho. simpl in Ho. destruct_and?.
    rewrite Ekey, (ag_absent _ A i w p) in Hc; [done | apply T | apply T | done].
  - exists co. split; [done|].
    rewrite Hname, <- (keys_ok w Hin). congruence.
Qed.

Lemma pres_agree : agree st'.
Proof. split; [apply pres_absent | apply pres_agree_out]. Qed.

End Preservation.

Lemma agree_step (e : sched) (st st' : state) :
  inv keyed work cache0 st → agree st →
  step keyed work e st = Some st' → agree st'.
Proof.
  intros I A Hs.
  destruct (step_turn _ _ _ _ _ (inv_out _ _ _ _ I) Hs) as (i & w & Ht).
  destruct (turn_turned _ _ _ _ _ _ _ I Ht) as (p & p' & kd & Hd).
  by eapply pres_agree.
Qed.

Lemma agree_exec (out0 : gmap string (list entry)) (evs : list sched) (st : state) :
  (∀ w, w ∈ work → is_Some (out0 !! w_country w)) →
  (∀ c l, out0 !! c = Some l → l = []) →
  exec keyed work evs (init work out0 cache0) = Some st → agree st.
Proof.
  intros Hready Hempty He.
  cut (inv keyed work cache0 st ∧ agree st); [tauto|].
  eapply (exec_invariant keyed work (fun s => inv keyed work cache0 s ∧ agree s));
    [| | exact He].
  - split; [by apply inv_init|]. split; simpl.
    + intros i w p _ [-> _]%lookup_replicate. done.
    + intros c l e Hl Hin. apply Hempty in Hl. subst. by apply elem_of_nil in Hin.
  - intros e s s' [I A] Hs. split; [by eapply inv_step | by eapply agree_step].
Qed.

End Exclusive.

(** ** Pairwise distinct keys

    With pairwise distinct keys a task that has not started still sees the
    cache entry of its key as it was loaded, so the cache hits of the run
    are the work items whose key was in the loaded cache. *)

Section Distinct.

Variable keyed : bool.
Variable work : list WorkItem.
Variable cache0 : gmap string coord.

Hypothesis distinct : NoDup (w_k <$> work).

Record fresh (st : state) : Prop := Fresh {
  fr_queued : ∀ i w,
    work !! i = Some w → tasks st !! i = Some Queued →
    cache st !! w_k w = cache0 !! w_k w;
  fr_hit : ∀ i w,
    work !! i = Some w → tasks st !! i = Some Settled →
    calls i (trace st) = [] → is_Some (cache0 !! w_k w)
}.

Section Preservation.

Context {i : nat} {w : WorkItem} {p p' : pc} {kd : kind} {st st' : state}.
Hypothesis I : inv keyed work cache0 st.
Hypothesis F : fresh st.
Hypothesis T : turned keyed work i w p p' kd st st'.

Lemma pres_queued (j : nat) (w' : WorkItem) :
  work !! j = Some w' → tasks st' !! j = Some Queued →
  cache st' !! w_k w' = cache0 !! w_k w'.
Proof.
  intros Hw' Hq.
  pose proof (td_outcome _ _ _ _ _ _ _ _ _ T) as Ho.
  pose proof (td_shared _ _ _ _ _ _ _ _ _ T) as Hs.
  pose proof (td_item _ _ _ _ _ _ _ _ _ T) as Hw.
  destruct (decide (j = i)) as [->|Hne].
  - rewrite (td_after _ _ _ _ _ _ _ _ _ T) in Hq. simplify_eq.
    destruct kd; simpl in Ho; destruct_and?; done.
  - destruct (td_other _ _ _ _ _ _ _ _ _ T j Hne) as (E1 & _ & _).
    rewrite E1 in Hq.
    pose proof (fr_queued _ F j w' Hw' Hq) as Hold.
    destruct kd; simpl in Ho, Hs; destruct_and?; try by rew_goal.
    rew_goal. rewrite lookup_insert_ne; [done|].
    intros E. apply Hne. symmetry. by eapply distinct_keys.
Qed.

Lemma pres_hit (j : nat) (w' : WorkItem) :
  work !! j = Some w' → tasks st' !! j = Some Settled →
  calls j (trace st') = [] → is_Some (cache0 !! w_k w').
Proof.
  intros Hw' Hq Hc.
  pose proof (td_outcome _ _ _ _ _ _ _ _ _ T) as Ho.
  pose proof (td_shared _ _ _ _ _ _ _ _ _ T) as Hs.
  pose proof (td_item _ _ _ _ _ _ _ _ _ T) as Hw.
  pose proof (td_before _ _ _ _ _ _ _ _ _ T) as Hb.
  destruct (decide (j = i)) as [->|Hne].
  - rewrite Hw in Hw'. injection Hw' as <-.
    destruct kd; simpl in Ho, Hs; destruct_and?; try done.
    subst p. rewrite <- (fr_queued _ F i w Hw Hb). by rew_goal.
  - destruct (td_other _ _ _ _ _ _ _ _ _ T j Hne) as (E1 & E2 & _).
    rewrite E1 in Hq. rewrite E2 in Hc. by eapply (fr_hit _ F).
Qed.

Lemma pres_fresh : fresh st'.
Proof. split; [apply pres_queued | apply pres_hit]. Qed.

End Preservation.

Lemma fresh_exec (out0 : gmap string (list entry)) (evs : list sched) (st : state) :
  (∀ w, w ∈ work → is_Some (out0 !! w_country w)) →
  (∀ c l, out0 !! c = Some l → l = []) →
  exec keyed work evs (init work out0 cache0) = Some st → fresh st.
Proof.
  intros Hready Hempty He.
  cut (inv keyed work cache0 st ∧ fresh st); [tauto|].
  eapply (exec_invariant keyed work (fun s => inv keyed work cache0 s ∧ fresh s));
    [| | exact He].
  - split; [by apply inv_init|]. split; simpl.
    + done.
    + intros i w _ [? _]%lookup_replicate. done.
  - intros e s s' [I F] Hs. split; [by eapply inv_step|].
    destruct (step_turn _ _ _ _ _ (inv_out _ _ _ _ I) Hs) as (i & w & Ht).
    destruct (turn_turned _ _ _ _ _ _ _ I Ht) as (p & p' & kd & Hd).
    by eapply pres_fresh.
Qed.

End Distinct.

(** ** Progress and termination *)

Fixpoint first_active (ts : list pc) : option (nat * pc) :=
  match ts with
  | [] => None
  | p :: ts' =>
      if is_active p then Some (0, p)
      else prod_map S id <$> first_active ts'
  end.

(** A provider that answers the primary ([false]) and the fallback
    ([true]) query of each task as it pleases. *)
Definition oracle : Type := nat → bool → response.

(** The event a loop that serves the running task first, and starts the
    next one otherwise, takes in [st]. *)
Definition next_event (o : oracle) (st : state) : option sched :=
  match first_active (tasks st) with
  | Some (i, AwaitPrimary) => Some (Respond i (o i false))
  | Some (i, AwaitFallback) => Some (Respond i (o i true))
  | Some (i, _) => Some (Wake i)
  | None =>
      match next_queued (tasks st) with
      | Some _ => Some Start
      | None => None
      end
  end.

Section Progress.

Variable keyed : bool.
Variable work : list WorkItem.

(** The schedule of that loop, at most [fuel] events long. *)
Fixpoint script (o : oracle) (fuel : nat) (st : state) : list sched :=
  match fuel with
  | 0 => []
  | S fuel' =>
      match next_event o st with
      | Some e =>
          match step keyed work e st with
          | Some st' => e :: script o fuel' st'
          | None => []
          end
      | None => []
      end
  end.

Lemma first_active_lookup (ts : list pc) (i : nat) (p : pc) :
  first_active ts = Some (i, p) → ts !! i = Some p ∧ is_active p = true.
Proof.
  revert i. induction ts as [|q ts IH]; intros i H; simpl in H; [done|].
  destruct (is_active q) eqn:E.
  - by simplify_eq.
  - destruct (first_active ts) as [[j p']|]; simplify_eq/=. by apply IH.
Qed.

Lemma first_active_none (ts : list pc) :
  first_active ts = None → sum_list_with running ts = 0.
Proof.
  induction ts as [|q ts IH]; simpl; [done|]. unfold running at 1.
  destruct (is_active q); [done|].
  destruct (first_active ts); [done|]. intros _. by rewrite IH.
Qed.

Lemma idle_finished (ts : list pc) :
  first_active ts = None → next_queued ts = None →
  forallb (fun p => is_settled (Some p)) ts = true.
Proof.
  induction ts as [|q ts IH]; simpl; [done|].
  destruct q; simpl; try done.
  destruct (first_active ts), (next_queued ts); simpl; try done.
  all: intros _ _; by apply IH.
Qed.

Lemma next_queued_lt (ts : list pc) (i : nat) :
  next_queued ts = Some i → i < length ts.
Proof. intros H%next_queued_lookup. by eapply lookup_lt_Some. Qed.

Lemma concurrency_pos : 0 < concurrency keyed.
Proof. unfold concurrency. destruct keyed; lia. Qed.

(** A call that is awaited may end in any way. *)
Lemma respond_enabled (st : state) (i : nat) (r : response) :
  length (tasks st) = length work →
  tasks st !! i = Some AwaitPrimary ∨ tasks st !! i = Some AwaitFallback →
  is_Some (step keyed work (Respond i r) st).
Proof.
  intros Hlen Hp. simpl.
  destruct (lookup_lt_is_Some_2 work i) as [w ->].
  { rewrite <- Hlen. destruct Hp as [Hp|Hp]; by eapply lookup_lt_Some. }
  simpl. destruct Hp as [->| ->]; simpl; eauto.
Qed.

Lemma wake_enabled (st : state) (i : nat) (res : option geo) :
  length (tasks st) = length work →
  tasks st !! i = Some (SleepPrimary res) ∨ tasks st !! i = Some (SleepFallback res) →
  is_Some (step keyed work (Wake i) st).
Proof.
  intros Hlen Hp. simpl.
  destruct (lookup_lt_is_Some_2 work i) as [w ->].
  { rewrite <- Hlen. destruct Hp as [Hp|Hp]; by eapply lookup_lt_Some. }
  simpl. destruct Hp as [->| ->]; simpl; eauto.
Qed.

Lemma start_enabled (st : state) :
  length (tasks st) = length work →
  pending st < concurrency keyed → is_Some (next_queued (tasks st)) →
  is_Some (step keyed work Start st).
Proof.
  intros Hlen Hslot [i Hi]. simpl. rewrite decide_True by done. rewrite Hi. simpl.
  destruct (lookup_lt_is_Some_2 work i) as [w ->]; [|simpl; eauto].
  rewrite <- Hlen. by eapply next_queued_lt.
Qed.

Lemma next_event_enabled (o : oracle) (st : state) (e : sched) :
  length (tasks st) = length work →
  next_event o st = Some e → is_Some (step keyed work e st).
Proof.
  intros Hlen. unfold next_event.
  destruct (first_active (tasks st)) as [[i p]|] eqn:E.
  - apply first_active_lookup in E as [Hp Ha].
    destruct p; simpl in Ha; try done; intros; simplify_eq.
    + apply respond_enabled; auto.
    + eapply wake_enabled; eauto.
    + apply respond_enabled; auto.
    + eapply wake_enabled; eauto.
  - destruct (next_queued (tasks st)) as [i|] eqn:Q; [|done].
    intros; simplify_eq. apply start_enabled; [done | | by rewrite Q].
    unfold pending. rewrite (first_active_none _ E). apply concurrency_pos.
Qed.

Lemma next_event_none (o : oracle) (st : state) :
  next_event o st = None → finished st = true.
Proof.
  unfold next_event, finished.
  destruct (first_active (tasks st)) as [[i p]|] eqn:E.
  - by destruct p.
  - destruct (next_queued (tasks st)) eqn:Q; [done|]. intros _.
    by apply idle_finished.
Qed.

Lemma weightless_finished (ts : list pc) :
  sum_list_with weight ts = 0 → forallb (fun p => is_settled (Some p)) ts = true.
Proof.
  induction ts as [|q ts IH]; simpl; [done|].
  destruct q; simpl; try lia. done.
Qed.

End Progress.

Section Termination.

Variable keyed : bool.
Variable work : list WorkItem.
Variable cache0 : gmap string coord.

(** The turns left to the tasks. *)
Definition fuel_left (st : state) : nat := sum_list_with weight (tasks st).

Lemma step_fuel (e : sched) (st st' : state) :
  inv keyed work cache0 st → step keyed work e st = Some st' →
  fuel_left st' < fuel_left st.
Proof.
  intros I Hs.
  destruct (step_turn _ _ _ _ _ (inv_out _ _ _ _ I) Hs) as (i & w & Ht).
  destruct (turn_turned _ _ _ _ _ _ _ I Ht) as (p & p' & kd & Hd).
  by eapply weight_turn.
Qed.

(** No schedule is longer than the turns the tasks have left. *)
Lemma exec_fuel (evs : list sched) (st0 st : state) :
  inv keyed work cache0 st0 → exec keyed work evs st0 = Some st →
  length evs + fuel_left st ≤ fuel_left st0.
Proof.
  revert st0. induction evs as [|e evs IH]; intros st0 I He; simpl in He.
  - simplify_eq. simpl. lia.
  - destruct (step keyed work e st0) as [st1|] eqn:E; [|done]. simpl in He.
    pose proof (step_fuel _ _ _ I E).
    pose proof (IH st1 (inv_step _ _ _ _ _ _ I E) He). simpl. lia.
Qed.

(** The serving loop reaches the end of the work list, whatever the
    provider answers. *)
Lemma script_completes (o : oracle) (fuel : nat) (st : state) :
  inv keyed work cache0 st → fuel_left st ≤ fuel →
  ∃ st', exec keyed work (script keyed work o fuel st) st = Some st' ∧
         finished st' = true.
Proof.
  revert st. induction fuel as [|fuel IH]; intros st I Hf; simpl.
  - exists st. split; [done|]. apply weightless_finished.
    unfold fuel_left in Hf. lia.
  - destruct (next_event o st) as [e|] eqn:E.
    + destruct (next_event_enabled keyed work o st e (inv_len _ _ _ _ I) E)
        as [st1 Hs].
      rewrite Hs. simpl. rewrite Hs. simpl.
      apply IH; [by eapply inv_step|].
      pose proof (step_fuel _ _ _ I Hs). lia.
    + exists st. split; [done|]. by eapply next_event_none.
Qed.

Lemma fuel_init (out0 : gmap string (list entry)) :
  fuel_left (init work out0 cache0) = 5 * length work.
Proof.
  unfold fuel_left. simpl. induction (length work) as [|n IH]; simpl; lia.
Qed.

End Termination.

(** A complete schedule of the run for the provider [o]. *)
Definition complete (keyed : bool) (raw : catalog) (cache0 : gmap string coord)
    (o : oracle) : list sched :=
  script keyed (build raw).2 o (5 * length (build raw).2) (start raw cache0).

Lemma run_complete (keyed : bool) (raw : catalog) (cache0 : gmap string coord)
    (o : oracle) :
  ∃ st, run keyed raw cache0 (complete keyed raw cache0 o) = Some st ∧
        finished st = true.
Proof.
  apply (script_completes keyed _ cache0).
  - apply inv_init; [apply build_ready | apply build_empty].
  - unfold start. by rewrite fuel_init.
Qed.

Lemma run_bounded (keyed : bool) (raw : catalog) (cache0 : gmap string coord)
    (evs : list sched) (st : state) :
  run keyed raw cache0 evs = Some st →
  length evs + fuel_left st ≤ 5 * length (build raw).2.
Proof.
  intros He. rewrite <- (fuel_init (build raw).2 cache0 (build raw).1).
  eapply exec_fuel; [|exact He].
  apply inv_init; [apply build_ready | apply build_empty].
Qed.

(** ** Finished runs *)

Lemma finished_settled (st : state) (i : nat) :
  finished st = true → i < length (tasks st) → tasks st !! i = Some Settled.
Proof.
  unfold finished. intros Hf Hi.
  destruct (lookup_lt_is_Some_2 _ _ Hi) as [p Hp]. rewrite Hp.
  rewrite forallb_forall in Hf.
  assert (In p (tasks st)) as Hin
    by (apply list_elem_of_In; by eapply list_elem_of_lookup_2).
  specialize (Hf p Hin). by destruct p.
Qed.

Section Finished.

Variable keyed : bool.
Variable work : list WorkItem.
Variable cache0 : gmap string coord.

Context {st : state}.
Hypothesis I : inv keyed work cache0 st.
Hypothesis Hfin : finished st = true.

Lemma fin_settled (i : nat) : i < length work → tasks st !! i = Some Settled.
Proof. intros Hi. apply finished_settled; [done|]. by rewrite (inv_len _ _ _ _ I). Qed.

Lemma fin_processed : processed st = length work.
Proof.
  rewrite (inv_processed _ _ _ _ I). apply count_all.
  intros j Hj. unfold settled_at. by rewrite fin_settled.
Qed.

Lemma fin_misses :
  misses st = count (fun j => missed (resps j (trace st))) (length work).
Proof.
  rewrite (inv_misses _ _ _ _ I). apply count_ext.
  intros j Hj. unfold missed_at, settled_at. by rewrite fin_settled.
Qed.

Lemma fin_hits :
  hits st = count (fun j => no_calls (calls j (trace st))) (length work).
Proof.
  rewrite (inv_hits _ _ _ _ I). apply count_ext.
  intros j Hj. unfold hit_at, settled_at. by rewrite fin_settled.
Qed.

(** The history of a finished task: a hit, a result of the primary query,
    or two queries. *)
Lemma fin_history (i : nat) (w : WorkItem) :
  work !! i = Some w →
  history_ok keyed w Settled (calls i (trace st)) (resps i (trace st)).
Proof.
  intros Hw. apply (inv_hist _ _ _ _ I); [done|].
  apply fin_settled. by eapply lookup_lt_Some.
Qed.

End Finished.

(** The keys of the output are those allocated before the first task. *)
Lemma out_keys_kept (keyed : bool) (raw : catalog) (cache0 : gmap string coord)
    (evs : list sched) (st : state) (c : string) :
  run keyed raw cache0 evs = Some st →
  is_Some ((build raw).1 !! c) → is_Some (out st !! c).
Proof.
  intros He H0.
  cut (inv keyed (build raw).2 cache0 st ∧ is_Some (out st !! c)); [tauto|].
  eapply (exec_invariant keyed (build raw).2
            (fun s => inv keyed (build raw).2 cache0 s ∧ is_Some (out s !! c)));
    [| | exact He].
  - split; [|done]. apply inv_init; [apply build_ready | apply build_empty].
  - intros e s s' [I [l Hl]] Hs. split; [by eapply inv_step|].
    destruct (step_turn _ _ _ _ _ (inv_out _ _ _ _ I) Hs) as (i & w & Ht).
    destruct (turn_turned _ _ _ _ _ _ _ I Ht) as (p & p' & kd & Hd).
    destruct (shared_out_mono _ _ _ _ _ _ (td_shared _ _ _ _ _ _ _ _ _ Hd) Hl)
      as (l' & -> & _).
    done.
Qed.

(** A turn leaves an output array as it is or appends one entry, whose
    coordinates are the cache entry of the item's key after the turn. *)
Lemma shared_out_step (w : WorkItem) (kd : kind) (st st' : state)
    (c : string) (l' : list entry) :
  shared w kd st st' → out st' !! c = Some l' →
  ∃ l, out st !! c = Some l ∧
    (l' = l ∨
     (c = w_country w ∧ is_Some (cache st' !! w_k w) ∧
      l' = l ++ [Entry (w_city w) (cache st' !! w_k w)])).
Proof.
  intros Hsh Hl.
  destruct kd as [| |c0|g|]; simpl in Hsh;
    try destruct Hsh as (Hc0 & Hc & (l0 & Hl0 & Ho) & _);
    try destruct Hsh as (Hc & (l0 & Hl0 & Ho) & _);
    destruct_and?;
    try (exists l'; split; [congruence | by left]).
  all: rewrite Ho in Hl; destruct (decide (w_country w = c)) as [<-|Hne];
    [ rewrite lookup_insert_eq in Hl; simplify_eq; exists l0; split; [done|]; right
    | rewrite lookup_insert_ne in Hl by done; exists l'; split; [done | by left] ].
  - rewrite Hc, Hc0. eauto.
  - rewrite Hc, lookup_insert_eq. eauto.
Qed.

Lemma call_in_calls (i : nat) (c : call) (tr : list io) :
  Call i c ∈ tr → c ∈ calls i tr.
Proof.
  intros H. unfold calls. apply list_elem_of_omap. exists (Call i c).
  split; [done|]. simpl. by rewrite decide_True.
Qed.

(** ** Own properties of the output *)

Lemma own_lookup (o : gmap string (list entry)) (c : string) :
  c ≠ PROTO → own_properties o !! c = o !! c.
Proof. intros H. unfold own_properties. by rewrite lookup_delete_ne. Qed.

Lemma own_lookup_Some (o : gmap string (list entry)) (c : string)
    (l : list entry) :
  own_properties o !! c = Some l ↔ c ≠ PROTO ∧ o !! c = Some l.
Proof.
  unfold own_properties. rewrite lookup_delete_Some.
  split; intros [H1 H2]; (split; [|done]); intros E; by apply H1.
Qed.

(** ** Induction over the turns of a run *)

(** A reachable state and one more turn. *)
Lemma run_step (keyed : bool) (raw : catalog) (cache0 : gmap string coord)
    (P : state → Prop) (evs : list sched) (st : state) :
  P (start raw cache0) →
  (∀ e s s',
     inv keyed (build raw).2 cache0 s → inv keyed (build raw).2 cache0 s' →
     P s → step keyed (build raw).2 e s = Some s' → P s') →
  run keyed raw cache0 evs = Some st → P st.
Proof.
  intros H0 Hstep He.
  cut (inv keyed (build raw).2 cache0 st ∧ P st); [tauto|].
  eapply (exec_invariant keyed (build raw).2
            (fun s => inv keyed (build raw).2 cache0 s ∧ P s)); [| | exact He].
  - split; [|done]. apply inv_init; [apply build_ready | apply build_empty].
  - intros e s s' [I HP] Hs.
    assert (inv keyed (build raw).2 cache0 s') by by eapply inv_step.
    split; [done|]. by apply (Hstep e s s').
Qed.

(** The task of a work item that has returned without a miss has left its
    key in the cache. *)
Lemma kept_in_cache (keyed : bool) (raw : catalog) (cache0 : gmap string coord)
    (evs : list sched) (st : state) :
  run keyed raw cache0 evs = Some st →
  ∀ i w, (build raw).2 !! i = Some w → tasks st !! i = Some Settled →
    missed (resps i (trace st)) = false → is_Some (cache st !! w_k w).
Proof.
  apply (run_step keyed raw cache0
           (fun s => ∀ i w, (build raw).2 !! i = Some w →
                            tasks s !! i = Some Settled →
                            missed (resps i (trace s)) = false →
                            is_Some (cache s !! w_k w))).
  - intros i w _ [? _]%lookup_replicate. done.
  - intros e s s' I _ IH Hs j w' Hw' Hq Hm.
    destruct (step_turn _ _ _ _ _ (inv_out _ _ _ _ I) Hs) as (i & w & Ht).
    destruct (turn_turned _ _ _ _ _ _ _ I Ht) as (p & p' & kd & T).
    pose proof (td_outcome _ _ _ _ _ _ _ _ _ T) as Ho.
    pose proof (td_shared _ _ _ _ _ _ _ _ _ T) as Hsh.
    assert (∀ k, is_Some (cache s !! k) → is_Some (cache s' !! k)) as Hmono.
    { intros k Hk. destruct kd; simpl in Hsh; destruct_and?; try congruence.
      match goal with H : cache s' = _ |- _ => rewrite H end.
      destruct (decide (w_k w = k)) as [<-|Hne];
        [by rewrite lookup_insert_eq | by rewrite lookup_insert_ne]. }
    destruct (decide (j = i)) as [->|Hne].
    + rewrite (td_item _ _ _ _ _ _ _ _ _ T) in Hw'.
      rewrite (td_after _ _ _ _ _ _ _ _ _ T) in Hq. simplify_eq.
      destruct kd; simpl in Ho, Hsh; destruct_and?; try done; try congruence.
      * match goal with H : cache s' = _ |- _ => rewrite H end. eauto.
      * match goal with H : cache s' = _ |- _ => rewrite H end.
        by rewrite lookup_insert_eq.
    + destruct (td_other _ _ _ _ _ _ _ _ _ T j Hne) as (E1 & _ & E3).
      rewrite E1 in Hq. rewrite E3 in Hm. apply Hmono. by eapply IH.
Qed.

(** A response that the trace records is among the responses of its
    task. *)
Lemma resp_in_resps (i : nat) (r : response) (tr : list io) :
  Resp i r ∈ tr → r ∈ resps i tr.
Proof.
  intros H. unfold resps. apply list_elem_of_omap. exists (Resp i r).
  split; [done|]. simpl. by rewrite decide_True.
Qed.

Lemma resp_in_trace (i : nat) (r : response) (tr : list io) :
  r ∈ resps i tr → Resp i r ∈ tr.
Proof.
  unfold resps. intros (e & He & Hr)%list_elem_of_omap.
  destruct e as [|j r'| |]; simpl in Hr; try done.
  case_decide; simplify_eq. done.
Qed.

Lemma last_elem {A : Type} (l : list A) (x : A) : last l = Some x → x ∈ l.
Proof.
  destruct l as [|y l _] using rev_ind; [done|].
  rewrite last_snoc. intros [= ->]. apply elem_of_app. right. by left.
Qed.

(** A result is the last response of a task that has returned. *)
Lemma result_is_last (keyed : bool) (w : WorkItem) (cs : list call)
    (rs : list response) (g : geo) :
  history_ok keyed w Settled cs rs → Returned (Some g) ∈ rs →
  last rs = Some (Returned (Some g)).
Proof.
  intros [[_ ->]|[[_ (g' & ->)]|[_ (r1 & r2 & -> & Hf)]]] Hin.
  - by apply elem_of_nil in Hin.
  - apply list_elem_of_singleton in Hin. by simplify_eq.
  - apply elem_of_cons in Hin as [<-|Hin]; [done|].
    by apply list_elem_of_singleton in Hin as ->.
Qed.

(** The task of a work item that has returned without a miss has pushed
    an entry with the name of its city to the array of its country. *)
Lemma settled_listed (keyed : bool) (raw : catalog) (cache0 : gmap string coord)
    (evs : list sched) (st : state) :
  run keyed raw cache0 evs = Some st →
  ∀ i w, (build raw).2 !! i = Some w → tasks st !! i = Some Settled →
    missed (resps i (trace st)) = false →
    ∃ l x, out st !! w_country w = Some l ∧ x ∈ l ∧ e_name x = w_city w.
Proof.
  apply (run_step keyed raw cache0
           (fun s => ∀ i w, (build raw).2 !! i = Some w →
                            tasks s !! i = Some Settled →
                            missed (resps i (trace s)) = false →
                            ∃ l x, out s !! w_country w = Some l ∧ x ∈ l ∧
                                   e_name x = w_city w)).
  - intros i w _ [? _]%lookup_replicate. done.
  - intros e s s' I _ IH Hs j w' Hw' Hq Hm.
    destruct (step_turn _ _ _ _ _ (inv_out _ _ _ _ I) Hs) as (i & w & Ht).
    destruct (turn_turned _ _ _ _ _ _ _ I Ht) as (p & p' & kd & T).
    pose proof (td_outcome _ _ _ _ _ _ _ _ _ T) as Ho.
    pose proof (td_shared _ _ _ _ _ _ _ _ _ T) as Hsh.
    destruct (decide (j = i)) as [->|Hne].
    + rewrite (td_item _ _ _ _ _ _ _ _ _ T) in Hw'.
      rewrite (td_after _ _ _ _ _ _ _ _ _ T) in Hq. simplify_eq.
      destruct kd; simpl in Ho, Hsh; destruct_and?; try done; try congruence.
      all: match goal with H : ∃ _, _ |- _ => destruct H as (l0 & Hl0 & ->) end.
      all: eexists; eexists; rewrite lookup_insert_eq; split; [done|].
      all: split; [apply elem_of_app; right; by left | done].
    + destruct (td_other _ _ _ _ _ _ _ _ _ T j Hne) as (E1 & _ & E3).
      rewrite E1 in Hq. rewrite E3 in Hm.
      destruct (IH j w' Hw' Hq Hm) as (l & x & Hl & Hx & Hn).
      destruct (shared_out_mono _ _ _ _ _ _ Hsh Hl) as (l' & Hl' & Hsub).
      exists l', x. eauto.
Qed.

(** A task that has returned without a call found its key in the cache:
    the key was loaded, or the task of another work item with this key had
    received a result. *)
Lemma silent_task (keyed : bool) (raw : catalog) (cache0 : gmap string coord)
    (evs : list sched) (st : state) (i : nat) (w : WorkItem) :
  run keyed raw cache0 evs = Some st →
  (build raw).2 !! i = Some w → tasks st !! i = Some Settled →
  calls i (trace st) = [] →
  is_Some (cache0 !! w_k w) ∨
  ∃ j w' g, j ≠ i ∧ (build raw).2 !! j = Some w' ∧ w_k w' = w_k w ∧
            last (resps j (trace st)) = Some (Returned (Some g)).
Proof.
  intros He Hw Hp Hc. pose proof (inv_run _ _ _ _ _ He) as I.
  pose proof (inv_hist _ _ _ _ I i w Settled Hw Hp) as Hh. simpl in Hh.
  rewrite Hc in Hh. destruct Hh as [[_ Hr]|[[? _]|[? _]]]; try done.
  destruct (kept_in_cache keyed raw cache0 evs st He i w Hw Hp) as [c Hcache];
    [by rewrite Hr|].
  destruct (inv_cache_from _ _ _ _ I _ _ Hcache)
    as [H0|(j & w' & g & Hw' & Hk & _ & _ & Hlast)]; [by eauto|].
  right. exists j, w', g. split; [|done]. intros ->. by rewrite Hr in Hlast.
Qed.

(** ** The delay after a call that returned *)

Lemma delay_due_app (tr new : list io) :
  delay_due tr = false → delay_due new = false → delay_due (tr ++ new) = false.
Proof.
  intros Ht Hn. destruct new as [|e new _] using rev_ind.
  - by rewrite app_nil_r.
  - unfold delay_due in *. rewrite app_assoc, last_snoc. by rewrite last_snoc in Hn.
Qed.

Lemma delayed_app (tr new : list io) :
  delayed tr = true → delay_due tr = false → delayed new = true →
  delayed (tr ++ new) = true.
Proof.
  intros Ht Hd Hn. induction tr as [|e tr IH]; [done|].
  assert (tr ≠ [] → delay_due tr = false) as Hd'.
  { intros Hne. destruct tr; [done|]. exact Hd. }
  destruct e as [j c|j [res|]|j ms|a b c d]; simpl in *;
    try (destruct tr; [exact Hn | by apply IH; [|apply Hd']]).
  destruct tr as [|[| |j' ms'|] tr]; try done. simpl in *.
  apply andb_prop in Ht as [Ht1 Ht2]. rewrite Ht1. simpl.
  apply IH; [done | by apply Hd'].
Qed.

(** After [Resp i (Returned res)] the trace goes on with [Sleep i 1100]. *)
Lemma delayed_spec (tr1 tr2 : list io) (i : nat) (res : option geo) :
  delayed (tr1 ++ Resp i (Returned res) :: tr2) = true →
  ∃ tr3, tr2 = Sleep i 1100 :: tr3.
Proof.
  induction tr1 as [|e tr1 IH]; simpl.
  - destruct tr2 as [|[| |j ms|] tr2]; try done.
    intros [[Hi Hms]%andb_prop _]%andb_prop.
    apply Nat.eqb_eq in Hi, Hms. subst. eauto.
  - destruct e as [j c|j [res'|]|j ms|a b c d]; try done.
    destruct (tr1 ++ Resp i (Returned res) :: tr2) as [|[| |j' ms'|] tr]; try done.
    intros [_ H]%andb_prop. by apply IH.
Qed.

(** X6: without a key, every provider call that returns - with a result
    or with none - is followed at once by the 1100 ms sleep of its task; the
    next call of the run comes after it.  (A call that throws is not.) *)
Lemma returned_call_is_delayed (raw : catalog) (cache0 : gmap string coord)
    (evs : list sched) (st : state) (tr1 tr2 : list io) (i : nat)
    (res : option geo) :
  run false raw cache0 evs = Some st →
  trace st = tr1 ++ Resp i (Returned res) :: tr2 →
  tr2 ≠ [] ∧ ∀ tr3 e, tr2 = e :: tr3 → e = Sleep i 1100.
Proof.
  intros He Htr.
  assert (inv false (build raw).2 cache0 st ∧
          delayed (trace st) = true ∧ delay_due (trace st) = false)
    as (_ & Hd & _).
  { eapply (exec_invariant false (build raw).2
              (fun s => inv false (build raw).2 cache0 s ∧
                        delayed (trace s) = true ∧ delay_due (trace s) = false));
      [| | exact He].
    - split; [|done]. apply inv_init; [apply build_ready | apply build_empty].
    - intros e s s' (I & Hd & Hdue) Hs. split; [by eapply inv_step|].
      destruct (step_turn _ _ _ _ _ (inv_out _ _ _ _ I) Hs) as (j & w & Ht).
      destruct Ht as [? ? ? ? ? new _ _ _ Hnew _ _ _ _ Hdel _ _].
      destruct (Hdel eq_refl) as [Hn1 Hn2]. rewrite Hnew.
      split; [by apply delayed_app | by apply delay_due_app]. }
  rewrite Htr in Hd. apply delayed_spec in Hd as [tr3 ->].
  split; [done|]. by intros ? ? [= <- _].
Qed.

(** ** A run from end to end

    The input [{"Germany": ["Berlin", "Frankfurt (virtual)"]}], no cache and
    a keyed provider that finds both cities at the first query. *)

Definition two_german_cities : catalog :=
  [("Germany", Some ["Berlin"; "Frankfurt (virtual)"])].

#[local] Set Warnings "-inexact-float".
Definition berlin_found : geo := Geo 52.52 13.405 "maptiler".
Definition frankfurt_found : geo := Geo 50.11 8.68 "maptiler".
#[local] Set Warnings "+inexact-float".

Example end_to_end :
  ∃ st,
    run true two_german_cities ∅
        [Start; Start; Respond 0 (Returned (Some berlin_found));
         Respond 1 (Returned (Some frankfurt_found))] = Some st ∧
    finished st = true ∧
    calls 0 (trace st) = [geocodeMapTiler "Berlin, Germany" "Germany"] ∧
    calls 1 (trace st) = [geocodeMapTiler "Frankfurt, Germany" "Germany"] ∧
    out st = {["Germany" := [Entry "Berlin" (Some (coord_of berlin_found));
                             Entry "Frankfurt" (Some (coord_of frankfurt_found))]]} ∧
    cache st = {["Germany::Berlin" := coord_of berlin_found;
                 "Germany::Frankfurt" := coord_of frankfurt_found]} ∧
    (processed st, hits st, misses st) = (2, 0, 0).
Proof.
  eexists. split; [vm_compute; reflexivity|].
  repeat split; vm_compute; reflexivity.
Qed.

(** * The claims *)

(** The cache of a first run. *)
Definition first_run : gmap string coord := ∅.

(** One city listed under two spellings. *)
Definition berlin_twice : catalog :=
  [("Germany", Some ["Berlin"; "Berlin (virtual)"])].

(** ** The delay after a call to the public provider (C1) *)

(** The milliseconds the run spends in [sleep], and its provider calls. *)
Definition slept (tr : list io) : nat :=
  sum_list_with (fun e => match e with Sleep _ ms => ms | _ => 0 end) tr.

Definition called (tr : list io) : nat :=
  sum_list_with (fun e => match e with Call _ _ => 1 | _ => 0 end) tr.

Definition only_berlin : catalog := [("Germany", Some ["Berlin"])].

(** C1: [sleep(1100)] stands after the call inside the [try] block, so a
    call that throws skips it.  Without a key, when the provider answers
    both queries for "Berlin" with an HTTP error, the run makes its two
    calls with no delay between them and none after them. *)
Theorem failed_call_skips_delay :
  ∃ st,
    run false only_berlin first_run [Start; Respond 0 Threw; Respond 0 Threw]
    = Some st ∧
    finished st = true ∧
    trace st
    = [Call 0 (geocodeNominatim "Berlin, Germany"); Resp 0 Threw;
       Call 0 (geocodeNominatim "Berlin"); Resp 0 Threw;
       Progress 1 1 0 1] ∧
    called (trace st) = 2 ∧
    slept (trace st) = 0 ∧
    slept (trace st) < 1100 * (called (trace st) - 1).
Proof.
  eexists. split; [vm_compute; reflexivity|].
  repeat split; try (vm_compute; reflexivity).
  vm_compute. lia.
Qed.

(** ** The work list (C2) *)

(** C2: the loop pushes one item per city of the input; nothing removes an
    item whose key is already in the list.  On "Berlin (virtual)" and
    "Berlin" under one country the work list holds the key
    "Germany::Berlin" twice. *)
Theorem worklist_keeps_duplicates :
  (build [("Germany", Some ["Berlin (virtual)"; "Berlin"])]).2
  = [Item "Germany" "Berlin" "Germany::Berlin";
     Item "Germany" "Berlin" "Germany::Berlin"]
  ∧ ¬ NoDup (w_k <$> (build [("Germany", Some ["Berlin (virtual)"; "Berlin"])]).2).
Proof.
  split; [reflexivity|].
  intros H. apply NoDup_cons in H as [H _]. apply H. by left.
Qed.

(** ** Resuming from the cache (C3) *)

Definition cached (cache0 : gmap string coord) (w : WorkItem) : bool :=
  match cache0 !! w_k w with
  | Some _ => true
  | None => false
  end.

(** The work items whose key the loaded cache holds. *)
Definition prepopulated (cache0 : gmap string coord) (work : list WorkItem)
    : nat :=
  length (filter (fun w => cached cache0 w = true) work).

Definition berlin : geo := Geo 52.5 13.5 "nominatim".

(** C3, as stated, fails: "Berlin" and "Berlin (virtual)" make two work
    items with one key.  From an empty cache the first is resolved by the
    provider and the second is then a cache hit, so the run counts one hit
    although no key was in the loaded cache. *)
Lemma hits_exceed_loaded_keys :
  ∃ st,
    run false berlin_twice first_run
        [Start; Respond 0 (Returned (Some berlin)); Wake 0; Start] = Some st ∧
    finished st = true ∧
    hits st = 1 ∧
    prepopulated first_run (build berlin_twice).2 = 0 ∧
    hits st ≠ prepopulated first_run (build berlin_twice).2.
Proof.
  eexists. split; [vm_compute; reflexivity|].
  repeat split; try (vm_compute; reflexivity). vm_compute. discriminate.
Qed.

(** C3, amended: a work item whose key is in the loaded cache makes no
    provider call, no entry of the loaded cache is ever replaced, every such
    item is counted as a hit by the end of the run, and, when the keys of
    the work list are pairwise distinct, the hit counter of the finished run
    is exactly the number of work items whose key was in the loaded
    cache. *)
Theorem cache_resumes (keyed : bool) (raw : catalog)
    (cache0 : gmap string coord) (evs : list sched) (st : state) :
  run keyed raw cache0 evs = Some st →
  (∀ i w c, (build raw).2 !! i = Some w → is_Some (cache0 !! w_k w) →
            Call i c ∉ trace st) ∧
  (∀ k c, cache0 !! k = Some c → cache st !! k = Some c) ∧
  (finished st = true → prepopulated cache0 (build raw).2 ≤ hits st) ∧
  (NoDup (w_k <$> (build raw).2) → finished st = true →
   hits st = prepopulated cache0 (build raw).2).
Proof.
  intros He. pose proof (inv_run _ _ _ _ _ He) as I. split; [|split; [|split]].
  - intros i w c Hw [co Hco] Hin.
    apply call_in_calls in Hin.
    rewrite (inv_called _ _ _ _ I i w Hw) in Hco; [done|].
    intros E. rewrite E in Hin. by apply elem_of_nil in Hin.
  - apply I.
  - intros Hfin.
    rewrite (fin_hits _ _ _ I Hfin). unfold prepopulated.
    rewrite <- count_lookup. apply count_le. intros j Hj.
    destruct (lookup_lt_is_Some_2 _ _ Hj) as [w Hw]. rewrite Hw. simpl.
    unfold cached.
    destruct (calls j (trace st)) as [|c cs] eqn:E; [done|].
    rewrite (inv_called _ _ _ _ I j w Hw); [done|]. by rewrite E.
  - intros Hnd Hfin.
    pose proof (fresh_exec keyed _ cache0 Hnd _ _ _
                  (build_ready raw) (build_empty raw) He) as F.
    rewrite (fin_hits _ _ _ I Hfin). unfold prepopulated.
    rewrite <- count_lookup. apply count_ext. intros j Hj.
    destruct (lookup_lt_is_Some_2 _ _ Hj) as [w Hw]. rewrite Hw. simpl.
    unfold cached.
    destruct (calls j (trace st)) as [|c cs] eqn:E; simpl.
    + destruct (fr_hit _ _ _ F j w Hw (fin_settled _ _ _ I Hfin j Hj) E) as [co ->].
      done.
    + rewrite (inv_called _ _ _ _ I j w Hw); [done|]. by rewrite E.
Qed.

Definition two_cities : catalog := [("Germany", Some ["Berlin"; "Bonn"])].

Definition berlin_cached : gmap string coord :=
  {["Germany::Berlin" := Coord 52.5 13.5]}.

(** Berlin is a cache hit; both queries for Bonn fail. *)
Definition bonn_missed : list sched :=
  [Start; Start; Respond 1 Threw; Respond 1 (Returned None); Wake 1].

Lemma cache_resumes_witness :
  ∃ st,
    run false two_cities berlin_cached bonn_missed = Some st ∧
    (∀ i w c,
       (build two_cities).2 !! i = Some w → is_Some (berlin_cached !! w_k w) →
       Call i c ∉ trace st) ∧
    (∀ k c, berlin_cached !! k = Some c → cache st !! k = Some c) ∧
    hits st = prepopulated berlin_cached (build two_cities).2.
Proof.
  eexists. split; [vm_compute; reflexivity|].
  destruct (cache_resumes false two_cities berlin_cached bonn_missed
              _ ltac:(vm_compute; reflexivity)) as (H1 & H2 & _ & H3).
  split; [exact H1|]. split; [exact H2|]. apply H3.
  - apply (bool_decide_unpack (NoDup _)). vm_compute. exact I.
  - vm_compute. reflexivity.
Defined.

(** ** The cache key (C4) *)

Definition colon : ascii := ":"%char.

(** The name contains no [:]. *)
Definition colon_free (s : string) : Prop :=
  colon ∉ list_ascii_of_string s.

Lemma chars_app (s t : string) :
  list_ascii_of_string (s +:+ t) = list_ascii_of_string s ++ list_ascii_of_string t.
Proof. induction s as [|a s IH]; simpl; [done | by rewrite IH]. Qed.

Lemma chars_inj (s t : string) :
  list_ascii_of_string s = list_ascii_of_string t → s = t.
Proof.
  intros E. rewrite <- (string_of_list_ascii_of_string s),
    <- (string_of_list_ascii_of_string t). by rewrite E.
Qed.

Lemma chars_key (country city : string) :
  list_ascii_of_string (key country city)
  = list_ascii_of_string country ++ colon :: colon :: list_ascii_of_string city.
Proof. unfold key. by rewrite !chars_app. Qed.

(** The first [::] of a key is the separator when the prefix has no [:]. *)
Lemma split_at_first_sep (l1 l2 m1 m2 : list ascii) :
  colon ∉ l1 → colon ∉ l2 →
  l1 ++ colon :: colon :: m1 = l2 ++ colon :: colon :: m2 →
  l1 = l2 ∧ m1 = m2.
Proof.
  revert l2. induction l1 as [|a l1 IH]; intros [|b l2] H1 H2 E; simpl in E.
  - by simplify_eq.
  - simplify_eq. exfalso. apply H2. by left.
  - simplify_eq. exfalso. apply H1. by left.
  - simplify_eq. rewrite not_elem_of_cons in H1, H2.
    destruct (IH l2) as [-> ->]; tauto.
Qed.

(** The last [::] of a key is the separator when the suffix has no [:]. *)
Lemma split_at_last_sep (l1 l2 m1 m2 : list ascii) :
  colon ∉ m1 → colon ∉ m2 →
  l1 ++ colon :: colon :: m1 = l2 ++ colon :: colon :: m2 →
  l1 = l2 ∧ m1 = m2.
Proof.
  intros H1 H2 E. apply (f_equal (@rev ascii)) in E.
  rewrite !rev_app_distr in E. simpl in E. rewrite <- !app_assoc in E. simpl in E.
  apply split_at_first_sep in E as [E1 E2].
  - split; apply rev_inj; done.
  - by rewrite list_elem_of_In, <- in_rev, <- list_elem_of_In.
  - by rewrite list_elem_of_In, <- in_rev, <- list_elem_of_In.
Qed.

Lemma key_inj_country (cA xA cB xB : string) :
  colon_free cA → colon_free cB → key cA xA = key cB xB → cA = cB ∧ xA = xB.
Proof.
  intros HA HB E. apply (f_equal list_ascii_of_string) in E.
  rewrite !chars_key in E.
  apply split_at_first_sep in E as [E1 E2]; [|done..].
  split; by apply chars_inj.
Qed.

Lemma key_inj_city (cA xA cB xB : string) :
  colon_free xA → colon_free xB → key cA xA = key cB xB → cA = cB ∧ xA = xB.
Proof.
  intros HA HB E. apply (f_equal list_ascii_of_string) in E.
  rewrite !chars_key in E.
  apply split_at_last_sep in E as [E1 E2]; [|done..].
  split; by apply chars_inj.
Qed.

(** C4, as stated, fails: two distinct pairs of normalised names whose keys
    coincide, because a name may itself contain the separator's colon. *)
Lemma key_collision :
  normalizeName "X:" = "X:" ∧ normalizeName "Y" = "Y" ∧
  normalizeName "X" = "X" ∧ normalizeName ":Y" = ":Y" ∧
  ("X:", "Y") ≠ ("X", ":Y") ∧
  key "X:" "Y" = key "X" ":Y".
Proof. repeat split; try reflexivity. discriminate. Qed.

(** C4, amended: the keys of two distinct (country, city) pairs differ
    whenever neither country name, or neither city name, contains a
    colon. *)
Theorem key_injective (cA xA cB xB : string) :
  (colon_free cA ∧ colon_free cB) ∨ (colon_free xA ∧ colon_free xB) →
  (cA, xA) ≠ (cB, xB) →
  key cA xA ≠ key cB xB.
Proof.
  intros H Hne E. apply Hne.
  destruct H as [[HA HB]|[HA HB]].
  - destruct (key_inj_country _ _ _ _ HA HB E) as [-> ->]. done.
  - destruct (key_inj_city _ _ _ _ HA HB E) as [-> ->]. done.
Qed.

Lemma key_injective_witness :
  key "Germany" "Berlin" ≠ key "Germany" "Frankfurt".
Proof.
  apply (key_injective "Germany" "Berlin" "Germany" "Frankfurt").
  - left. unfold colon_free. split; vm_compute; intros H;
      repeat (apply elem_of_cons in H as [H|H]; [discriminate H|]);
      by apply elem_of_nil in H.
  - discriminate.
Defined.

(** ** The fallback query (C5) *)

(** The request the adapter sends for a call (lines 51-57 and 67-75). *)
Definition request_of (MAPTILER_KEY : string) (c : call) : request :=
  match c with
  | geocodeMapTiler q country => Adapter.mapTilerRequest MAPTILER_KEY q country
  | geocodeNominatim q => Adapter.nominatimRequest q
  end.

Definition frankfurt : geo := Geo 50.125 8.625 "maptiler".

(** The primary query finds nothing, the bare city name does. *)
Definition fallback_found : list sched :=
  [Start; Respond 0 (Returned None); Respond 0 (Returned (Some frankfurt))].

Definition new_york : catalog := [("United States", Some ["New York"])].

Definition proto_city : catalog := [("__proto__", Some ["Berlin"])].

(** C5, as stated, fails.  With a key the fallback call is
    [geocodeMapTiler(city, country)]: the text of its query is the bare
    city name, but the country goes along as the hint and the request
    carries it as [country=US].  And for a city of the country "__proto__"
    the array that takes the entries is the prototype of [out]: the
    coordinates that the fallback returned are pushed to it and the task
    is no miss, but the output that the script writes has no entry at
    all. *)
Lemma fallback_hint_and_lost_entry :
  (∃ st,
     run true new_york first_run [Start; Respond 0 (Returned None)] = Some st ∧
     calls 0 (trace st)
     = [geocodeMapTiler "New York, United States" "United States";
        geocodeMapTiler "New York" "United States"] ∧
     ∀ MAPTILER_KEY,
       r_params (request_of MAPTILER_KEY
                   (geocodeMapTiler "New York" "United States"))
       = [("key", MAPTILER_KEY); ("limit", "1"); ("language", "en");
          ("country", "US")]) ∧
  (∃ st,
     run true proto_city first_run fallback_found = Some st ∧
     finished st = true ∧
     resps 0 (trace st) = [Returned None; Returned (Some frankfurt)] ∧
     misses st = 0 ∧
     out st !! "__proto__" = Some [Entry "Berlin" (Some (Coord 50.125 8.625))] ∧
     own_properties (out st) = ∅ ∧
     ∀ (stringify_cache : gmap string coord → string)
       (stringify_out : gmap string (list entry) → string)
       (files : gmap string string),
       persist stringify_cache stringify_out st files !! OUTPUT
       = Some (stringify_out ∅)).
Proof.
  assert (∀ A B : Prop, A → (A → B) → A ∧ B) as step by tauto.
  split.
  - eexists. split; [vm_compute; reflexivity|].
    split; [vm_compute; reflexivity|]. done.
  - eexists. split; [vm_compute; reflexivity|].
    split; [vm_compute; reflexivity|]. split; [vm_compute; reflexivity|].
    split; [vm_compute; reflexivity|]. split; [vm_compute; reflexivity|].
    apply step; [vm_compute; reflexivity|]. intros Ho.
    intros stringify_cache stringify_out files. unfold persist.
    by rewrite lookup_insert_eq, Ho.
Qed.

(** C5, amended: in a finished run, a task whose primary query threw or
    returned nothing made exactly one more call and received one more
    response.  The text of that query is the bare city name.  Without a key
    the call is [geocodeNominatim(city)], whose request carries nothing of
    the country; with a key it is [geocodeMapTiler(city, country)]: the path
    of its request is the encoded city, and the country, which is no part
    of the query text, still goes along as the hint - a [country] parameter
    for the countries of [ISO_HINT].  When the fallback returned the
    coordinates [la], [ln], the entry [{ name: city, lat: la, lng: ln }] is
    in the array of the item's country, which is an own property of the
    output, and so written, for every country but "__proto__"; the key of
    the item is in the cache; and the task is not among the misses, which
    are the tasks whose two queries both failed. *)
Theorem fallback_once (keyed : bool) (raw : catalog)
    (cache0 : gmap string coord) (evs : list sched) (st : state)
    (i : nat) (w : WorkItem) :
  run keyed raw cache0 evs = Some st → finished st = true →
  (build raw).2 !! i = Some w →
  (∀ r rs, resps i (trace st) = r :: rs → failing r = true →
     length rs = 1 ∧
     calls i (trace st)
     = (if keyed
        then [geocodeMapTiler (w_city w +:+ ", " +:+ w_country w) (w_country w);
              geocodeMapTiler (w_city w) (w_country w)]
        else [geocodeNominatim (w_city w +:+ ", " +:+ w_country w);
              geocodeNominatim (w_city w)])) ∧
  (∀ MAPTILER_KEY,
     request_of MAPTILER_KEY (geocodeNominatim (w_city w))
     = Request "https://nominatim.openstreetmap.org/search"
               [("q", w_city w); ("format", "jsonv2"); ("limit", "1");
                ("accept-language", "en")]
               USER_AGENT ∧
     request_of MAPTILER_KEY (geocodeMapTiler (w_city w) (w_country w))
     = Request ("https://api.maptiler.com/geocoding/"
                +:+ encodeURIComponent (w_city w) +:+ ".json")
               ([("key", MAPTILER_KEY); ("limit", "1"); ("language", "en")]
                ++ match hint (w_country w) ISO_HINT with
                   | Some iso => [("country", iso)]
                   | None => []
                   end)
               USER_AGENT) ∧
  (∀ r la ln provider,
     resps i (trace st) = [r; Returned (Some (Geo la ln provider))] →
     (∃ l, out st !! w_country w = Some l ∧
           Entry (w_city w) (Some (Coord la ln)) ∈ l ∧
           (w_country w ≠ PROTO →
            own_properties (out st) !! w_country w = Some l)) ∧
     is_Some (cache st !! w_k w) ∧
     missed (resps i (trace st)) = false) ∧
  misses st = count (fun j => missed (resps j (trace st))) (length (build raw).2).
Proof.
  intros He Hfin Hw. pose proof (inv_run _ _ _ _ _ He) as I.
  pose proof (fin_history _ _ _ I Hfin i w Hw) as Hh. simpl in Hh.
  assert (i < length (build raw).2) as Hi by by eapply lookup_lt_Some.
  pose proof (fin_settled _ _ _ I Hfin i Hi) as Hp.
  split; [|split; [|split]].
  - intros r rs Hr Hf. rewrite Hr in Hh.
    destruct Hh as [[_ ?]|[[_ (g & ?)]|[Hc (r1 & r2 & ? & _)]]]; simplify_eq.
    split; [done|]. rewrite Hc. unfold provider_call, primary_query.
    by destruct keyed.
  - intros MAPTILER_KEY. split; [done|].
    unfold request_of, Adapter.mapTilerRequest.
    by destruct (hint (w_country w) ISO_HINT).
  - intros r la ln provider Hr.
    assert (missed (resps i (trace st)) = false) as Hm
      by (rewrite Hr; simpl; apply andb_false_r).
    destruct (inv_found _ _ _ _ I i w (Geo la ln provider) Hw Hp) as (l & Hl & Hin);
      [by rewrite Hr|].
    split; [|split; [|done]].
    + exists l. split; [done|]. split; [exact Hin|].
      intros Hne. by rewrite own_lookup.
    + by apply (kept_in_cache keyed raw cache0 evs st He i w).
  - by apply (fin_misses _ _ _ I Hfin).
Qed.

Definition one_city : catalog := [("Germany", Some ["Frankfurt (virtual)"])].

Lemma fallback_once_witness :
  ∃ st,
    run true one_city first_run fallback_found = Some st ∧
    calls 0 (trace st)
    = [geocodeMapTiler "Frankfurt, Germany" "Germany";
       geocodeMapTiler "Frankfurt" "Germany"] ∧
    (∃ l, own_properties (out st) !! "Germany" = Some l ∧
          Entry "Frankfurt" (Some (Coord 50.125 8.625)) ∈ l) ∧
    misses st = 0.
Proof.
  eexists. split; [vm_compute; reflexivity|].
  destruct (fallback_once true one_city first_run fallback_found _ 0
              (Item "Germany" "Frankfurt" "Germany::Frankfurt")
              ltac:(vm_compute; reflexivity) ltac:(vm_compute; reflexivity)
              ltac:(vm_compute; reflexivity)) as (H1 & _ & H3 & H4).
  split; [|split].
  - apply (H1 (Returned None) [Returned (Some frankfurt)]);
      vm_compute; reflexivity.
  - destruct (H3 (Returned None) 50.125%float 8.625%float "maptiler"
                ltac:(vm_compute; reflexivity)) as ((l & _ & Hin & Hown) & _).
    exists l. split; [|exact Hin]. apply Hown. discriminate.
  - rewrite H4. vm_compute. reflexivity.
Defined.

(** ** Misses (C6) *)

Definition virtual_country : catalog :=
  [("Germany (virtual)", Some ["Atlantis"])].

(** The primary query throws and the fallback finds nothing. *)
Definition both_fail : list sched :=
  [Start; Respond 0 Threw; Respond 0 (Returned None)].

Definition proto_only : catalog := [("__proto__", Some ["Atlantis"])].

(** C6, as stated, fails.  The output is allocated under the normalised
    name of each country (line 92), so a country key of the input that
    carries the "(virtual)" qualifier is no key of the output; and the
    country "__proto__", a normalised name, gets no key at all. *)
Lemma country_key_is_missing :
  (∃ st,
     run true virtual_country first_run both_fail = Some st ∧
     finished st = true ∧ misses st = 1 ∧
     own_properties (out st) !! "Germany (virtual)" = None ∧
     own_properties (out st) !! "Germany" = Some []) ∧
  (∃ st,
     run true proto_only first_run both_fail = Some st ∧
     finished st = true ∧ misses st = 1 ∧
     normalizeName "__proto__" = "__proto__" ∧
     own_properties (out st) = ∅).
Proof.
  split; eexists; (split; [vm_compute; reflexivity|]);
    repeat split; vm_compute; reflexivity.
Qed.

(** C6, amended: the turn that counts a miss ends a task whose two
    queries both failed, writes nothing to the cache and pushes nothing to
    the output; a turn that does write or push ends a task that did not
    miss.  In a finished run the miss counter is the number of tasks
    whose two queries both failed; a key all of whose tasks missed has no
    cache entry; a city all of whose tasks missed has no entry in the array
    of its country; and every country of the input whose normalised name
    is not "__proto__" is a key of the output under that name - the input
    key itself when it is normalised already - with an empty array when
    all its tasks missed. *)
Theorem misses_leave_nothing (keyed : bool) (raw : catalog)
    (cache0 : gmap string coord) (evs : list sched) (st : state) :
  run keyed raw cache0 evs = Some st →
  (∀ e st', step keyed (build raw).2 e st = Some st' →
     misses st' ≠ misses st →
     misses st' = S (misses st) ∧ cache st' = cache st ∧ out st' = out st ∧
     ∃ i, tasks st !! i ≠ Some Settled ∧ tasks st' !! i = Some Settled ∧
          missed (resps i (trace st')) = true) ∧
  (∀ e st', step keyed (build raw).2 e st = Some st' →
     cache st' ≠ cache st ∨ out st' ≠ out st →
     ∃ i, tasks st !! i ≠ Some Settled ∧ tasks st' !! i = Some Settled ∧
          missed (resps i (trace st')) = false) ∧
  (finished st = true →
   misses st
   = count (fun j => missed (resps j (trace st))) (length (build raw).2) ∧
   (∀ i w, (build raw).2 !! i = Some w →
      (∀ j w', (build raw).2 !! j = Some w' → w_k w' = w_k w →
               missed (resps j (trace st)) = true) →
      cache st !! w_k w = None) ∧
   (∀ i w, (build raw).2 !! i = Some w →
      (∀ j w', (build raw).2 !! j = Some w' →
               w_country w' = w_country w → w_city w' = w_city w →
               missed (resps j (trace st)) = true) →
      ∀ l e, out st !! w_country w = Some l → e ∈ l → e_name e ≠ w_city w) ∧
   (∀ e, e ∈ raw → normalizeName e.1 ≠ PROTO →
      is_Some (own_properties (out st) !! normalizeName e.1) ∧
      (normalizeName e.1 = e.1 → is_Some (own_properties (out st) !! e.1)) ∧
      ((∀ j w', (build raw).2 !! j = Some w' →
                w_country w' = normalizeName e.1 →
                missed (resps j (trace st)) = true) →
       own_properties (out st) !! normalizeName e.1 = Some []))).
Proof.
  intros He. pose proof (inv_run _ _ _ _ _ He) as I. split.
  { intros e st' Hs Hne.
    destruct (step_turn _ _ _ _ _ (inv_out _ _ _ _ I) Hs) as (i & w & Ht).
    destruct (turn_turned _ _ _ _ _ _ _ I Ht) as (p & p' & kd & T).
    pose proof (td_shared _ _ _ _ _ _ _ _ _ T) as Hsh.
    pose proof (td_outcome _ _ _ _ _ _ _ _ _ T) as Ho.
    destruct kd; simpl in Hsh, Ho; destruct_and?; try done.
    repeat split; try done. exists i.
    rewrite (td_before _ _ _ _ _ _ _ _ _ T), (td_after _ _ _ _ _ _ _ _ _ T).
    subst p'. repeat split; try done. intros [= ->]. done. }
  split.
  { intros e st' Hs Hne.
    destruct (step_turn _ _ _ _ _ (inv_out _ _ _ _ I) Hs) as (i & w & Ht).
    destruct (turn_turned _ _ _ _ _ _ _ I Ht) as (p & p' & kd & T).
    pose proof (td_shared _ _ _ _ _ _ _ _ _ T) as Hsh.
    pose proof (td_outcome _ _ _ _ _ _ _ _ _ T) as Ho.
    pose proof (td_before _ _ _ _ _ _ _ _ _ T) as Hb.
    pose proof (td_after _ _ _ _ _ _ _ _ _ T) as Ha.
    destruct kd; simpl in Hsh, Ho; destruct_and?;
      try (by destruct Hne as [Hne|Hne]; destruct Hne).
    all: exists i; rewrite Hb, Ha; subst p'.
    - subst p. repeat split; try done.
      by match goal with H : resps _ _ = [] |- _ => rewrite H end.
    - repeat split; try done. intros [= ->]. done. }
  intros Hfin.
  split; [by apply (fin_misses _ _ _ I Hfin)|]. split; [|split].
  - intros i w Hw Hall.
    destruct (cache st !! w_k w) as [c|] eqn:Hc; [exfalso|done].
    destruct (inv_cache_from _ _ _ _ I _ _ Hc)
      as [H0|(j & w' & g & Hw' & Hk & _ & _ & Hlast)].
    + pose proof (fin_history _ _ _ I Hfin i w Hw) as Hh. simpl in Hh.
      pose proof (Hall i w Hw eq_refl) as Hm.
      rewrite (inv_called _ _ _ _ I i w Hw) in H0; [done|].
      destruct Hh as [[_ E]|[[E _]|[E _]]]; rewrite E in *; done.
    + eapply missed_last; [|exact Hlast]. by eapply Hall.
  - intros i w Hw Hall l e Hl Hin Hname.
    destruct (inv_out_from _ _ _ _ I _ _ _ Hl Hin)
      as (_ & j & w' & Hw' & Hc & Hx & _ & Hm).
    rewrite (Hall j w' Hw' Hc) in Hm; [done | congruence].
  - intros e Hin Hne.
    assert (is_Some ((build raw).1 !! normalizeName e.1)) as H0.
    { rewrite build_out, decide_True; [done|].
      apply list_elem_of_fmap. by exists e. }
    destruct (out_keys_kept _ _ _ _ _ _ He H0) as [l Hl].
    rewrite own_lookup by done.
    split; [by rewrite Hl|]. split.
    { intros <-. rewrite own_lookup by done. by rewrite Hl. }
    intros Hall. rewrite Hl. f_equal.
    destruct l as [|x l]; [done|exfalso].
    destruct (inv_out_from _ _ _ _ I _ _ x Hl)
      as (_ & j & w' & Hw' & Hc & _ & _ & Hm); [by left|].
    by rewrite (Hall j w' Hw' Hc) in Hm.
Qed.

Definition two_countries : catalog :=
  [("Germany", Some ["Atlantis"]); ("Norway (virtual)", Some [])].

Lemma misses_leave_nothing_witness :
  ∃ st,
    run true two_countries first_run both_fail = Some st ∧
    misses st = 1 ∧
    cache st !! "Germany::Atlantis" = None ∧
    own_properties (out st) !! "Germany" = Some [] ∧
    own_properties (out st) !! "Norway" = Some [].
Proof.
  eexists. split; [vm_compute; reflexivity|].
  destruct (misses_leave_nothing true two_countries first_run both_fail _
              ltac:(vm_compute; reflexivity)) as (_ & _ & H).
  destruct (H ltac:(vm_compute; reflexivity)) as (H1 & H2 & _ & H4).
  split; [|split; [|split]].
  - rewrite H1. vm_compute. reflexivity.
  - apply (H2 0 (Item "Germany" "Atlantis" "Germany::Atlantis")).
    + vm_compute. reflexivity.
    + intros [|[|j]] w' Hw' _; [vm_compute; reflexivity | discriminate Hw'..].
  - apply (H4 ("Germany", Some ["Atlantis"])); [by left | discriminate |].
    intros [|[|j]] w' Hw' _; [vm_compute; reflexivity | discriminate Hw'..].
  - apply (H4 ("Norway (virtual)", Some [])); [right; by left | |].
    + vm_compute. discriminate.
    + intros [|[|j]] w' Hw' Hc; [|discriminate Hw'..].
      vm_compute in Hw'. injection Hw' as <-. discriminate Hc.
Defined.

(** ** Provider errors and the end of the run (C7) *)

(** A parser for which every text is malformed, and a printer. *)
Definition reject_all {A : Type} (text : string) : option A := None.
Definition print_nothing {A : Type} (v : A) : string := "".

(** Printers that list the keys of the cache, and the keys of the output
    with the names under each. *)
Definition print_keys (m : gmap string coord) : string :=
  String.concat ", " (map_to_list m).*1.

Definition print_names (o : gmap string (list entry)) : string :=
  String.concat "; "
    ((fun kv => kv.1 +:+ ": " +:+ String.concat ", " (e_name <$> kv.2))
       <$> map_to_list o).

(** A parser that reads one text, and a disk that holds it as the input. *)
Definition proto_text : string := "__proto__: Berlin".

Definition parse_proto (text : string) : option catalog :=
  if String.eqb text proto_text then Some proto_city else None.

Definition proto_disk : gmap string string := {[INPUT := proto_text]}.

(** Berlin is found at once. *)
Definition found_at_once : list sched :=
  [Start; Respond 0 (Returned (Some berlin)); Wake 0].

(** C7, as stated, fails: Berlin, a city of the country "__proto__", is
    resolved by the first query and cached; the script writes the cache
    with its key, and an output without any country. *)
Lemma resolved_city_is_not_written :
  ∃ st,
    run false (loaded_catalog parse_proto proto_disk)
        (loaded_cache reject_all proto_disk) found_at_once = Some st ∧
    finished st = true ∧ misses st = 0 ∧
    cache st = {["__proto__::Berlin" := Coord 52.5 13.5]} ∧
    own_properties (out st) = ∅ ∧
    ∀ (stringify_cache : gmap string coord → string)
      (stringify_out : gmap string (list entry) → string),
      main parse_proto reject_all stringify_cache stringify_out false proto_disk
           found_at_once
      = Some (<[OUTPUT := stringify_out ∅]>
                (<[CACHE := stringify_cache
                              {["__proto__::Berlin" := Coord 52.5 13.5]}]>
                   proto_disk)).
Proof.
  eassert (run false (loaded_catalog parse_proto proto_disk)
             (loaded_cache reject_all proto_disk) found_at_once = Some _) as Hrun
    by (vm_compute; reflexivity).
  eexists. split; [exact Hrun|].
  assert (∀ A B : Prop, A → (A → B) → A ∧ B) as step by tauto.
  apply step; [vm_compute; reflexivity|]. intros Hfin.
  split; [vm_compute; reflexivity|].
  apply step; [vm_compute; reflexivity|]. intros Hc.
  apply step; [vm_compute; reflexivity|]. intros Ho.
  intros stringify_cache stringify_out. unfold main. rewrite Hrun.
  unfold mbind, option_bind, persist.
  rewrite Hfin, Hc, Ho. reflexivity.
Qed.

Section Completion.

Variable parse_catalog : string → option catalog.
Variable parse_cache : string → option (gmap string coord).
Variable stringify_cache : gmap string coord → string.
Variable stringify_out : gmap string (list entry) → string.
Variable keyed : bool.
Variable files : gmap string string.

Local Abbreviation raw := (loaded_catalog parse_catalog files).
Local Abbreviation cache0 := (loaded_cache parse_cache files).
Local Abbreviation script_main :=
  (main parse_catalog parse_cache stringify_cache stringify_out keyed files).

(** What the script leaves on disk after [st]. *)
Definition written (st : state) (files' : gmap string string) : Prop :=
  files' !! CACHE = Some (stringify_cache (cache st)) ∧
  files' !! OUTPUT = Some (stringify_out (own_properties (out st))).

Lemma main_writes (evs : list sched) (st : state) :
  run keyed raw cache0 evs = Some st → finished st = true →
  ∃ files', script_main evs = Some files' ∧ written st files'.
Proof.
  intros He Hfin. pose proof (inv_run _ _ _ _ _ He) as I.
  exists (persist stringify_cache stringify_out st files).
  unfold main. rewrite He. simpl. rewrite Hfin, (inv_rej _ _ _ _ I). simpl.
  split; [done|]. unfold written, persist. split.
  - rewrite lookup_insert_ne by done. by rewrite lookup_insert_eq.
  - by rewrite lookup_insert_eq.
Qed.

(** What a finished run holds of the work items that did not miss: the key
    of each is in the cache and an entry with the name of its city and with
    coordinates is in the array of its country; for a result [g] that a
    provider returned that entry is [{ name: city, lat: g.lat, lng: g.lng }],
    and the cache holds these coordinates under the key when tasks run one
    at a time or the keys are pairwise distinct.  The array is an own
    property of the output for every country but "__proto__". *)
Lemma finished_holds (evs : list sched) (st : state) :
  run keyed raw cache0 evs = Some st → finished st = true →
  (∀ i w, (build raw).2 !! i = Some w →
     missed (resps i (trace st)) = false →
     is_Some (cache st !! w_k w) ∧
     ∃ l x, out st !! w_country w = Some l ∧ x ∈ l ∧
            e_name x = w_city w ∧ is_Some (e_coord x) ∧
            (w_country w ≠ PROTO →
             own_properties (out st) !! w_country w = Some l)) ∧
  (∀ i w g, (build raw).2 !! i = Some w →
     Resp i (Returned (Some g)) ∈ trace st →
     (∃ l, out st !! w_country w = Some l ∧
           Entry (w_city w) (Some (Coord (g_lat g) (g_lng g))) ∈ l ∧
           (w_country w ≠ PROTO →
            own_properties (out st) !! w_country w = Some l)) ∧
     (keyed = false ∨ NoDup (w_k <$> (build raw).2) →
      cache st !! w_k w = Some (Coord (g_lat g) (g_lng g)))).
Proof.
  intros He Hfin. pose proof (inv_run _ _ _ _ _ He) as I. split.
  - intros i w Hw Hm.
    assert (i < length (build raw).2) as Hi by by eapply lookup_lt_Some.
    pose proof (fin_settled _ _ _ I Hfin i Hi) as Hp.
    split; [by apply (kept_in_cache keyed raw cache0 evs st He i w)|].
    destruct (settled_listed keyed raw cache0 evs st He i w Hw Hp Hm)
      as (l & x & Hl & Hx & Hn).
    exists l, x. repeat split; try done.
    + by destruct (inv_out_from _ _ _ _ I _ _ _ Hl Hx).
    + intros Hne. by rewrite own_lookup.
  - intros i w g Hw Hin.
    assert (i < length (build raw).2) as Hi by by eapply lookup_lt_Some.
    pose proof (fin_settled _ _ _ I Hfin i Hi) as Hp.
    pose proof (fin_history _ _ _ I Hfin i w Hw) as Hh.
    pose proof (result_is_last _ _ _ _ g Hh (resp_in_resps _ _ _ Hin)) as Hlast.
    destruct (inv_found _ _ _ _ I i w g Hw Hp Hlast) as (l & Hl & Hx).
    split.
    + exists l. split; [done|]. split; [by destruct g|].
      intros Hne. by rewrite own_lookup.
    + intros Hex.
      pose proof (agree_exec keyed _ cache0 Hex (build_keys raw) _ _ _
                    (build_ready raw) (build_empty raw) He) as A.
      destruct (ag_out _ _ A _ _ _ Hl Hx) as (co & Hco & Hc).
      simpl in Hco, Hc. simplify_eq.
      rewrite <- (build_keys raw w) in Hc
        by by eapply list_elem_of_lookup_2.
      rewrite Hc. by destruct g.
Qed.

(** C7, amended: whatever the provider does, no task rejects; an awaited
    call may end in any way, also by throwing, and the run goes on; as long
    as a task is unfinished some event can happen, and no schedule has more
    than five events per work item, so every run ends; at its end every
    work item has been processed, the cache holds what was resolved and
    the arrays of the output hold it, and the script writes the cache to
    the cache file and the own properties of the output - the arrays of
    every country but "__proto__" - to the output file.  For every
    behaviour of the provider there is such a run. *)
Theorem provider_errors_never_abort (evs : list sched) (st : state) :
  run keyed raw cache0 evs = Some st →
  rejected st = false ∧
  length evs ≤ 5 * length (build raw).2 ∧
  (∀ i r, tasks st !! i = Some AwaitPrimary ∨ tasks st !! i = Some AwaitFallback →
          is_Some (step keyed (build raw).2 (Respond i r) st)) ∧
  (finished st = false → ∃ e, is_Some (step keyed (build raw).2 e st)) ∧
  (finished st = true →
     processed st = length (build raw).2 ∧
     (∀ i w, (build raw).2 !! i = Some w →
        missed (resps i (trace st)) = false →
        is_Some (cache st !! w_k w) ∧
        ∃ l x, out st !! w_country w = Some l ∧ x ∈ l ∧
               e_name x = w_city w ∧ is_Some (e_coord x) ∧
               (w_country w ≠ PROTO →
                own_properties (out st) !! w_country w = Some l)) ∧
     (∀ i w g, (build raw).2 !! i = Some w →
        Resp i (Returned (Some g)) ∈ trace st →
        (∃ l, out st !! w_country w = Some l ∧
              Entry (w_city w) (Some (Coord (g_lat g) (g_lng g))) ∈ l ∧
              (w_country w ≠ PROTO →
               own_properties (out st) !! w_country w = Some l)) ∧
        (keyed = false ∨ NoDup (w_k <$> (build raw).2) →
         cache st !! w_k w = Some (Coord (g_lat g) (g_lng g)))) ∧
     ∃ files', script_main evs = Some files' ∧ written st files') ∧
  (∀ o : oracle, ∃ st' files',
     run keyed raw cache0 (complete keyed raw cache0 o) = Some st' ∧
     finished st' = true ∧
     script_main (complete keyed raw cache0 o) = Some files' ∧
     written st' files').
Proof.
  intros He. pose proof (inv_run _ _ _ _ _ He) as I.
  split; [apply I|]. split; [|split; [|split; [|split]]].
  - pose proof (run_bounded _ _ _ _ _ He). lia.
  - intros i r Hp. apply respond_enabled; [apply I | done].
  - intros Hnf.
    destruct (next_event (fun _ _ => Threw) st) as [e|] eqn:E.
    + exists e. eapply next_event_enabled; [apply I | done].
    + apply next_event_none in E. congruence.
  - intros Hfin. split; [by apply (fin_processed _ _ _ I Hfin)|].
    destruct (finished_holds evs st He Hfin) as [H1 H2].
    split; [exact H1|]. split; [exact H2|]. by apply main_writes.
  - intros o. destruct (run_complete keyed raw cache0 o) as (st' & He' & Hfin').
    destruct (main_writes _ _ He' Hfin') as (files' & ? & ?).
    by exists st', files'.
Qed.

End Completion.

(** A parser that reads one text, and a disk that holds it as the input. *)
Definition germany_text : string := "Germany: Berlin, Bonn".

Definition parse_germany (text : string) : option catalog :=
  if String.eqb text germany_text
  then Some [("Germany", Some ["Berlin"; "Bonn"])]
  else None.

Definition disk : gmap string string := {[INPUT := germany_text]}.

(** Every call throws. *)
Definition outage : list sched :=
  [Start; Respond 0 Threw; Respond 0 Threw;
   Start; Respond 1 Threw; Respond 1 Threw].

(** Berlin is found; every call for Bonn throws. *)
Definition bonn_down : list sched :=
  [Start; Respond 0 (Returned (Some berlin)); Wake 0;
   Start; Respond 1 Threw; Respond 1 Threw].

Lemma provider_errors_never_abort_witness :
  ∃ st files',
    run false (loaded_catalog parse_germany disk) (loaded_cache reject_all disk)
        bonn_down = Some st ∧
    rejected st = false ∧ processed st = 2 ∧ misses st = 1 ∧
    main parse_germany reject_all print_keys print_names false disk bonn_down
    = Some files' ∧
    files' !! CACHE = Some "Germany::Berlin" ∧
    files' !! OUTPUT = Some "Germany: Berlin" ∧
    cache st !! "Germany::Berlin" = Some (Coord 52.5 13.5) ∧
    ∃ l, own_properties (out st) !! "Germany" = Some l ∧
         Entry "Berlin" (Some (Coord 52.5 13.5)) ∈ l.
Proof.
  destruct (run false (loaded_catalog parse_germany disk)
              (loaded_cache reject_all disk) bonn_down) as [st|] eqn:Hrun;
    [|by vm_compute in Hrun].
  assert (∀ {A} (f : state → A) v,
            f <$> run false (loaded_catalog parse_germany disk)
                    (loaded_cache reject_all disk) bonn_down = Some v →
            f st = v) as get.
  { intros A f v H. rewrite Hrun in H. by injection H. }
  destruct (provider_errors_never_abort parse_germany reject_all
              print_keys print_names false disk bonn_down st Hrun)
    as (H1 & _ & _ & _ & H5 & _).
  destruct H5 as (H5 & _ & Hres & files' & Hm & Hc & Ho);
    [apply (get _ finished); vm_compute; reflexivity|].
  destruct (Hres 0 (Item "Germany" "Berlin" "Germany::Berlin") berlin)
    as ((l & _ & Hin & Hown) & Hcache).
  { vm_compute. reflexivity. }
  { rewrite (get _ trace _ ltac:(vm_compute; reflexivity)).
    do 1 right. by left. }
  exists st, files'. split; [done|].
  split; [exact H1|]. split; [exact H5|].
  split; [apply (get _ misses); vm_compute; reflexivity|].
  split; [exact Hm|].
  split; [rewrite Hc; f_equal;
          apply (get _ (fun s => print_keys (cache s)));
          vm_compute; reflexivity|].
  split; [rewrite Ho; f_equal;
          apply (get _ (fun s => print_names (own_properties (out s))));
          vm_compute; reflexivity|].
  split.
  - apply Hcache. by left.
  - exists l. split; [|exact Hin]. apply Hown. discriminate.
Defined.

(** ** Loading the input and the cache (C8) *)

Lemma loadJSON_fallback {A : Type} (parse : string → option A)
    (files : gmap string string) (path : string) (fallback : A) :
  files !! path = None ∨ (∃ text, files !! path = Some text ∧ parse text = None) →
  loadJSON parse files path fallback = fallback.
Proof.
  unfold loadJSON. intros [->|(text & -> & ->)]; done.
Qed.

(** C8: [loadJSON] returns its fallback when the file cannot be read or its
    text does not parse; so a missing input is the empty catalog and a
    missing or malformed cache is the empty cache.  On a missing input the
    script ends at once and writes an empty output and the cache it
    loaded; and in every case, whatever the provider answers, the script
    runs to the end and writes its files. *)
Theorem load_never_fatal (parse_catalog : string → option catalog)
    (parse_cache : string → option (gmap string coord))
    (stringify_cache : gmap string coord → string)
    (stringify_out : gmap string (list entry) → string)
    (keyed : bool) (files : gmap string string) :
  (files !! INPUT = None → loaded_catalog parse_catalog files = []) ∧
  (files !! CACHE = None ∨
   (∃ text, files !! CACHE = Some text ∧ parse_cache text = None) →
   loaded_cache parse_cache files = ∅) ∧
  (files !! INPUT = None →
   ∃ files',
     main parse_catalog parse_cache stringify_cache stringify_out keyed files []
     = Some files' ∧
     files' !! OUTPUT = Some (stringify_out ∅) ∧
     files' !! CACHE = Some (stringify_cache (loaded_cache parse_cache files))) ∧
  (∀ o : oracle, ∃ files',
     main parse_catalog parse_cache stringify_cache stringify_out keyed files
       (complete keyed (loaded_catalog parse_catalog files)
                 (loaded_cache parse_cache files) o)
     = Some files').
Proof.
  split; [|split; [|split]].
  - intros H. apply loadJSON_fallback. by left.
  - apply loadJSON_fallback.
  - intros H. unfold main, run, loaded_catalog.
    rewrite (loadJSON_fallback parse_catalog files INPUT []) by by left.
    simpl. eexists. split; [done|]. unfold persist, own_properties. simpl.
    rewrite delete_empty. split.
    + by rewrite lookup_insert_eq.
    + rewrite lookup_insert_ne by done. by rewrite lookup_insert_eq.
  - intros o.
    destruct (run_complete keyed (loaded_catalog parse_catalog files)
                (loaded_cache parse_cache files) o) as (st & He & Hfin).
    destruct (main_writes parse_catalog parse_cache stringify_cache stringify_out
                keyed files _ _ He Hfin) as (files' & Hm & _).
    eauto.
Qed.

(** No input file, and a cache file that is not JSON. *)
Definition broken_disk : gmap string string := {[CACHE := "{ not json"]}.

Lemma load_never_fatal_witness :
  loaded_catalog parse_germany broken_disk = [] ∧
  loaded_cache reject_all broken_disk = ∅ ∧
  ∃ files',
    main parse_germany reject_all print_nothing print_nothing false broken_disk []
    = Some files' ∧
    files' !! OUTPUT = Some "" ∧ files' !! CACHE = Some "".
Proof.
  destruct (load_never_fatal parse_germany reject_all print_nothing print_nothing
              false broken_disk) as (H1 & H2 & H3 & _).
  split; [apply H1; vm_compute; reflexivity|].
  split; [apply H2; right; exists "{ not json"; split; vm_compute; reflexivity|].
  apply H3. vm_compute. reflexivity.
Defined.

(** ** Cities with an empty name (C9) *)






(** ** Output and cache (C10) *)

Definition east_berlin : geo := Geo 52.5 13.5 "maptiler".
Definition west_berlin : geo := Geo 52.5 13.25 "maptiler".

(** Both tasks start before either returns; the second one's primary
    query throws and its bare-name query finds another place. *)
Definition overlapping : list sched :=
  [Start; Start; Respond 0 (Returned (Some east_berlin));
   Respond 1 Threw; Respond 1 (Returned (Some west_berlin))].

(** C10, as stated, fails: with a key the queue runs the two tasks of the
    key "Germany::Berlin" together; both miss the cache, both write it, and
    the entry the first one pushed no longer equals the cache entry when
    the run ends. *)
Lemma output_disagrees_with_cache :
  ∃ st,
    run true berlin_twice first_run overlapping = Some st ∧
    finished st = true ∧
    out st !! "Germany"
    = Some [Entry "Berlin" (Some (coord_of east_berlin));
            Entry "Berlin" (Some (coord_of west_berlin))] ∧
    cache st !! key "Germany" "Berlin" = Some (coord_of west_berlin) ∧
    Some (coord_of east_berlin) ≠ cache st !! key "Germany" "Berlin".
Proof.
  eexists. split; [vm_compute; reflexivity|].
  repeat split; try (vm_compute; reflexivity).
  intros H.
  apply (f_equal (fun o => match o with
                           | Some c => PrimFloat.ltb (lng c) 13.375
                           | None => false
                           end)) in H.
  vm_compute in H. discriminate H.
Qed.

(** C10, amended: a turn leaves each output array as it was or appends one
    entry to it, whose coordinates are the cache entry of its key right
    after the turn; and when tasks run one at a time (no provider key) or
    the keys of the work list are pairwise distinct, the coordinates of
    every output entry equal the cache entry of its key in every state of
    the run, so also in the files written at its end. *)
Theorem output_agrees_with_cache (keyed : bool) (raw : catalog)
    (cache0 : gmap string coord) (evs : list sched) (st : state) :
  run keyed raw cache0 evs = Some st →
  (∀ e st' c l', step keyed (build raw).2 e st = Some st' →
     out st' !! c = Some l' →
     ∃ l, out st !! c = Some l ∧
       (l' = l ∨
        ∃ x, l' = l ++ [x] ∧ is_Some (e_coord x) ∧
             e_coord x = cache st' !! key c (e_name x))) ∧
  (keyed = false ∨ NoDup (w_k <$> (build raw).2) →
   ∀ c l x, out st !! c = Some l → x ∈ l →
     ∃ co, e_coord x = Some co ∧ cache st !! key c (e_name x) = Some co).
Proof.
  intros He. pose proof (inv_run _ _ _ _ _ He) as I. split.
  - intros e st' c l' Hs Hl'.
    destruct (step_turn _ _ _ _ _ (inv_out _ _ _ _ I) Hs) as (i & w & Ht).
    destruct (turn_turned _ _ _ _ _ _ _ I Ht) as (p & p' & kd & Hd).
    destruct (shared_out_step _ _ _ _ _ _ (td_shared _ _ _ _ _ _ _ _ _ Hd) Hl')
      as (l & Hl & [->|(-> & Hc & ->)]).
    + exists l. split; [done | by left].
    + exists l. split; [done|]. right. eexists. split; [done|]. simpl.
      split; [done|]. f_equal. apply (build_keys raw).
      eapply list_elem_of_lookup_2. apply Hd.
  - intros Hex.
    eapply ag_out.
    eapply (agree_exec keyed _ cache0 Hex (build_keys raw));
      [apply build_ready | apply build_empty | exact He].
Qed.

Lemma output_agrees_with_cache_witness :
  ∃ st,
    run false berlin_twice first_run
        [Start; Respond 0 (Returned (Some east_berlin)); Wake 0; Start] = Some st ∧
    ∀ c l x, out st !! c = Some l → x ∈ l →
      ∃ co, e_coord x = Some co ∧ cache st !! key c (e_name x) = Some co.
Proof.
  eexists. split; [vm_compute; reflexivity|].
  apply (output_agrees_with_cache false berlin_twice first_run
           [Start; Respond 0 (Returned (Some east_berlin)); Wake 0; Start]).
  - vm_compute. reflexivity.
  - by left.
Defined.

(** * Further properties *)

(** ** Name normalisation *)

Module Trim.

Import Str.

(** White space only. *)
Definition blank (l : list ascii) : Prop := Forall (fun c => is_space c = true) l.

(** Removing the white space at the end, as a recursion from the front. *)
Fixpoint drop_end (l : list ascii) : list ascii :=
  match l with
  | [] => []
  | a :: l' =>
      match drop_end l' with
      | [] => if is_space a then [] else [a]
      | m => a :: m
      end
  end.

Lemma drop_spaces_blank (ws l : list ascii) :
  blank ws → drop_spaces (ws ++ l) = drop_spaces l.
Proof. induction 1 as [|c ws Hc _ IH]; simpl; [done|]. by rewrite Hc. Qed.

Lemma drop_spaces_head (l : list ascii) (c : ascii) (m : list ascii) :
  drop_spaces l = c :: m → is_space c = false.
Proof.
  induction l as [|a l IH]; simpl; [done|].
  destruct (is_space a) eqn:E; [done|]. by intros [= <- _].
Qed.

Lemma drop_spaces_snoc (l : list ascii) (a : ascii) :
  drop_spaces (l ++ [a])
  = match drop_spaces l with
    | [] => if is_space a then [] else [a]
    | m => m ++ [a]
    end.
Proof.
  induction l as [|b l IH]; simpl; [done|].
  destruct (is_space b); [done|]. done.
Qed.

Lemma drop_end_rev (l : list ascii) : rev (drop_spaces (rev l)) = drop_end l.
Proof.
  induction l as [|a l IH]; simpl; [done|].
  rewrite drop_spaces_snoc, <- IH.
  destruct (drop_spaces (rev l)) as [|b m]; simpl.
  - by destruct (is_space a).
  - rewrite rev_app_distr. simpl. by destruct (rev m ++ [b]) eqn:E;
      [apply app_eq_nil in E as [_ ?]|].
Qed.

Lemma trim_drop_end (l : list ascii) : trim l = drop_end (drop_spaces l).
Proof. unfold trim. apply drop_end_rev. Qed.

Lemma drop_end_idemp (l : list ascii) : drop_end (drop_end l) = drop_end l.
Proof.
  induction l as [|a l IH]; simpl; [done|].
  destruct (drop_end l) as [|b m] eqn:E.
  - destruct (is_space a) eqn:Ea; simpl; [done|]. by rewrite Ea.
  - simpl in *. by rewrite IH.
Qed.

Lemma drop_spaces_drop_end (l : list ascii) :
  drop_spaces (drop_end l) = drop_end (drop_spaces l).
Proof.
  induction l as [|a l IH]; simpl; [done|].
  destruct (is_space a) eqn:Ea.
  - rewrite <- IH. destruct (drop_end l); simpl; by rewrite ?Ea.
  - simpl. destruct (drop_end l); simpl; by rewrite Ea.
Qed.

(** Trimming what has lost its trailing white space is trimming. *)
Lemma trim_drop_end_l (l : list ascii) : trim (drop_end l) = trim l.
Proof.
  by rewrite !trim_drop_end, drop_spaces_drop_end, drop_end_idemp.
Qed.

Lemma drop_end_last (l : list ascii) (c : ascii) :
  last (drop_end l) = Some c → is_space c = false.
Proof.
  rewrite <- drop_end_rev.
  destruct (drop_spaces (rev l)) as [|b m] eqn:E; simpl; [done|].
  rewrite last_snoc. intros [= <-]. by eapply drop_spaces_head.
Qed.

Lemma drop_end_head (l : list ascii) (a c : ascii) (m : list ascii) :
  is_space a = false → head (drop_end (a :: l)) = Some c → c = a.
Proof.
  intros Ha. simpl. destruct (drop_end l); rewrite ?Ha; simpl; congruence.
Qed.

Lemma trim_head (l : list ascii) (c : ascii) :
  head (trim l) = Some c → is_space c = false.
Proof.
  rewrite trim_drop_end.
  destruct (drop_spaces l) as [|a m] eqn:E; [done|].
  pose proof (drop_spaces_head _ _ _ E) as Ha.
  intros H. apply (drop_end_head m a c []) in H as ->; done.
Qed.

Lemma trim_last (l : list ascii) (c : ascii) :
  last (trim l) = Some c → is_space c = false.
Proof. rewrite trim_drop_end. apply drop_end_last. Qed.

Lemma is_space_fold_case (c : ascii) : is_space (fold_case c) = is_space c.
Proof. by destruct c as [[] [] [] [] [] [] [] []]. Qed.

Lemma fold_case_paren (c : ascii) : fold_case c = ")"%char → c = ")"%char.
Proof. by destruct c as [[] [] [] [] [] [] [] []]. Qed.

End Trim.

(** [s.trim()] *)
Definition trim_str (s : string) : string :=
  string_of_list_ascii (Str.trim (list_ascii_of_string s)).

(** [s] neither starts nor ends with white space. *)
Definition trimmed (s : string) : Prop :=
  (∀ c, head (list_ascii_of_string s) = Some c → Str.is_space c = false) ∧
  (∀ c, last (list_ascii_of_string s) = Some c → Str.is_space c = false).

(** [s] is white space only. *)
Definition blank (s : string) : Prop := Trim.blank (list_ascii_of_string s).

(** [s] and [t] are equal up to the case of their ASCII letters. *)
Definition same_letters (s t : string) : Prop :=
  map Str.fold_case (list_ascii_of_string s)
  = map Str.fold_case (list_ascii_of_string t).

Lemma strip_prefix_ci_same (p v rest : list ascii) :
  map Str.fold_case p = map Str.fold_case v →
  Str.strip_prefix_ci p (v ++ rest) = Some rest.
Proof.
  revert v. induction p as [|a p IH]; intros [|c v] E; simplify_eq/=; [done|].
  rewrite H, Ascii.eqb_refl. by apply IH.
Qed.

Lemma strip_prefix_ci_mismatch (a c : ascii) (p m : list ascii) :
  Str.fold_case c ≠ Str.fold_case a → Str.strip_prefix_ci (a :: p) (c :: m) = None.
Proof.
  intros H. cbn [Str.strip_prefix_ci].
  by destruct (Ascii.eqb_spec (Str.fold_case a) (Str.fold_case c)).
Qed.

Lemma drop_spaces_elem (l : list ascii) (c : ascii) :
  c ∈ Str.drop_spaces l → c ∈ l.
Proof.
  induction l as [|a l IH]; simpl; [done|].
  destruct (Str.is_space a); [|done]. intros H. right. by apply IH.
Qed.

Lemma strip_virtual_qualifier (l ws v ws' : list ascii) :
  ws ≠ [] → Trim.blank ws → Trim.blank ws' →
  map Str.fold_case v = map Str.fold_case (list_ascii_of_string "(virtual)") →
  Str.strip_virtual (l ++ ws ++ v ++ ws') = Trim.drop_end l.
Proof.
  intros Hne Hws Hws' Hv. unfold Str.strip_virtual.
  rewrite !rev_app_distr, <- !app_assoc.
  rewrite Trim.drop_spaces_blank by by apply Forall_rev.
  assert (map Str.fold_case (rev (list_ascii_of_string "(virtual)"))
          = map Str.fold_case (rev v)) as Hrev by by rewrite !map_rev, Hv.
  assert (Str.drop_spaces (rev v ++ rev ws ++ rev l) = rev v ++ rev ws ++ rev l)
    as ->.
  { destruct (rev v) as [|c m]; [done|]. simpl in Hrev. injection Hrev as Hc _.
    simpl. rewrite <- Trim.is_space_fold_case, <- Hc. done. }
  rewrite (strip_prefix_ci_same _ _ _ Hrev).
  destruct ws as [|a ws _] using rev_ind; [done|].
  apply Forall_app in Hws as [Hws Ha]. apply Forall_inv in Ha.
  rewrite rev_app_distr. simpl. rewrite Ha.
  rewrite Trim.drop_spaces_blank by by apply Forall_rev.
  apply Trim.drop_end_rev.
Qed.

Lemma strip_virtual_plain (l : list ascii) :
  ")"%char ∉ l → Str.strip_virtual l = l.
Proof.
  intros Hl. unfold Str.strip_virtual.
  destruct (Str.drop_spaces (rev l)) as [|c m] eqn:E; [done|].
  assert (c ∈ l) as Hc.
  { rewrite list_elem_of_In, in_rev, <- list_elem_of_In.
    apply drop_spaces_elem. rewrite E. by left. }
  change (rev (list_ascii_of_string "(virtual)"))
    with (")"%char :: rev (list_ascii_of_string "(virtual")).
  rewrite strip_prefix_ci_mismatch; [done|].
  intros Heq%Trim.fold_case_paren. by subst.
Qed.

(** X1: a normalised name neither starts nor ends with white space; so
    neither do the country and the city of a work item, nor a key of the
    pre-allocated output. *)
Theorem normalized_names_are_trimmed (raw : catalog) :
  (∀ s, trimmed (normalizeName s)) ∧
  (∀ w, w ∈ (build raw).2 → trimmed (w_country w) ∧ trimmed (w_city w)) ∧
  (∀ c, is_Some ((build raw).1 !! c) → trimmed c).
Proof.
  assert (∀ s, trimmed (normalizeName s)) as Ht.
  { intros s. unfold trimmed, normalizeName.
    rewrite list_ascii_of_string_of_list_ascii.
    split; [apply Trim.trim_head | apply Trim.trim_last]. }
  split; [done|]. split.
  - intros w (e & cityRaw & _ & _ & ->)%build_items. simpl. split; apply Ht.
  - intros c. rewrite build_out. case_decide as Hc; [|by intros [? ?]].
    intros _. apply list_elem_of_fmap in Hc as (e & -> & _). apply Ht.
Qed.

(** X2: [normalizeName] removes one trailing "(virtual)" qualifier - in
    any letter case, after at least one white-space character, before any
    white space - with the white space around it, and returns what stands
    before it, trimmed.  A second qualifier before the removed one stays. *)
Theorem qualifier_is_stripped (s ws v ws' : string) :
  ws ≠ "" → blank ws → blank ws' → same_letters v "(virtual)" →
  normalizeName (s +:+ ws +:+ v +:+ ws') = trim_str s.
Proof.
  intros Hne Hws Hws' Hv. unfold normalizeName, trim_str. f_equal.
  rewrite !chars_app, strip_virtual_qualifier; [| |done..].
  - apply Trim.trim_drop_end_l.
  - intros E. apply Hne. apply chars_inj. by rewrite E.
Qed.

Lemma qualifier_is_stripped_witness :
  normalizeName "Frankfurt (virtual)   (Virtual) " = "Frankfurt (virtual)".
Proof.
  apply (qualifier_is_stripped "Frankfurt (virtual)" "   " "(Virtual)" " ").
  - discriminate.
  - unfold blank, Trim.blank. simpl. repeat constructor.
  - unfold blank, Trim.blank. simpl. repeat constructor.
  - reflexivity.
Defined.

(** X3: a name without a closing parenthesis is only trimmed. *)
Theorem plain_names_are_only_trimmed (s : string) :
  ")"%char ∉ list_ascii_of_string s → normalizeName s = trim_str s.
Proof.
  intros H. unfold normalizeName, trim_str. by rewrite strip_virtual_plain.
Qed.

Lemma plain_names_are_only_trimmed_witness :
  normalizeName "  New York (US " = "New York (US".
Proof.
  apply (plain_names_are_only_trimmed "  New York (US ").
  simpl. intros H.
  repeat (apply elem_of_cons in H as [H|H]; [discriminate H|]).
  by apply elem_of_nil in H.
Defined.

Lemma drop_spaces_suffix (l : list ascii) :
  ∃ pre, l = pre ++ Str.drop_spaces l.
Proof.
  induction l as [|a l [pre IH]]; simpl; [by exists []|].
  destruct (Str.is_space a).
  - exists (a :: pre). simpl. by rewrite <- IH.
  - by exists [].
Qed.

Lemma strip_prefix_ci_suffix (p l m : list ascii) :
  Str.strip_prefix_ci p l = Some m → ∃ pre, l = pre ++ m.
Proof.
  revert l. induction p as [|a p IH]; intros l H; simpl in H.
  - simplify_eq. by exists [].
  - destruct l as [|c l]; [done|].
    destruct (Ascii.eqb _ _); [|done].
    destruct (IH l H) as [pre ->]. by exists (c :: pre).
Qed.

(** What [strip_virtual] returns starts as the string does, when that is
    not with white space. *)
Lemma strip_virtual_head (a : ascii) (l : list ascii) :
  Str.is_space a = false → ∃ m, Str.strip_virtual (a :: l) = a :: m.
Proof.
  intros Ha. unfold Str.strip_virtual.
  destruct (Str.strip_prefix_ci _ _) as [[|c before]|] eqn:E; [by eauto | | by eauto].
  destruct (Str.is_space c) eqn:Hc; [|by eauto].
  apply strip_prefix_ci_suffix in E as [pre1 E].
  destruct (drop_spaces_suffix (rev (a :: l))) as [pre2 E2].
  rewrite E in E2. simpl in E2.
  destruct (drop_spaces_suffix before) as [pre3 E3].
  destruct (Str.drop_spaces before) as [|b rest _] eqn:Hd using rev_ind.
  - rewrite app_nil_r in E3. subst before.
    destruct pre3 as [|x pre3 _] using rev_ind.
    + rewrite app_assoc in E2.
      apply (f_equal (@rev ascii)) in E2.
      rewrite rev_app_distr, rev_app_distr in E2. simpl in E2.
      rewrite rev_involutive in E2. simplify_eq. congruence.
    + assert (Str.is_space x = false) as Hx.
      { replace (pre2 ++ pre1 ++ c :: pre3 ++ [x])
          with ((pre2 ++ pre1 ++ c :: pre3) ++ [x]) in E2
          by by rewrite <- !app_assoc.
        apply app_inj_tail in E2 as [_ ->]. done. }
      rewrite Trim.drop_spaces_snoc in Hd.
      destruct (Str.drop_spaces pre3); [by rewrite Hx in Hd|].
      by destruct l0.
  - assert (b = a) as ->.
    { rewrite E3 in E2.
      replace (pre2 ++ pre1 ++ c :: pre3 ++ rest ++ [b])
        with ((pre2 ++ pre1 ++ c :: pre3 ++ rest) ++ [b]) in E2
        by (rewrite <- !app_assoc; simpl; by rewrite <- !app_assoc).
      apply app_inj_tail in E2 as [_ ->]. done. }
    rewrite rev_app_distr. simpl. eauto.
Qed.

(** X22: a name that starts with a character other than white space
    keeps it as its first character, so it is never normalised to the
    empty name. *)
Theorem first_character_is_kept (s : string) (a : ascii) :
  head (list_ascii_of_string s) = Some a → Str.is_space a = false →
  head (list_ascii_of_string (normalizeName s)) = Some a ∧ normalizeName s ≠ "".
Proof.
  intros Hs Ha.
  assert (head (list_ascii_of_string (normalizeName s)) = Some a) as H.
  { unfold normalizeName. rewrite list_ascii_of_string_of_list_ascii.
    destruct (list_ascii_of_string s) as [|a' l]; simplify_eq/=.
    destruct (strip_virtual_head a l Ha) as [m ->].
    rewrite Trim.trim_drop_end. simpl. rewrite Ha. simpl.
    by destruct (Trim.drop_end m); rewrite ?Ha. }
  split; [done|]. intros E. by rewrite E in H.
Qed.

Lemma first_character_is_kept_witness :
  head (list_ascii_of_string (normalizeName "(virtual)")) = Some "("%char ∧
  normalizeName "(virtual)" ≠ "".
Proof. by apply (first_character_is_kept "(virtual)"). Defined.

(** ** Sums over the tasks *)

(** [total f n]: the sum of [f] over the indices below [n]. *)
Fixpoint total (f : nat → nat) (n : nat) : nat :=
  match n with
  | 0 => 0
  | S m => total f m + f m
  end.

Lemma total_ext (f g : nat → nat) (n : nat) :
  (∀ j, j < n → f j = g j) → total f n = total g n.
Proof.
  induction n as [|n IH]; intros H; [done|]. simpl.
  rewrite IH, (H n); [done | lia | intros; apply H; lia].
Qed.

Lemma total_le (f g : nat → nat) (n : nat) :
  (∀ j, j < n → f j ≤ g j) → total f n ≤ total g n.
Proof.
  induction n as [|n IH]; intros H; [done|]. simpl.
  assert (total f n ≤ total g n) by (apply IH; intros; apply H; lia).
  pose proof (H n). lia.
Qed.

Lemma total_add (f g : nat → nat) (n : nat) :
  total (fun j => f j + g j) n = total f n + total g n.
Proof. induction n as [|n IH]; simpl; lia. Qed.

Lemma total_const (c n : nat) : total (fun _ => c) n = n * c.
Proof. induction n as [|n IH]; simpl; lia. Qed.

Lemma total_scale (c : nat) (f : nat → nat) (n : nat) :
  c * total f n = total (fun j => c * f j) n.
Proof. induction n as [|n IH]; simpl; lia. Qed.

Lemma total_bound (f : nat → nat) (n c : nat) :
  (∀ j, j < n → f j ≤ c) → total f n ≤ c * n.
Proof.
  intros H. rewrite Nat.mul_comm, <- total_const. by apply total_le.
Qed.

Lemma total_upper (f : nat → nat) (n : nat) :
  (∀ j, j < n → f j ≤ 1) → total f n ≤ n.
Proof. intros H. rewrite <- (Nat.mul_1_l n) at 2. by apply total_bound. Qed.

Lemma total_lower (f : nat → nat) (n : nat) :
  (∀ j, j < n → 1 ≤ f j) → n ≤ total f n.
Proof.
  intros H. rewrite <- (Nat.mul_1_r n) at 1. rewrite <- (total_const 1).
  by apply total_le.
Qed.

Lemma total_count (P : nat → bool) (n : nat) :
  total (fun j => if P j then 1 else 0) n = count P n.
Proof. induction n as [|n IH]; simpl; lia. Qed.

(** One index carries [x] more. *)
Lemma total_at (f : nat → nat) (n i x : nat) :
  i < n → total (fun j => f j + (if decide (j = i) then x else 0)) n = total f n + x.
Proof.
  induction n as [|n IH]; intros Hi; [lia|]. simpl.
  destruct (decide (n = i)) as [->|Hne].
  - rewrite (total_ext _ f); [lia|]. intros j Hj. rewrite decide_False; lia.
  - rewrite IH by lia. lia.
Qed.

Lemma total_lookup {A : Type} (f : A → nat) (l : list A) :
  total (fun i => from_option f 0 (l !! i)) (length l) = sum_list_with f l.
Proof.
  induction l as [|x l IH] using rev_ind; [done|].
  rewrite length_app, sum_list_with_app. simpl.
  rewrite Nat.add_1_r. simpl. rewrite <- IH. f_equal.
  - apply total_ext. intros j Hj. by rewrite lookup_app_l.
  - rewrite lookup_app_r, Nat.sub_diag by lia. simpl. lia.
Qed.

(** ** Counting the events of a trace *)

(** The responses of the trace, each weighed by [h]. *)
Definition responses (h : response → nat) (tr : list io) : nat :=
  sum_list_with (fun e => match e with Resp _ r => h r | _ => 0 end) tr.

(** The responses received, those that returned and those that carried a
    result. *)
Definition responded (tr : list io) : nat := responses (fun _ => 1) tr.

Definition returned (tr : list io) : nat :=
  responses (fun r => match r with Returned _ => 1 | Threw => 0 end) tr.

Definition answered (tr : list io) : nat :=
  responses (fun r => if failing r then 0 else 1) tr.

(** The events of a trace belong to the tasks below [n]. *)
Definition within (n : nat) (tr : list io) : Prop :=
  ∀ j, n ≤ j → calls j tr = [] ∧ resps j tr = [].

Lemma within_cons (n : nat) (e : io) (tr : list io) :
  within n (e :: tr) →
  within n tr ∧
  match e with
  | Call j _ | Resp j _ => j < n
  | _ => True
  end.
Proof.
  intros H. split.
  - intros j Hj. destruct (H j Hj) as [Hc Hr]. unfold calls, resps in *.
    simpl in Hc, Hr.
    destruct (call_of j e), (resp_of j e); simplify_eq; done.
  - destruct e as [j c|j r| |]; try done.
    + destruct (decide (j < n)) as [|Hge]; [done|].
      destruct (H j ltac:(lia)) as [Hc _]. unfold calls in Hc. simpl in Hc.
      by rewrite decide_True in Hc.
    + destruct (decide (j < n)) as [|Hge]; [done|].
      destruct (H j ltac:(lia)) as [_ Hr]. unfold resps in Hr. simpl in Hr.
      by rewrite decide_True in Hr.
Qed.

(** The calls of a trace are the calls of its tasks. *)
Lemma called_total (n : nat) (tr : list io) :
  within n tr → called tr = total (fun i => length (calls i tr)) n.
Proof.
  induction tr as [|e tr IH]; intros H.
  - simpl. by rewrite total_const.
  - apply within_cons in H as [H He]. specialize (IH H). unfold called in *.
    destruct e as [j c|j r|j ms|a b c d]; simpl; rewrite IH.
    + transitivity (total (fun i => length (calls i tr)) n + 1); [lia|].
      rewrite <- (total_at _ n j 1 He). apply total_ext. intros i Hi.
      unfold calls. simpl.
      destruct (decide (i = j)) as [->|Hne].
      * rewrite decide_True by done. simpl. lia.
      * rewrite decide_False by done. lia.
    + apply total_ext. intros i Hi. unfold calls. simpl. done.
    + done.
    + done.
Qed.

Lemma responses_total (h : response → nat) (n : nat) (tr : list io) :
  within n tr →
  responses h tr = total (fun i => sum_list_with h (resps i tr)) n.
Proof.
  induction tr as [|e tr IH]; intros H.
  - unfold responses. simpl. by rewrite total_const.
  - apply within_cons in H as [H He]. specialize (IH H). unfold responses in *.
    destruct e as [j c|j r|j ms|a b c d]; simpl; rewrite IH; try done.
    transitivity (total (fun i => sum_list_with h (resps i tr)) n + h r); [lia|].
    rewrite <- (total_at _ n j (h r) He). apply total_ext.
    intros i Hi. unfold resps. simpl.
    destruct (decide (i = j)) as [->|Hne].
    + rewrite decide_True by done. simpl. lia.
    + rewrite decide_False by done. lia.
Qed.

Lemma within_run (keyed : bool) (raw : catalog) (cache0 : gmap string coord)
    (evs : list sched) (st : state) :
  run keyed raw cache0 evs = Some st → within (length (build raw).2) (trace st).
Proof.
  intros He.
  cut (inv keyed (build raw).2 cache0 st ∧ within (length (build raw).2) (trace st));
    [tauto|].
  eapply (exec_invariant keyed (build raw).2
            (fun s => inv keyed (build raw).2 cache0 s ∧
                      within (length (build raw).2) (trace s)));
    [| | exact He].
  - split; [|done]. apply inv_init; [apply build_ready | apply build_empty].
  - intros e s s' [I Hw] Hs. split; [by eapply inv_step|].
    destruct (step_turn _ _ _ _ _ (inv_out _ _ _ _ I) Hs) as (i & w & Ht).
    destruct (turn_turned _ _ _ _ _ _ _ I Ht) as (p & p' & kd & Hd).
    intros j Hj.
    pose proof (td_index _ _ _ _ _ _ _ _ _ Hd) as Hi.
    destruct (td_other _ _ _ _ _ _ _ _ _ Hd j ltac:(lia)) as (_ & -> & ->).
    by apply Hw.
Qed.

(** The task waits for the response to a call. *)
Definition awaiting (p : pc) : nat :=
  match p with
  | AwaitPrimary | AwaitFallback => 1
  | _ => 0
  end.

Lemma history_lengths (keyed : bool) (w : WorkItem) (p : pc)
    (cs : list call) (rs : list response) :
  history_ok keyed w p cs rs →
  length cs = length rs + awaiting p ∧ length cs ≤ 2.
Proof.
  destruct p; simpl; intros H; destruct_and?;
    repeat match goal with
           | H : ∃ _, _ |- _ => destruct H as (? & H)
           | H : _ ∨ _ |- _ => destruct H as [H|H]
           | H : _ ∧ _ |- _ => destruct H as [? H]
           end; subst; simpl; lia.
Qed.

Section Accounts.

Variable keyed : bool.
Variable work : list WorkItem.
Variable cache0 : gmap string coord.
Variable st : state.

Hypothesis I : inv keyed work cache0 st.

Lemma task_at (i : nat) :
  i < length work →
  ∃ w p, work !! i = Some w ∧ tasks st !! i = Some p ∧
         history_ok keyed w p (calls i (trace st)) (resps i (trace st)).
Proof.
  intros Hi.
  destruct (lookup_lt_is_Some_2 work i Hi) as [w Hw].
  destruct (lookup_lt_is_Some_2 (tasks st) i) as [p Hp];
    [by rewrite (inv_len _ _ _ _ I)|].
  exists w, p. repeat split; [done..|]. by apply (inv_hist _ _ _ _ I).
Qed.

(** A settled task is a hit, a miss or a task that received a result, and
    only one of them. *)
Lemma settled_split (i : nat) :
  i < length work →
  (if hit_at st i then 1 else 0) + (if missed_at st i then 1 else 0)
  ≤ (if settled_at st i then 1 else 0) ∧
  (if settled_at st i then 1 else 0)
  ≤ (if hit_at st i then 1 else 0) + (if missed_at st i then 1 else 0)
    + sum_list_with (fun r => if failing r then 0 else 1) (resps i (trace st)) ∧
  (settled_at st i = true →
   (if hit_at st i then 1 else 0) + (if missed_at st i then 1 else 0)
   + sum_list_with (fun r => if failing r then 0 else 1) (resps i (trace st))
   = 1).
Proof.
  intros Hi.
  destruct (task_at i Hi) as (w & p & Hwi & Hp & Hh).
  unfold hit_at, missed_at, settled_at. rewrite Hp.
  destruct p; simpl in *; try (split; [lia|split; [lia|done]]).
  destruct Hh as [[-> ->]|[[-> (g & ->)]|[-> (r1 & r2 & -> & Hf)]]]; simpl;
    rewrite ?Hf; simpl; try (split; [lia|split; [lia|done]]).
  destruct (failing r2); simpl; (split; [lia|split; [lia|done]]).
Qed.

Lemma hits_and_misses : hits st + misses st ≤ processed st.
Proof.
  rewrite (inv_hits _ _ _ _ I), (inv_misses _ _ _ _ I), (inv_processed _ _ _ _ I).
  rewrite <- !total_count, <- !total_add.
  apply total_le. intros i Hi. by apply settled_split.
Qed.

Lemma processed_le : processed st ≤ length work.
Proof.
  rewrite (inv_processed _ _ _ _ I), <- total_count.
  apply total_upper. intros i Hi. destruct (settled_at st i); lia.
Qed.

Hypothesis Hw : within (length work) (trace st).

Lemma in_flight :
  called (trace st) = responded (trace st) + sum_list_with awaiting (tasks st).
Proof.
  rewrite (called_total _ _ Hw). unfold responded.
  rewrite (responses_total _ _ _ Hw), <- total_lookup, (inv_len _ _ _ _ I).
  rewrite <- total_add. apply total_ext. intros i Hi.
  destruct (task_at i Hi) as (w & p & _ & -> & Hh). simpl.
  apply history_lengths in Hh as [-> _].
  induction (resps i (trace st)); simpl; lia.
Qed.

Lemma awaiting_le_pending : sum_list_with awaiting (tasks st) ≤ pending st.
Proof.
  unfold pending. induction (tasks st) as [|p ts IH]; simpl; [done|].
  assert (awaiting p ≤ running p) by (destruct p; cbv; lia). lia.
Qed.

End Accounts.

(** X4: at every moment of a run the provider calls made exceed the
    responses received by the number of tasks that wait for a response,
    which the queue keeps within its concurrency: at most six calls are in
    flight with a key, at most one without. *)
Theorem requests_in_flight (keyed : bool) (raw : catalog)
    (cache0 : gmap string coord) (evs : list sched) (st : state) :
  run keyed raw cache0 evs = Some st →
  called (trace st) = responded (trace st) + sum_list_with awaiting (tasks st) ∧
  sum_list_with awaiting (tasks st) ≤ concurrency keyed ∧
  called (trace st) ≤ responded (trace st) + (if keyed then 6 else 1).
Proof.
  intros He. pose proof (inv_run _ _ _ _ _ He) as I.
  pose proof (in_flight _ _ _ _ I (within_run _ _ _ _ _ He)) as E.
  pose proof (awaiting_le_pending st) as Hle.
  pose proof (inv_pending _ _ _ _ I) as Hp.
  split; [done|]. split; [lia|]. unfold concurrency in Hp. lia.
Qed.

Lemma requests_in_flight_witness :
  ∃ st,
    run true berlin_twice first_run [Start; Start] = Some st ∧
    called (trace st) = 2 ∧ responded (trace st) = 0 ∧
    called (trace st) ≤ responded (trace st) + 6.
Proof.
  eexists. split; [vm_compute; reflexivity|].
  split; [vm_compute; reflexivity|]. split; [vm_compute; reflexivity|].
  destruct (requests_in_flight true berlin_twice first_run [Start; Start] _
              ltac:(vm_compute; reflexivity)) as (_ & _ & H).
  exact H.
Defined.

(** X7: the task of a work item whose key is in the loaded cache makes no
    provider call, and no task makes more than two; in a finished run a
    task has made no call only if its key was in the loaded cache or the
    task of another work item with the same key had received a result.
    So a run makes at most two calls for each work item whose key was not
    loaded, and a finished run at least one and at most two for each work
    item that was not a cache hit. *)
Theorem request_budget (keyed : bool) (raw : catalog)
    (cache0 : gmap string coord) (evs : list sched) (st : state) :
  run keyed raw cache0 evs = Some st →
  (∀ i w, (build raw).2 !! i = Some w →
     (is_Some (cache0 !! w_k w) → calls i (trace st) = []) ∧
     length (calls i (trace st)) ≤ 2 ∧
     (finished st = true → calls i (trace st) = [] →
      is_Some (cache0 !! w_k w) ∨
      ∃ j w' g, j ≠ i ∧ (build raw).2 !! j = Some w' ∧ w_k w' = w_k w ∧
                Resp j (Returned (Some g)) ∈ trace st)) ∧
  called (trace st) + 2 * prepopulated cache0 (build raw).2
  ≤ 2 * length (build raw).2 ∧
  (finished st = true →
   length (build raw).2 ≤ called (trace st) + hits st ∧
   called (trace st) + 2 * hits st ≤ 2 * length (build raw).2).
Proof.
  intros He. pose proof (inv_run _ _ _ _ _ He) as I.
  pose proof (within_run _ _ _ _ _ He) as Hw.
  split.
  { intros i w Hwi.
    assert (i < length (build raw).2) as Hi by by eapply lookup_lt_Some.
    destruct (task_at _ _ _ _ I i Hi) as (w0 & p & Hw0 & Hp & Hh).
    split; [|split].
    - intros [c Hc].
      destruct (calls i (trace st)) as [|c1 cs] eqn:E; [done|].
      rewrite (inv_called _ _ _ _ I i w Hwi) in Hc; [done|]. by rewrite E.
    - apply history_lengths in Hh. lia.
    - intros Hfin Hc.
      destruct (silent_task keyed raw cache0 evs st i w He Hwi
                  (fin_settled _ _ _ I Hfin i Hi) Hc)
        as [?|(j & w' & g & Hne & Hw' & Hk & Hlast)]; [by left|].
      right. exists j, w', g. repeat split; try done.
      apply resp_in_trace. by apply last_elem. }
  rewrite (called_total _ _ Hw). split.
  - unfold prepopulated.
    rewrite <- (count_lookup (cached cache0)), <- total_count.
    rewrite total_scale, <- total_add.
    apply total_bound. intros i Hi.
    destruct (task_at _ _ _ _ I i Hi) as (w & p & Hwi & Hp & Hh).
    rewrite Hwi. simpl. unfold cached.
    destruct (cache0 !! w_k w) as [c|] eqn:Hc.
    + destruct (calls i (trace st)) as [|c1 cs] eqn:E; [simpl; lia|].
      rewrite (inv_called _ _ _ _ I i w Hwi) in Hc; [done|]. by rewrite E.
    + apply history_lengths in Hh. lia.
  - intros Hfin. rewrite (fin_hits _ _ _ I Hfin), <- total_count.
    split.
    + rewrite <- total_add. apply total_lower. intros i Hi.
      destruct (calls i (trace st)); simpl; lia.
    + rewrite total_scale, <- total_add.
      apply total_bound. intros i Hi.
      destruct (task_at _ _ _ _ I i Hi) as (w & p & Hwi & Hp & Hh).
      apply history_lengths in Hh as [_ Hle].
      destruct (calls i (trace st)) as [|c1 [|c2 cs]]; simpl in *; lia.
Qed.

Lemma request_budget_witness :
  ∃ st,
    run false two_cities berlin_cached bonn_missed = Some st ∧
    calls 0 (trace st) = [] ∧
    length (calls 1 (trace st)) ≤ 2 ∧
    called (trace st) = 2 ∧
    called (trace st) + 2 * prepopulated berlin_cached (build two_cities).2
    ≤ 2 * length (build two_cities).2.
Proof.
  eexists. split; [vm_compute; reflexivity|].
  destruct (request_budget false two_cities berlin_cached bonn_missed _
              ltac:(vm_compute; reflexivity)) as (H1 & H2 & _).
  split; [|split; [|split; [vm_compute; reflexivity | exact H2]]].
  - apply (H1 0 (Item "Germany" "Berlin" "Germany::Berlin"));
      [vm_compute; reflexivity | by eexists].
  - apply (H1 1 (Item "Germany" "Bonn" "Germany::Bonn")). vm_compute. reflexivity.
Defined.



(** X9: at every moment hits + misses <= processed <= allCities, and the
    processed tasks beyond the hits and the misses are covered by the
    responses that carried a result; when the run has finished, every work
    item is accounted for exactly once: allCities = processed = hits +
    misses + the number of responses that carried a result. *)
Theorem counters_add_up (keyed : bool) (raw : catalog)
    (cache0 : gmap string coord) (evs : list sched) (st : state) :
  run keyed raw cache0 evs = Some st →
  hits st + misses st ≤ processed st ∧
  processed st ≤ hits st + misses st + answered (trace st) ∧
  processed st ≤ length (build raw).2 ∧
  (finished st = true →
   processed st = length (build raw).2 ∧
   hits st + misses st + answered (trace st) = length (build raw).2).
Proof.
  intros He. pose proof (inv_run _ _ _ _ _ He) as I.
  pose proof (within_run _ _ _ _ _ He) as Hw.
  pose proof (settled_split _ _ _ _ I) as Hpt.
  split; [by eapply hits_and_misses|].
  split; [|split; [by eapply processed_le|]].
  - rewrite (inv_hits _ _ _ _ I), (inv_misses _ _ _ _ I), (inv_processed _ _ _ _ I).
    unfold answered. rewrite (responses_total _ _ _ Hw).
    rewrite <- !total_count, <- !total_add.
    apply total_le. intros i Hi. by apply Hpt.
  - intros Hfin. split; [by apply (fin_processed _ _ _ I Hfin)|].
    rewrite (inv_hits _ _ _ _ I), (inv_misses _ _ _ _ I).
    unfold answered. rewrite (responses_total _ _ _ Hw).
    rewrite <- !total_count, <- !total_add.
    assert (∀ i, i < length (build raw).2 → settled_at st i = true) as Hall.
    { intros i Hi. unfold settled_at. by rewrite (fin_settled _ _ _ I Hfin i Hi). }
    apply Nat.le_antisymm.
    + apply total_upper. intros i Hi. rewrite (proj2 (proj2 (Hpt i Hi))); auto.
    + apply total_lower. intros i Hi. rewrite (proj2 (proj2 (Hpt i Hi))); auto.
Qed.

Lemma counters_add_up_witness :
  ∃ st,
    run false two_cities berlin_cached bonn_missed = Some st ∧
    (hits st, misses st, answered (trace st)) = (1, 1, 0) ∧
    hits st + misses st + answered (trace st) = length (build two_cities).2.
Proof.
  eexists. split; [vm_compute; reflexivity|].
  split; [vm_compute; reflexivity|].
  destruct (counters_add_up false two_cities berlin_cached bonn_missed _
              ltac:(vm_compute; reflexivity)) as (_ & _ & _ & H).
  apply H. vm_compute. reflexivity.
Defined.

(** ** What one turn writes to the trace *)

Section Emits.

Variable keyed : bool.
Variable work : list WorkItem.

(** The provider traffic of one turn of task [i], in order. *)
Inductive emits (i : nat) : list io → Prop :=
  | E_none : emits i []
  | E_call c : emits i [Call i c]
  | E_resp r : keyed = true ∨ r = Threw → emits i [Resp i r]
  | E_resp_call r c : keyed = true ∨ r = Threw → emits i [Resp i r; Call i c]
  | E_resp_sleep res :
      keyed = false → emits i [Resp i (Returned res); Sleep i 1100].

(** The progress line printed when the counter goes from [k] to [k'], if
    any: lines 113-115 and 146-148. *)
Definition line (k k' h m : nat) : list io :=
  if (k' =? S k) && ((k' mod 10 =? 0) || (k' =? length work))
  then [Progress k' (length work) h m]
  else [].

Definition progress_line (st st' : state) : list io :=
  line (processed st) (processed st') (hits st') (misses st').

Lemma tick_line (s : state) :
  trace (tick work s) = trace s ++ progress_line s (tick work s) ∧
  processed (tick work s) = S (processed s) ∧
  hits (tick work s) = hits s ∧ misses (tick work s) = misses s.
Proof.
  unfold tick, progress_line, line, allCities. cbv zeta.
  cbn [processed hits misses trace].
  destruct ((S (processed s) mod 10 =? 0) || (S (processed s) =? length work)) eqn:E;
    unfold emit; cbn [processed hits misses trace]; rewrite Nat.eqb_refl, E.
  - done.
  - by rewrite app_nil_r.
Qed.

Lemma no_line (k h m : nat) : line k k h m = [].
Proof. unfold line. by rewrite (proj2 (Nat.eqb_neq _ _)) by lia. Qed.

Arguments line : simpl never.

Ltac ticking :=
  match goal with
  | |- context [tick work ?s] =>
      let H1 := fresh "H1" in
      destruct (tick_line s) as (H1 & ? & ? & ?);
      unfold progress_line in H1;
      generalize dependent (tick work s); intros; cbn in *
  end.

Ltac emitted :=
  unfold progress_line; cbn;
  repeat match goal with H : _ = _ |- _ => rewrite H end;
  rewrite ?no_line, <- ?app_assoc; cbn;
  first
    [ solve [exists []; (split; [|split; [reflexivity|auto]]); constructor; auto]
    | solve [eexists [_]; (split; [|split; [reflexivity|auto]]); constructor; auto]
    | solve [eexists [_; _]; (split; [|split; [reflexivity|auto]]);
             constructor; auto] ].

Lemma step_emits (e : sched) (st st' : state) :
  out_ready work st → step keyed work e st = Some st' →
  ∃ i body, emits i body ∧
    trace st' = trace st ++ body ++ progress_line st st' ∧
    (processed st' = processed st ∨ processed st' = S (processed st)).
Proof.
  intros Hout Hstep. destruct e as [|i r|i]; simpl in Hstep.
  - case_decide; [|done].
    destruct (next_queued (tasks st)) as [i|] eqn:Hq; [|done]. simpl in Hstep.
    destruct (work !! i) as [w|] eqn:Hw; [|done]. simpl in Hstep. simplify_eq.
    clear Hq. exists i. unfold begin.
    destruct (Hout w) as [l Hl]; [by eapply list_elem_of_lookup_2|].
    clear Hout Hw.
    destruct (cache st !! w_k w) as [c|] eqn:Hc; clear Hc;
      unfold push; rewrite ?Hl; clear Hl; cbn; try ticking; emitted.
  - destruct (work !! i) as [w|] eqn:Hw; [|done]. simpl in Hstep.
    destruct (tasks st !! i) as [p|] eqn:Hp; [|done]. simpl in Hstep.
    destruct (Hout w) as [l Hl]; [by eapply list_elem_of_lookup_2|].
    clear Hout Hw Hp. exists i.
    destruct p; simplify_eq;
      unfold primary_done, fallback_done, after_primary, settle, push;
      destruct r as [[g|]|], keyed eqn:Hk; cbn; rewrite ?Hl; clear Hl; cbn;
      try ticking; emitted.
  - destruct (work !! i) as [w|] eqn:Hw; [|done]. simpl in Hstep.
    destruct (tasks st !! i) as [p|] eqn:Hp; [|done]. simpl in Hstep.
    destruct (Hout w) as [l Hl]; [by eapply list_elem_of_lookup_2|].
    clear Hout Hw Hp. exists i.
    destruct p as [| |res| |res|]; simplify_eq;
      unfold after_primary, settle, push;
      destruct res as [g|]; cbn; rewrite ?Hl; clear Hl; cbn;
      try ticking; emitted.
Qed.

End Emits.

Arguments line : simpl never.

Lemma line_cases (work : list WorkItem) (k k' h m : nat) :
  line work k k' h m = [] ∨ line work k k' h m = [Progress k' (length work) h m].
Proof.
  unfold line. destruct (_ && _); auto.
Qed.

Lemma slept_app (tr tr' : list io) : slept (tr ++ tr') = slept tr + slept tr'.
Proof. apply sum_list_with_app. Qed.

Lemma responses_app (h : response → nat) (tr tr' : list io) :
  responses h (tr ++ tr') = responses h tr + responses h tr'.
Proof. apply sum_list_with_app. Qed.

(** X5: with a key the run never sleeps; without one the time it has
    spent in [sleep] is exactly 1100 ms for each provider call that has
    returned, with a result or with none.  A call that threw adds nothing. *)
Theorem sleep_time_exact (keyed : bool) (raw : catalog)
    (cache0 : gmap string coord) (evs : list sched) (st : state) :
  run keyed raw cache0 evs = Some st →
  slept (trace st) = if keyed then 0 else 1100 * returned (trace st).
Proof.
  apply (run_step keyed raw cache0
           (fun s => slept (trace s) = if keyed then 0 else 1100 * returned (trace s))).
  - simpl. by destruct keyed.
  - intros e s s' I _ IH Hs.
    destruct (step_emits _ _ _ _ _ (inv_out _ _ _ _ I) Hs) as (i & body & Hb & -> & _).
    unfold returned in *. rewrite !slept_app, !responses_app, IH.
    unfold progress_line.
    assert (slept (line (build raw).2 (processed s) (processed s')
                        (hits s') (misses s')) = 0 ∧
            responses (fun r => match r with Returned _ => 1 | Threw => 0 end)
                      (line (build raw).2 (processed s) (processed s')
                            (hits s') (misses s')) = 0) as [-> ->].
    { by destruct (line_cases (build raw).2 (processed s) (processed s')
                     (hits s') (misses s')) as [-> | ->]. }
    unfold slept, responses.
    destruct Hb as [|c|r [Hk|Hr]|r c [Hk|Hr]|res Hk]; subst;
      cbn [sum_list_with]; try lia.
    all: destruct keyed; lia.
Qed.

Lemma sleep_time_exact_witness :
  ∃ st,
    run false two_cities berlin_cached bonn_missed = Some st ∧
    returned (trace st) = 1 ∧ slept (trace st) = 1100.
Proof.
  eexists. split; [vm_compute; reflexivity|].
  split; [vm_compute; reflexivity|].
  rewrite (sleep_time_exact false two_cities berlin_cached bonn_missed);
    vm_compute; reflexivity.
Defined.

(** The [processed] counts of the progress lines of a trace, in order. *)
Definition logged (tr : list io) : list nat :=
  omap (fun e => match e with Progress a _ _ _ => Some a | _ => None end) tr.

Lemma logged_line (work : list WorkItem) (k h m : nat) :
  logged (line work k (S k) h m)
  = filter (fun a => a mod 10 = 0 ∨ a = length work) [S k].
Proof.
  unfold line. rewrite Nat.eqb_refl, andb_true_l, filter_cons, filter_nil.
  destruct ((S k mod 10 =? 0) || (S k =? length work)) eqn:E.
  - apply orb_true_iff in E. rewrite !Nat.eqb_eq in E.
    by rewrite decide_True by done.
  - apply orb_false_iff in E. rewrite !Nat.eqb_neq in E.
    by rewrite decide_False by tauto.
Qed.

Lemma logged_emits (keyed : bool) (i : nat) (body : list io) :
  emits keyed i body → logged body = [] ∧ ∀ a b c d, Progress a b c d ∉ body.
Proof.
  destruct 1; (split; [done|]); intros a b c' d Hin;
    repeat (apply elem_of_cons in Hin as [Hin|Hin]; [discriminate Hin|]);
    by apply elem_of_nil in Hin.
Qed.

(** X13: the progress lines of a run report, in this order, exactly the
    values of [processed] from 1 on that are a multiple of ten or equal to
    [allCities]; every line shows [allCities] and counters with hits +
    misses <= processed; and the trace of a finished run over a non-empty
    work list ends with the line for [allCities], which carries the final
    hit and miss counts. *)
Theorem progress_lines (keyed : bool) (raw : catalog)
    (cache0 : gmap string coord) (evs : list sched) (st : state) :
  run keyed raw cache0 evs = Some st →
  logged (trace st)
  = filter (fun a => a mod 10 = 0 ∨ a = length (build raw).2)
           (seq 1 (processed st)) ∧
  (∀ a b c d, Progress a b c d ∈ trace st →
     b = length (build raw).2 ∧ c + d ≤ a ∧ a ≤ processed st) ∧
  (finished st = true → 0 < length (build raw).2 →
   last (trace st)
   = Some (Progress (length (build raw).2) (length (build raw).2)
                    (hits st) (misses st))).
Proof.
  apply (run_step keyed raw cache0
           (fun s =>
              logged (trace s)
              = filter (fun a => a mod 10 = 0 ∨ a = length (build raw).2)
                       (seq 1 (processed s)) ∧
              (∀ a b c d, Progress a b c d ∈ trace s →
                 b = length (build raw).2 ∧ c + d ≤ a ∧ a ≤ processed s) ∧
              (finished s = true → 0 < length (build raw).2 →
               last (trace s)
               = Some (Progress (length (build raw).2) (length (build raw).2)
                                (hits s) (misses s))))).
  - split; [done|]. split.
    + intros a b c d Hin. by apply elem_of_nil in Hin.
    + unfold start, init, finished. simpl. intros Hf Hn.
      destruct (length (build raw).2); [lia|]. done.
  - intros e s s' I I' (IH1 & IH2 & IH3) Hs.
    destruct (step_emits _ _ _ _ _ (inv_out _ _ _ _ I) Hs)
      as (i & body & Hb & Htr & Hproc).
    destruct (logged_emits _ _ _ Hb) as [Hlb Hnb].
    pose proof (hits_and_misses _ _ _ _ I') as Hle.
    unfold progress_line in Htr.
    split; [|split].
    + rewrite Htr. unfold logged in *. rewrite !omap_app, IH1, Hlb. simpl.
      destruct Hproc as [-> | ->].
      * by rewrite no_line, app_nil_r.
      * rewrite seq_S, filter_app. f_equal. apply logged_line.
    + intros a b c d Hin. rewrite Htr in Hin.
      apply elem_of_app in Hin as [Hin|Hin];
        [|apply elem_of_app in Hin as [Hin|Hin]].
      * destruct (IH2 a b c d Hin) as (? & ? & ?). repeat split; [done..|].
        destruct Hproc; lia.
      * by apply Hnb in Hin.
      * destruct (line_cases (build raw).2 (processed s) (processed s')
                    (hits s') (misses s')) as [E|E]; rewrite E in Hin.
        -- by apply elem_of_nil in Hin.
        -- apply list_elem_of_singleton in Hin. simplify_eq. repeat split; lia.
    + intros Hfin Hn.
      destruct (step_turn _ _ _ _ _ (inv_out _ _ _ _ I) Hs) as (j & w & Ht).
      destruct (turn_turned _ _ _ _ _ _ _ I Ht) as (p & p' & kd & Hd).
      pose proof (td_after _ _ _ _ _ _ _ _ _ Hd) as Ha.
      rewrite (fin_settled _ _ _ I' Hfin j (td_index _ _ _ _ _ _ _ _ _ Hd)) in Ha.
      injection Ha as <-.
      pose proof (td_outcome _ _ _ _ _ _ _ _ _ Hd) as Ho.
      pose proof (td_shared _ _ _ _ _ _ _ _ _ Hd) as Hsh.
      pose proof (fin_processed _ _ _ I' Hfin) as Hall.
      assert (processed s' = S (processed s)) as Hp'.
      { destruct kd; simpl in Ho, Hsh; destruct_and?; done. }
      rewrite Htr, !app_assoc. unfold line.
      rewrite Hp', Nat.eqb_refl, <- Hp', Hall, Nat.eqb_refl, orb_true_r. simpl.
      apply last_snoc.
Qed.

Lemma progress_lines_witness :
  ∃ st,
    run false two_cities berlin_cached bonn_missed = Some st ∧
    logged (trace st) = [2] ∧
    last (trace st) = Some (Progress 2 2 1 1).
Proof.
  eexists. split; [vm_compute; reflexivity|].
  destruct (progress_lines false two_cities berlin_cached bonn_missed _
              ltac:(vm_compute; reflexivity)) as (H1 & _ & H3).
  split.
  - rewrite H1. vm_compute. reflexivity.
  - rewrite H3; vm_compute; [reflexivity | reflexivity | lia].
Defined.

(** ** The order in which the queue starts the tasks *)

Lemma next_queued_first (ts : list pc) (i a : nat) :
  next_queued ts = Some i → a < i → ts !! a ≠ Some Queued.
Proof.
  revert i a. induction ts as [|p ts IH]; intros i a H Ha; [done|].
  destruct a as [|a]; simpl.
  - intros [= ->]. simpl in H. simplify_eq. lia.
  - assert (∃ j, next_queued ts = Some j ∧ i = S j) as (j & Hj & ->).
    { destruct p; simpl in H; try (simplify_eq; lia);
        destruct (next_queued ts) as [j|]; simplify_eq/=; eauto. }
    apply (IH j); [done | lia].
Qed.

Section Order.

Variable keyed : bool.
Variable work : list WorkItem.
Variable cache0 : gmap string coord.

(** The task an event is a turn of. *)
Lemma step_tasks (e : sched) (st st' : state) :
  out_ready work st → step keyed work e st = Some st' →
  ∃ j q, tasks st' = <[j := q]> (tasks st) ∧
    match e with
    | Start => next_queued (tasks st) = Some j
    | Respond k _ | Wake k => j = k ∧ tasks st !! k ≠ Some Queued
    end.
Proof.
  intros Hout Hstep. destruct e as [|i r|i]; simpl in Hstep.
  - case_decide; [|done].
    destruct (next_queued (tasks st)) as [i|] eqn:Hq; [|done]. simpl in Hstep.
    destruct (work !! i) as [w|] eqn:Hw; [|done]. simpl in Hstep. simplify_eq.
    exists i. unfold begin.
    destruct (Hout w) as [l Hl]; [by eapply list_elem_of_lookup_2|].
    destruct (cache st !! w_k w) as [c|]; unfold push; rewrite ?Hl; cbn.
    + destruct (tick_spec work
                  (State (cache st)
                         (<[w_country w := l ++ [Entry (w_city w) (cache st !! w_k w)]]>
                            (out st))
                         (processed st) (S (hits st)) (misses st) (tasks st)
                         (trace st) (rejected st)))
        as (new & _ & _ & _ & _ & _ & _ & _ & _ & _ & Ht & _).
      cbn in Ht. unfold count_hit. cbn. rewrite Ht. eauto.
    + eauto.
  - destruct (work !! i) as [w|] eqn:Hw; [|done]. simpl in Hstep.
    destruct (tasks st !! i) as [p|] eqn:Hp; [|done]. simpl in Hstep.
    destruct (Hout w) as [l Hl]; [by eapply list_elem_of_lookup_2|].
    exists i.
    destruct p; simplify_eq;
      unfold primary_done, fallback_done, after_primary, settle, push;
      destruct r as [[g|]|], keyed; cbn; rewrite ?Hl; cbn;
      try match goal with
          | |- context [tick work ?s] =>
              destruct (tick_spec work s)
                as (new & _ & _ & _ & _ & _ & _ & _ & _ & _ & Ht & _);
              cbn in Ht; rewrite Ht
          end;
      eexists; (split; [reflexivity|]); split; congruence.
  - destruct (work !! i) as [w|] eqn:Hw; [|done]. simpl in Hstep.
    destruct (tasks st !! i) as [p|] eqn:Hp; [|done]. simpl in Hstep.
    destruct (Hout w) as [l Hl]; [by eapply list_elem_of_lookup_2|].
    exists i.
    destruct p as [| |res| |res|]; simplify_eq;
      unfold after_primary, settle, push;
      destruct res as [g|]; cbn; rewrite ?Hl; cbn;
      try match goal with
          | |- context [tick work ?s] =>
              destruct (tick_spec work s)
                as (new & _ & _ & _ & _ & _ & _ & _ & _ & _ & Ht & _);
              cbn in Ht; rewrite Ht
          end;
      eexists; (split; [reflexivity|]); split; congruence.
Qed.

(** A turn that starts a task is a turn of the first queued task. *)
Lemma turned_start (e : sched) (i : nat) (w : WorkItem) (p' : pc) (kd : kind)
    (st st' : state) :
  out_ready work st → step keyed work e st = Some st' →
  turned keyed work i w Queued p' kd st st' →
  next_queued (tasks st) = Some i.
Proof.
  intros Hout Hs T.
  destruct (step_tasks e st st' Hout Hs) as (j & q & Ht & He).
  pose proof (td_before _ _ _ _ _ _ _ _ _ T) as Hb.
  pose proof (td_after _ _ _ _ _ _ _ _ _ T) as Ha.
  destruct (td_local _ _ _ _ _ _ _ _ _ T) as (cs & rs & Hl).
  apply local_weight in Hl.
  assert (i = j) as <-.
  { destruct (decide (i = j)) as [|Hne]; [done|].
    rewrite Ht, list_lookup_insert_ne, Hb in Ha by done.
    injection Ha as <-. simpl in Hl. lia. }
  destruct e as [|k r|k]; [done|..]; destruct He as [-> Hk]; congruence.
Qed.

(** Every task after one that has not returned is still queued. *)
Definition fifo (st : state) : Prop :=
  ∀ a b p, a < b → b < length (tasks st) →
    tasks st !! a = Some p → p ≠ Settled → tasks st !! b = Some Queued.

Lemma idle_tasks (st : state) (a : nat) (p : pc) :
  pending st = 0 → tasks st !! a = Some p → is_active p = false.
Proof.
  intros H0 Ha. pose proof (sum_lookup_le running _ _ _ Ha) as Hle.
  unfold pending in H0. rewrite H0 in Hle. unfold running in Hle.
  destruct (is_active p); [lia|done].
Qed.

Lemma fifo_turn (e : sched) (i : nat) (w : WorkItem) (p p' : pc) (kd : kind)
    (st st' : state) :
  out_ready work st → step keyed work e st = Some st' →
  turned keyed work i w p p' kd st st' →
  (p = Queued → pending st = 0) →
  fifo st → fifo st'.
Proof.
  intros Hout Hs T Hidle F a b q Hab Hb Ha Hq.
  pose proof (td_tasks _ _ _ _ _ _ _ _ _ T) as Ht.
  pose proof (td_before _ _ _ _ _ _ _ _ _ T) as Hbef.
  pose proof (p_not_settled _ _ T) as Hns.
  rewrite Ht, length_insert in Hb. rewrite Ht in Ha |- *.
  destruct (decide (a = i)) as [->|Hai].
  - rewrite list_lookup_insert_ne by lia. by eapply (F i b p).
  - rewrite list_lookup_insert_ne in Ha by done.
    pose proof (F a b q Hab Hb Ha Hq) as Hqb.
    destruct (decide (b = i)) as [->|Hbi]; [|by rewrite list_lookup_insert_ne].
    exfalso. rewrite Hbef in Hqb. injection Hqb as ->.
    pose proof (turned_start e i w p' kd st st' Hout Hs T) as Hfirst.
    pose proof (idle_tasks st a q (Hidle eq_refl) Ha) as Hact.
    destruct q; simpl in Hact; try done.
    by eapply next_queued_first.
Qed.

Lemma fifo_init (out0 : gmap string (list entry)) : fifo (init work out0 cache0).
Proof.
  intros a b p Hab Hb _ _. simpl in *. rewrite length_replicate in Hb.
  by apply lookup_replicate_2.
Qed.

End Order.

(** ** The names in the output *)

Section Seq.

Context {A : Type}.

Lemma omap_seq_ext (f g : nat → option A) (n : nat) :
  (∀ j, j < n → g j = f j) → omap g (seq 0 n) = omap f (seq 0 n).
Proof.
  induction n as [|n IH]; intros H; [done|].
  rewrite seq_S, !omap_app, IH by (intros; apply H; lia). simpl.
  by rewrite (H n) by lia.
Qed.

Lemma omap_seq_set (f g : nat → option A) (n i : nat) (x : A) :
  i < n → (∀ j, j < n → j ≠ i → g j = f j) → f i = None → g i = Some x →
  omap g (seq 0 n) ≡ₚ x :: omap f (seq 0 n).
Proof.
  induction n as [|n IH]; intros Hi H Hf Hg; [lia|].
  rewrite seq_S, !omap_app. simpl.
  destruct (decide (i = n)) as [->|Hne].
  - rewrite Hf, Hg, (omap_seq_ext f g) by (intros; apply H; lia). simpl.
    rewrite app_nil_r. symmetry. apply Permutation_cons_append.
  - rewrite (H n) by lia. rewrite IH; [done | lia | | done..].
    intros; apply H; lia.
Qed.

Lemma omap_seq_snoc (f g : nat → option A) (n i : nat) (x : A) :
  i < n → (∀ j, j < n → j ≠ i → g j = f j) → f i = None → g i = Some x →
  (∀ j, i < j → j < n → f j = None) →
  omap g (seq 0 n) = omap f (seq 0 n) ++ [x].
Proof.
  induction n as [|n IH]; intros Hi H Hf Hg Hlast; [lia|].
  rewrite seq_S, !omap_app. simpl.
  destruct (decide (i = n)) as [->|Hne].
  - rewrite Hf, Hg, (omap_seq_ext f g) by (intros; apply H; lia). simpl.
    by rewrite app_nil_r.
  - rewrite (H n), (Hlast n) by lia. simpl. rewrite !app_nil_r.
    apply IH; [lia | | done.. |]; intros; [apply H | apply Hlast]; lia.
Qed.

End Seq.

Section Names.

Variable keyed : bool.
Variable work : list WorkItem.
Variable cache0 : gmap string coord.

(** The city of work item [i], when its task has returned without a miss
    and its country is [c]. *)
Definition pushed_at (st : state) (c : string) (i : nat) : option string :=
  match work !! i with
  | Some w =>
      if settled_at st i && negb (missed (resps i (trace st)))
         && bool_decide (w_country w = c)
      then Some (w_city w)
      else None
  | None => None
  end.

(** The cities of the work items of country [c] whose tasks have returned
    without a miss, in the order of the work list. *)
Definition kept (st : state) (c : string) : list string :=
  omap (pushed_at st c) (seq 0 (length work)).

(** The turn appends an entry to an output array. *)
Definition pushing (kd : kind) : bool :=
  match kd with
  | HitK _ | ResolveK _ => true
  | _ => false
  end.

Section Turn.

Context {i : nat} {w : WorkItem} {p p' : pc} {kd : kind} {st st' : state}.
Hypothesis T : turned keyed work i w p p' kd st st'.

Lemma pushed_other (c : string) (j : nat) :
  j ≠ i → pushed_at st' c j = pushed_at st c j.
Proof.
  intros Hj. unfold pushed_at, settled_at.
  by destruct (td_other _ _ _ _ _ _ _ _ _ T j Hj) as (-> & _ & ->).
Qed.

Lemma pushed_before (c : string) : pushed_at st c i = None.
Proof.
  unfold pushed_at. rewrite (settled_before _ _ T). by destruct (work !! i).
Qed.

Lemma pushed_after (c : string) :
  pushed_at st' c i
  = if pushing kd && bool_decide (w_country w = c) then Some (w_city w) else None.
Proof.
  unfold pushed_at. rewrite (td_item _ _ _ _ _ _ _ _ _ T), (settled_after _ _ T).
  pose proof (td_outcome _ _ _ _ _ _ _ _ _ T) as Ho.
  destruct kd; simpl in Ho; destruct_and?; subst; simpl;
    repeat match goal with
           | H : resps _ _ = _ |- _ => rewrite H
           | H : missed _ = _ |- _ => rewrite H
           end; simpl; try done.
  all: by destruct p'.
Qed.

(** What a turn does to an output array and to the list of kept cities. *)
Lemma out_turn (c : string) (l' : list entry) :
  out st' !! c = Some l' →
  ∃ l, out st !! c = Some l ∧
    ((l' = l ∧ pushed_at st' c i = None) ∨
     (∃ e, l' = l ++ [e] ∧ e_name e = w_city w ∧
           pushed_at st' c i = Some (w_city w))).
Proof.
  intros Hl'. rewrite pushed_after.
  pose proof (td_shared _ _ _ _ _ _ _ _ _ T) as Hsh.
  destruct kd as [| |c0|g|]; simpl in Hsh; destruct_and?;
    repeat match goal with
           | H : ∃ _, _ |- _ => destruct H as (l0 & Hl0 & Ho)
           end;
    try (exists l'; split; [congruence|]; left; by split).
  all: rewrite Ho in Hl'; simpl; destruct (decide (w_country w = c)) as [<-|Hne];
    [ rewrite lookup_insert_eq in Hl'; simplify_eq; exists l0; split; [done|];
      right; eexists; split; [done|]; split; [done|];
      by rewrite bool_decide_eq_true_2
    | rewrite lookup_insert_ne in Hl' by done; exists l'; split; [done|];
      left; split; [done|]; by rewrite bool_decide_eq_false_2 ].
Qed.

Lemma kept_same (c : string) :
  pushed_at st' c i = None → kept st' c = kept st c.
Proof.
  intros H. unfold kept. apply omap_seq_ext. intros j Hj.
  destruct (decide (j = i)) as [->|Hne]; [|by apply pushed_other].
  by rewrite H, pushed_before.
Qed.

Lemma kept_perm (c : string) (x : string) :
  pushed_at st' c i = Some x → kept st' c ≡ₚ x :: kept st c.
Proof.
  intros H. unfold kept.
  apply (omap_seq_set _ _ _ i); [apply T | | apply pushed_before | done].
  intros j _ Hj. by apply pushed_other.
Qed.

Lemma kept_snoc (c : string) (x : string) :
  fifo st → length (tasks st) = length work →
  pushed_at st' c i = Some x → kept st' c = kept st c ++ [x].
Proof.
  intros F Hlen H. unfold kept.
  apply (omap_seq_snoc _ _ _ i); [apply T | | apply pushed_before | done |].
  - intros j _ Hj. by apply pushed_other.
  - intros j Hij Hj. unfold pushed_at, settled_at.
    rewrite (F i j p Hij); [by destruct (work !! j) | by rewrite Hlen | apply T |].
    apply (p_not_settled _ _ T).
Qed.

End Turn.

End Names.

Lemma kept_init (raw : catalog) (cache0 : gmap string coord) (c : string) :
  kept (build raw).2 (start raw cache0) c = [].
Proof.
  unfold kept. rewrite (omap_seq_ext (fun _ => None)).
  - by induction (seq 0 (length (build raw).2)).
  - intros j Hj. unfold pushed_at, settled_at, start, init. simpl.
    rewrite lookup_replicate_2 by done. by destruct (_ !! j).
Qed.

(** No turn adds a key to the output or takes one away. *)
Lemma out_keys_run (keyed : bool) (raw : catalog) (cache0 : gmap string coord)
    (evs : list sched) (st : state) :
  run keyed raw cache0 evs = Some st →
  ∀ c, is_Some (out st !! c) ↔ c ∈ normalizeName <$> raw.*1.
Proof.
  apply (run_step keyed raw cache0
           (fun s => ∀ c, is_Some (out s !! c) ↔ c ∈ normalizeName <$> raw.*1)).
  - intros c. unfold start, init. simpl. rewrite build_out.
    rewrite <- list_fmap_compose.
    case_decide as H; split; intros H'; try done; by destruct H'.
  - intros e s s' I _ IH Hs c.
    destruct (step_turn _ _ _ _ _ (inv_out _ _ _ _ I) Hs) as (i & w & Ht).
    destruct (turn_turned _ _ _ _ _ _ _ I Ht) as (p & p' & kd & T).
    rewrite <- IH. split; intros [l Hl].
    + destruct (out_turn _ _ T c l Hl) as (l0 & -> & _). done.
    + destruct (shared_out_mono _ _ _ _ _ _ (td_shared _ _ _ _ _ _ _ _ _ T) Hl)
        as (l' & -> & _). done.
Qed.

(** The names under a country are the kept cities, in some order. *)
Lemma names_run (keyed : bool) (raw : catalog) (cache0 : gmap string coord)
    (evs : list sched) (st : state) :
  run keyed raw cache0 evs = Some st →
  ∀ c l, out st !! c = Some l → e_name <$> l ≡ₚ kept (build raw).2 st c.
Proof.
  apply (run_step keyed raw cache0
           (fun s => ∀ c l, out s !! c = Some l →
                            e_name <$> l ≡ₚ kept (build raw).2 s c)).
  - intros c l Hl. unfold start, init in Hl. simpl in Hl.
    apply build_empty in Hl as ->. by rewrite kept_init.
  - intros e s s' I _ IH Hs c l' Hl'.
    destruct (step_turn _ _ _ _ _ (inv_out _ _ _ _ I) Hs) as (i & w & Ht).
    destruct (turn_turned _ _ _ _ _ _ _ I Ht) as (p & p' & kd & T).
    destruct (out_turn _ _ T c l' Hl') as (l & Hl & [[-> Hn]|(x & -> & Hx & Hn)]).
    + rewrite (kept_same _ _ T c Hn). by apply IH.
    + rewrite (kept_perm _ _ T c _ Hn), fmap_app, (IH c l Hl). simpl.
      rewrite Hx. symmetry. apply Permutation_cons_append.
Qed.

(** X10: at every moment the own keys of the output, which the script
    writes, are exactly the normalised countries of the input other than
    "__proto__"; and the names in the array that [out[c]] reaches are, up
    to their order, the cities of the work items of the country [c] whose
    tasks have returned without a miss - duplicates included; every
    entry carries coordinates. *)
Theorem output_names (keyed : bool) (raw : catalog)
    (cache0 : gmap string coord) (evs : list sched) (st : state) :
  run keyed raw cache0 evs = Some st →
  (∀ c, is_Some (own_properties (out st) !! c) ↔
        c ≠ PROTO ∧ c ∈ normalizeName <$> raw.*1) ∧
  (∀ c l, out st !! c = Some l →
     e_name <$> l ≡ₚ kept (build raw).2 st c ∧
     ∀ e, e ∈ l → is_Some (e_coord e)).
Proof.
  intros He. split.
  - intros c. rewrite <- (out_keys_run keyed raw cache0 evs st He c).
    unfold own_properties. rewrite lookup_delete_is_Some.
    split; intros [H1 H2]; (split; [|done]); intros E; by apply H1.
  - intros c l Hl. split; [by eapply names_run|].
    intros e Hin. pose proof (inv_run _ _ _ _ _ He) as I.
    by destruct (inv_out_from _ _ _ _ I c l e Hl Hin).
Qed.

Definition proto_country : catalog :=
  [("__proto__", Some ["Berlin"]); ("Germany", Some [])].

Lemma output_names_witness :
  ∃ st l,
    run true proto_country first_run
        [Start; Respond 0 (Returned (Some east_berlin))] = Some st ∧
    is_Some (own_properties (out st) !! "Germany") ∧
    own_properties (out st) !! "__proto__" = None ∧
    out st !! "__proto__" = Some l ∧
    e_name <$> l ≡ₚ ["Berlin"].
Proof.
  eexists. eexists. split; [vm_compute; reflexivity|].
  destruct (output_names true proto_country first_run
              [Start; Respond 0 (Returned (Some east_berlin))] _
              ltac:(vm_compute; reflexivity)) as [H1 H2].
  split; [|split; [|split; [vm_compute; reflexivity|]]].
  - apply H1. split; [discriminate|]. vm_compute. right. by left.
  - destruct (own_properties _ !! "__proto__") as [l|] eqn:E; [|done].
    destruct (proj1 (H1 "__proto__")) as [Hne _]; [by eexists|]. done.
  - apply (H2 "__proto__"). vm_compute. reflexivity.
Defined.

(** X11: without a key the tasks run one after the other, so the names
    under a country stand in the order of the work list, that is of the
    input. *)
Theorem unkeyed_output_in_order (raw : catalog) (cache0 : gmap string coord)
    (evs : list sched) (st : state) :
  run false raw cache0 evs = Some st →
  ∀ c l, out st !! c = Some l → e_name <$> l = kept (build raw).2 st c.
Proof.
  intros He.
  cut (fifo st ∧
       ∀ c l, out st !! c = Some l → e_name <$> l = kept (build raw).2 st c);
    [tauto|].
  revert He.
  apply (run_step false raw cache0
           (fun s =>
              fifo s ∧
              ∀ c l, out s !! c = Some l →
                     e_name <$> l = kept (build raw).2 s c)).
  - split; [apply fifo_init|].
    intros c l Hl. unfold start, init in Hl. simpl in Hl.
    apply build_empty in Hl as ->. by rewrite kept_init.
  - intros e s s' I _ [F IH] Hs.
    destruct (step_turn _ _ _ _ _ (inv_out _ _ _ _ I) Hs) as (i & w & Ht).
    destruct (turn_turned _ _ _ _ _ _ _ I Ht) as (p & p' & kd & T).
    split.
    + eapply fifo_turn; [apply I | exact Hs | exact T | | exact F].
      intros Hp. pose proof (td_slot _ _ _ _ _ _ _ _ _ T Hp) as Hslot.
      unfold concurrency in Hslot. lia.
    + intros c l' Hl'.
      destruct (out_turn _ _ T c l' Hl') as (l & Hl & [[-> Hn]|(x & -> & Hx & Hn)]).
      * rewrite (kept_same _ _ T c Hn). by apply IH.
      * rewrite (kept_snoc _ _ T c _ F (inv_len _ _ _ _ I) Hn), fmap_app, (IH c l Hl).
        simpl. by rewrite Hx.
Qed.

Definition three_cities : catalog :=
  [("Germany", Some ["Berlin"; "Atlantis"; "Bonn"])].

Definition bonn : geo := Geo 50.75 7.125 "nominatim".

(** Berlin is found at once, Atlantis is not found, Bonn is found by its
    bare name. *)
Definition one_by_one : list sched :=
  [Start; Respond 0 (Returned (Some berlin)); Wake 0;
   Start; Respond 1 (Returned None); Wake 1; Respond 1 Threw;
   Start; Respond 2 Threw; Respond 2 (Returned (Some bonn)); Wake 2].

Lemma unkeyed_output_in_order_witness :
  ∃ st l,
    run false three_cities first_run one_by_one = Some st ∧
    out st !! "Germany" = Some l ∧
    e_name <$> l = ["Berlin"; "Bonn"].
Proof.
  eexists. eexists. split; [vm_compute; reflexivity|].
  split; [vm_compute; reflexivity|].
  rewrite (unkeyed_output_in_order three_cities first_run one_by_one _
             ltac:(vm_compute; reflexivity) "Germany" _
             ltac:(vm_compute; reflexivity)).
  vm_compute. reflexivity.
Defined.

(** ** A run whose work is all in the cache *)

Section Lists.

Context {A B : Type}.

Lemma omap_seq_lookup (f : A → option B) (l : list A) :
  omap (fun i => l !! i ≫= f) (seq 0 (length l)) = omap f l.
Proof.
  induction l as [|x l IH] using rev_ind; [done|].
  rewrite length_app, Nat.add_1_r, seq_S, !omap_app. simpl.
  rewrite lookup_app_r, Nat.sub_diag by lia. simpl. f_equal.
  rewrite <- IH. apply omap_seq_ext. intros j Hj. by rewrite lookup_app_l.
Qed.

Lemma omap_filter (P : A → Prop) `{!∀ x, Decision (P x)} (g : A → B)
    (l : list A) :
  omap (fun x => if decide (P x) then Some (g x) else None) l = g <$> filter P l.
Proof.
  induction l as [|x l IH]; [done|]. rewrite filter_cons. csimpl.
  destruct (decide (P x)); csimpl; by rewrite IH.
Qed.

End Lists.

(** The entries of a list are determined by their names when their
    coordinates are a function of the name. *)
Lemma entries_by_name (h : string → option coord) (l : list entry)
    (F : list WorkItem) (g : WorkItem → option coord) :
  e_name <$> l = w_city <$> F →
  (∀ e, e ∈ l → e_coord e = h (e_name e)) →
  (∀ w, w ∈ F → g w = h (w_city w)) →
  l = (fun w => Entry (w_city w) (g w)) <$> F.
Proof.
  revert F. induction l as [|e l IH]; intros [|w F] E Hl HF; simplify_eq/=; [done|].
  f_equal.
  - pose proof (Hl e ltac:(by left)) as He.
    pose proof (HF w ltac:(by left)) as Hw.
    destruct e as [name co]. simpl in *. congruence.
  - apply IH; [done | |]; intros; [apply Hl | apply HF]; by right.
Qed.

Section Cached.

Variable keyed : bool.
Variable raw : catalog.
Variable cache0 : gmap string coord.

Local Abbreviation work := (build raw).2.

Hypothesis all_cached : ∀ w, w ∈ work → is_Some (cache0 !! w_k w).

(** No task waits, nothing is written to the cache, and the output
    carries the coordinates of the loaded cache in the order of the work
    list. *)
Record replay (st : state) : Prop := Replay {
  rp_idle : ∀ i p, tasks st !! i = Some p → is_active p = false;
  rp_fifo : fifo st;
  rp_cache : cache st = cache0;
  rp_names : ∀ c l, out st !! c = Some l → e_name <$> l = kept work st c;
  rp_coord : ∀ c l e,
    out st !! c = Some l → e ∈ l → e_coord e = cache0 !! key c (e_name e)
}.

Lemma replay_init : replay (start raw cache0).
Proof.
  split.
  - intros i p [-> _]%lookup_replicate. done.
  - apply fifo_init.
  - done.
  - intros c l Hl. unfold start, init in Hl. simpl in Hl.
    apply build_empty in Hl as ->. by rewrite kept_init.
  - intros c l e Hl. unfold start, init in Hl. simpl in Hl.
    apply build_empty in Hl as ->. by intros ?%elem_of_nil.
Qed.

Lemma replay_step (e : sched) (st st' : state) :
  inv keyed work cache0 st → replay st →
  step keyed work e st = Some st' → replay st'.
Proof.
  intros I R Hs.
  destruct (step_turn _ _ _ _ _ (inv_out _ _ _ _ I) Hs) as (i & w & Ht).
  destruct (turn_turned _ _ _ _ _ _ _ I Ht) as (p & p' & kd & T).
  pose proof (td_item _ _ _ _ _ _ _ _ _ T) as Hw.
  pose proof (td_before _ _ _ _ _ _ _ _ _ T) as Hb.
  pose proof (td_outcome _ _ _ _ _ _ _ _ _ T) as Ho.
  pose proof (td_shared _ _ _ _ _ _ _ _ _ T) as Hsh.
  pose proof (rp_idle _ R i p Hb) as Hidle.
  assert (w ∈ work) as Hin by by eapply list_elem_of_lookup_2.
  assert (∃ co, kd = HitK co ∧ cache0 !! w_k w = Some co) as (co & -> & Hco).
  { destruct kd as [| |co|g|]; simpl in Ho, Hsh; destruct_and?;
      try congruence.
    - destruct (all_cached w Hin) as [co Hco].
      rewrite (rp_cache _ R) in *. congruence.
    - exists co. split; [done|]. by rewrite <- (rp_cache _ R). }
  simpl in Ho, Hsh. destruct Ho as (-> & -> & _).
  destruct Hsh as (_ & Hc & (l0 & Hl0 & Hout) & _).
  split.
  - intros j q Hq. destruct (decide (j = i)) as [->|Hne].
    + rewrite (td_after _ _ _ _ _ _ _ _ _ T) in Hq. by simplify_eq.
    + destruct (td_other _ _ _ _ _ _ _ _ _ T j Hne) as (E & _).
      rewrite E in Hq. by eapply (rp_idle _ R).
  - eapply fifo_turn; [apply I | exact Hs | exact T | | apply R].
    intros _. unfold pending.
    assert (∀ ts : list pc, (∀ j q, ts !! j = Some q → is_active q = false) →
              sum_list_with running ts = 0) as Hsum.
    { induction ts as [|q ts IH]; intros H; [done|]. simpl.
      unfold running at 1. rewrite (H 0 q eq_refl). apply IH.
      intros j q' Hj. by apply (H (S j)). }
    apply Hsum. apply R.
  - rewrite Hc. apply R.
  - intros c l' Hl'.
    destruct (out_turn _ _ T c l' Hl') as (l & Hl & [[-> Hn]|(x & -> & Hx & Hn)]).
    + rewrite (kept_same _ _ T c Hn). by apply (rp_names _ R).
    + rewrite (kept_snoc _ _ T c _ (rp_fifo _ R) (inv_len _ _ _ _ I) Hn), fmap_app.
      rewrite (rp_names _ R c l Hl). simpl. by rewrite Hx.
  - intros c l' x Hl' Hx. rewrite Hout in Hl'.
    destruct (decide (w_country w = c)) as [<-|Hne].
    + rewrite lookup_insert_eq in Hl'. simplify_eq.
      apply elem_of_app in Hx as [Hx|Hx%list_elem_of_singleton].
      * by eapply (rp_coord _ R).
      * subst x. simpl. rewrite <- (build_keys raw w Hin). done.
    + rewrite lookup_insert_ne in Hl' by done. by eapply (rp_coord _ R).
Qed.

Lemma replay_run (evs : list sched) (st : state) :
  run keyed raw cache0 evs = Some st → replay st.
Proof.
  apply (run_step keyed raw cache0 replay); [apply replay_init|].
  intros e s s' I _ R Hs. by eapply replay_step.
Qed.

End Cached.

(** X12: when the key of every work item is in the loaded cache, the run
    makes no provider call, leaves the cache as it was loaded, counts
    every processed item as a hit and none as a miss, and, when it has
    finished, lists under each country its cities in the order of the
    input, each with the coordinates the loaded cache has for its key. *)
Theorem cached_rerun (keyed : bool) (raw : catalog)
    (cache0 : gmap string coord) (evs : list sched) (st : state) :
  (∀ w, w ∈ (build raw).2 → is_Some (cache0 !! w_k w)) →
  run keyed raw cache0 evs = Some st →
  called (trace st) = 0 ∧ cache st = cache0 ∧
  misses st = 0 ∧ hits st = processed st ∧
  (finished st = true →
   ∀ c l, out st !! c = Some l →
     l = (fun w => Entry (w_city w) (cache0 !! w_k w))
         <$> filter (fun w => w_country w = c) (build raw).2).
Proof.
  intros Hall He.
  pose proof (inv_run _ _ _ _ _ He) as I.
  pose proof (within_run _ _ _ _ _ He) as Hw.
  pose proof (replay_run keyed raw cache0 Hall evs st He) as R.
  assert (∀ i, i < length (build raw).2 →
            calls i (trace st) = [] ∧ resps i (trace st) = []) as Hquiet.
  { intros i Hi.
    destruct (task_at _ _ _ _ I i Hi) as (w & p & Hwi & Hp & Hh).
    assert (calls i (trace st) = []) as Hc.
    { destruct (calls i (trace st)) as [|c cs] eqn:E; [done|].
      destruct (Hall w) as [co Hco]; [by eapply list_elem_of_lookup_2|].
      rewrite (inv_called _ _ _ _ I i w Hwi) in Hco; [done|]. by rewrite E. }
    split; [done|]. rewrite Hc in Hh.
    destruct p; simpl in Hh; destruct_and?; try done.
    destruct Hh as [[_ ?]|[[? _]|[? _]]]; done. }
  split; [|split; [apply R|split; [|split]]].
  - rewrite (called_total _ _ Hw), (total_ext _ (fun _ => 0)).
    + rewrite total_const. lia.
    + intros i Hi. by rewrite (proj1 (Hquiet i Hi)).
  - rewrite (inv_misses _ _ _ _ I). apply count_none. intros i Hi.
    unfold missed_at. rewrite (proj2 (Hquiet i Hi)). apply andb_false_r.
  - rewrite (inv_hits _ _ _ _ I), (inv_processed _ _ _ _ I).
    apply count_ext. intros i Hi.
    unfold hit_at. rewrite (proj1 (Hquiet i Hi)). apply andb_true_r.
  - intros Hfin c l Hl.
    apply (entries_by_name (fun x => cache0 !! key c x)).
    + rewrite (rp_names _ _ _ R c l Hl). unfold kept.
      rewrite <- (omap_filter (fun w => w_country w = c)).
      rewrite <- (omap_seq_lookup _ (build raw).2).
      apply omap_seq_ext. intros i Hi. unfold pushed_at, settled_at.
      rewrite (fin_settled _ _ _ I Hfin i Hi), (proj2 (Hquiet i Hi)).
      destruct (_ !! i) as [w|]; simpl; [|done].
      by destruct (decide (w_country w = c));
        [rewrite bool_decide_eq_true_2 | rewrite bool_decide_eq_false_2].
    + intros e. by apply (rp_coord _ _ _ R).
    + intros w [<- Hin]%list_elem_of_filter. by rewrite (build_keys raw w Hin).
Qed.

Lemma cached_rerun_witness :
  ∃ st,
    run true only_berlin berlin_cached [Start] = Some st ∧
    called (trace st) = 0 ∧ cache st = berlin_cached ∧
    out st !! "Germany" = Some [Entry "Berlin" (Some (Coord 52.5 13.5))].
Proof.
  eexists. split; [vm_compute; reflexivity|].
  edestruct (cached_rerun true only_berlin berlin_cached [Start])
    as (H1 & H2 & _ & _ & H3).
  - intros w Hw. vm_compute in Hw.
    apply list_elem_of_singleton in Hw as ->. by eexists.
  - vm_compute. reflexivity.
  - split; [exact H1|]. split; [exact H2|].
    rewrite (H3 ltac:(vm_compute; reflexivity) "Germany" _ eq_refl).
    vm_compute. reflexivity.
Defined.

(** ** Where the cache entries come from *)

Lemma count_zero (P : nat → bool) (n j : nat) :
  count P n = 0 → j < n → P j = false.
Proof.
  induction n as [|n IH]; intros H Hj; [lia|]. simpl in H.
  destruct (decide (j = n)) as [->|Hne].
  - destruct (P n); [lia|done].
  - apply IH; lia.
Qed.



(** ** Running the script again *)

Section Again.

Variable parse_catalog : string → option catalog.
Variable parse_cache : string → option (gmap string coord).
Variable stringify_cache : gmap string coord → string.
Variable stringify_out : gmap string (list entry) → string.

Local Abbreviation script keyed files evs :=
  (main parse_catalog parse_cache stringify_cache stringify_out keyed files evs).
Local Abbreviation catalog_of files := (loaded_catalog parse_catalog files).
Local Abbreviation cache_of files := (loaded_cache parse_cache files).

Lemma persist_input (st : state) (files : gmap string string) :
  catalog_of (persist stringify_cache stringify_out st files) = catalog_of files.
Proof.
  unfold loaded_catalog, loadJSON, persist.
  by rewrite !lookup_insert_ne by done.
Qed.

Lemma persist_cache (st : state) (files : gmap string string) :
  parse_cache (stringify_cache (cache st)) = Some (cache st) →
  cache_of (persist stringify_cache stringify_out st files) = cache st.
Proof.
  intros H. unfold loaded_cache, loadJSON, persist.
  rewrite lookup_insert_ne by done. by rewrite lookup_insert_eq, H.
Qed.

(** X15: when a run has finished and the cache it wrote reads back as it
    was, the script has left the input file alone, and a second run of the
    script - with or without a key, under any schedule - makes no provider
    call for a work item that was not a miss in the first run; after a run
    without misses the second run makes no provider call at all. *)
Theorem second_run_resumes (keyed : bool) (files : gmap string string)
    (evs : list sched) (st : state) :
  run keyed (catalog_of files) (cache_of files) evs = Some st →
  finished st = true →
  parse_cache (stringify_cache (cache st)) = Some (cache st) →
  ∃ files',
    script keyed files evs = Some files' ∧
    catalog_of files' = catalog_of files ∧
    cache_of files' = cache st ∧
    ∀ keyed' evs' st',
      run keyed' (catalog_of files') (cache_of files') evs' = Some st' →
      (∀ i c, missed (resps i (trace st)) = false → Call i c ∉ trace st') ∧
      (misses st = 0 → called (trace st') = 0).
Proof.
  intros He Hfin Hrt. pose proof (inv_run _ _ _ _ _ He) as I.
  exists (persist stringify_cache stringify_out st files).
  split; [|split; [apply persist_input|split; [by apply persist_cache|]]].
  { unfold main. rewrite He. simpl. by rewrite Hfin, (inv_rej _ _ _ _ I). }
  rewrite persist_input, persist_cache by done.
  intros keyed' evs' st' He'.
  pose proof (inv_run _ _ _ _ _ He') as I'.
  pose proof (within_run _ _ _ _ _ He') as Hw'.
  assert (∀ i, i < length (build (catalog_of files)).2 →
            missed (resps i (trace st)) = false → calls i (trace st') = []) as Hq.
  { intros i Hi Hm.
    destruct (lookup_lt_is_Some_2 _ _ Hi) as [w Hw].
    destruct (calls i (trace st')) as [|c cs] eqn:E; [done|].
    destruct (kept_in_cache _ _ _ _ _ He i w Hw (fin_settled _ _ _ I Hfin i Hi) Hm)
      as [co Hco].
    rewrite (inv_called _ _ _ _ I' i w Hw) in Hco; [done|]. by rewrite E. }
  split.
  - intros i c Hm Hin. apply call_in_calls in Hin.
    destruct (decide (i < length (build (catalog_of files)).2)) as [Hi|Hi].
    + rewrite (Hq i Hi Hm) in Hin. by apply elem_of_nil in Hin.
    + destruct (Hw' i ltac:(lia)) as [E _]. rewrite E in Hin.
      by apply elem_of_nil in Hin.
  - intros H0. rewrite (called_total _ _ Hw'), (total_ext _ (fun _ => 0)).
    + rewrite total_const. lia.
    + intros i Hi. rewrite Hq; [done..|].
      rewrite (fin_misses _ _ _ I Hfin) in H0. by apply (count_zero _ _ i H0).
Qed.

End Again.

(** A cache file with one text, which reads as the cache of Berlin and
    Bonn. *)
Definition both_cached : gmap string coord :=
  {["Germany::Berlin" := coord_of berlin; "Germany::Bonn" := coord_of bonn]}.

Definition print_cache (m : gmap string coord) : string := "Berlin, Bonn".

Definition parse_both (text : string) : option (gmap string coord) :=
  if String.eqb text "Berlin, Bonn" then Some both_cached else None.

Definition both_found : list sched :=
  [Start; Respond 0 (Returned (Some berlin)); Wake 0;
   Start; Respond 1 (Returned (Some bonn)); Wake 1].

Lemma second_run_resumes_witness :
  ∃ files',
    main parse_germany parse_both print_cache print_nothing false disk both_found
    = Some files' ∧
    ∀ evs' st',
      run true (loaded_catalog parse_germany files')
          (loaded_cache parse_both files') evs' = Some st' →
      called (trace st') = 0.
Proof.
  edestruct (second_run_resumes parse_germany parse_both print_cache
               print_nothing false disk both_found) as (files' & Hm & _ & _ & H).
  - vm_compute. reflexivity.
  - vm_compute. reflexivity.
  - vm_compute. reflexivity.
  - exists files'. split; [exact Hm|]. intros evs' st' He'.
    apply (H true evs' st' He'). vm_compute. reflexivity.
Defined.

(** ** The delay after a call that returned, on a run *)

Lemma returned_call_is_delayed_witness :
  ∃ st tr1 tr2,
    run false two_cities berlin_cached bonn_missed = Some st ∧
    trace st = tr1 ++ Resp 1 (Returned None) :: tr2 ∧
    tr2 ≠ [] ∧ ∀ tr3 e, tr2 = e :: tr3 → e = Sleep 1 1100.
Proof.
  eexists.
  exists [Call 1 (geocodeNominatim "Bonn, Germany"); Resp 1 Threw;
          Call 1 (geocodeNominatim "Bonn")].
  exists [Sleep 1 1100; Progress 2 2 1 1].
  split; [vm_compute; reflexivity|]. split; [vm_compute; reflexivity|].
  eapply (returned_call_is_delayed two_cities berlin_cached bonn_missed _
            [Call 1 (geocodeNominatim "Bonn, Germany"); Resp 1 Threw;
             Call 1 (geocodeNominatim "Bonn")] _ 1 None).
  - vm_compute. reflexivity.
  - vm_compute. reflexivity.
Defined.

(** ** The provider adapters *)

(** What [geocodeMapTiler] reads off the first feature of a reply. *)
Lemma first_feature (fields ffields gfields : list (string * js))
    (rest items : list js) :
  Js.field "features" fields = Some (JArr (JObj ffields :: rest)) →
  Js.field "geometry" ffields = Some (JObj gfields) →
  Js.field "coordinates" gfields = Some (JArr items) →
  Adapter.geocodeMapTiler (Fetched true (Some (JObj fields)))
  = Gives (Some (Found (default JUndefined (items !! 1))
                       (default JUndefined (items !! 0)) "maptiler")).
Proof.
  intros Hf Hg Hc. unfold Adapter.geocodeMapTiler, Js.prop. rewrite Hf. simpl.
  rewrite Hg. simpl. by rewrite Hc.
Qed.

(** X16: from a reply whose first feature has a geometry with an array
    of coordinates, [geocodeMapTiler] returns the second item as the
    latitude and the first as the longitude, as GeoJSON orders them - or
    [undefined] for an item the array lacks: the adapter checks neither
    their number nor their type. *)
Theorem maptiler_reads_geojson (fields ffields gfields : list (string * js))
    (rest items : list js) :
  Js.field "features" fields = Some (JArr (JObj ffields :: rest)) →
  Js.field "geometry" ffields = Some (JObj gfields) →
  Js.field "coordinates" gfields = Some (JArr items) →
  Adapter.geocodeMapTiler (Fetched true (Some (JObj fields)))
  = Gives (Some (Found (default JUndefined (items !! 1))
                       (default JUndefined (items !! 0)) "maptiler")) ∧
  (∀ x y more, items = JNum x :: JNum y :: more →
     as_response (Adapter.geocodeMapTiler (Fetched true (Some (JObj fields))))
     = Some (Returned (Some (Geo y x "maptiler")))).
Proof.
  intros Hf Hg Hc.
  pose proof (first_feature fields ffields gfields rest items Hf Hg Hc) as E.
  split; [done|]. intros x y more ->. by rewrite E.
Qed.

#[local] Set Warnings "-inexact-float".
Definition berlin_feature : js :=
  JObj [("type", JStr "Feature");
        ("geometry", JObj [("type", JStr "Point");
                           ("coordinates", JArr [JNum 13.405; JNum 52.52])])].
#[local] Set Warnings "+inexact-float".

Definition berlin_reply : list (string * js) :=
  [("type", JStr "FeatureCollection"); ("features", JArr [berlin_feature])].

Lemma maptiler_reads_geojson_witness :
  as_response (Adapter.geocodeMapTiler (Fetched true (Some (JObj berlin_reply))))
  = Some (Returned (Some berlin_found)).
Proof.
  eapply (maptiler_reads_geojson berlin_reply); reflexivity.
Defined.

(** X17: from a reply that is an array with an object in front,
    [geocodeNominatim] returns what [parseFloat] reads off the [lat] and
    [lon] of that object, [undefined] standing for a property the object
    lacks; from the empty array it returns [null]; and whatever the reply,
    what it returns has numbers for coordinates. *)
Theorem nominatim_reads_first (parseFloat : js → float)
    (ffields : list (string * js)) (rest : list js) :
  Adapter.geocodeNominatim parseFloat (Fetched true (Some (JArr (JObj ffields :: rest))))
  = Gives (Some (Found
      (JNum (parseFloat (default JUndefined (Js.field "lat" ffields))))
      (JNum (parseFloat (default JUndefined (Js.field "lon" ffields))))
      "nominatim")) ∧
  Adapter.geocodeNominatim parseFloat (Fetched true (Some (JArr []))) = Gives None ∧
  (∀ r, is_Some (as_response (Adapter.geocodeNominatim parseFloat r))).
Proof.
  split; [done|]. split; [done|].
  intros [|[] [j|]]; simpl; try done.
  destruct (Js.first j) as [f|]; [|done].
  destruct (Js.truthy f) eqn:Ht; simpl; [|done].
  destruct (Js.prop "lat" f), (Js.prop "lon" f); done.
Qed.

(** The characters of a URL that [encodeURIComponent] can produce. *)
Definition url_safe (c : ascii) : bool :=
  Uri.unreserved c || Ascii.eqb c "%".

Lemma hex_safe (n : nat) : url_safe (Uri.hex n) = true.
Proof. do 16 (destruct n as [|n]; [done|]). unfold Uri.hex. by destruct n. Qed.

Lemma encode_unit_safe (c : ascii) :
  Forall (fun a => url_safe a = true) (Uri.encode_unit c).
Proof.
  unfold Uri.encode_unit. destruct (Uri.unreserved c) eqn:E.
  - constructor; [|done]. unfold url_safe. by rewrite E.
  - destruct (_ <? _); unfold Uri.percent;
      repeat (constructor; [first [done | apply hex_safe]|]); done.
Qed.

Lemma encodeURIComponent_safe (s : string) :
  Forall (fun a => url_safe a = true)
         (list_ascii_of_string (encodeURIComponent s)).
Proof.
  unfold encodeURIComponent. rewrite list_ascii_of_string_of_list_ascii.
  induction (list_ascii_of_string s) as [|c l IH]; simpl; [done|].
  apply Forall_app. split; [apply encode_unit_safe | done].
Qed.

(** X18: the URL of a MapTiler request is the endpoint followed by the
    encoded query and ".json", and the encoded query consists of
    unreserved characters and percent signs only, so no query can add a
    path segment or a parameter; the parameters are the key, the limit
    and the language, and a [country] after them exactly for the eleven
    countries of [ISO_HINT]. *)
Theorem maptiler_request_is_safe (MAPTILER_KEY q country : string) :
  r_url (Adapter.mapTilerRequest MAPTILER_KEY q country)
  = "https://api.maptiler.com/geocoding/" +:+ encodeURIComponent q +:+ ".json" ∧
  Forall (fun a => url_safe a = true)
         (list_ascii_of_string (encodeURIComponent q)) ∧
  r_params (Adapter.mapTilerRequest MAPTILER_KEY q country)
  = [("key", MAPTILER_KEY); ("limit", "1"); ("language", "en")]
    ++ match hint country ISO_HINT with
       | Some iso => [("country", iso)]
       | None => []
       end ∧
  (is_Some (hint country ISO_HINT) ↔ country ∈ ISO_HINT.*1).
Proof.
  split; [done|]. split; [apply encodeURIComponent_safe|]. split.
  - unfold Adapter.mapTilerRequest. cbv zeta. cbn [r_params].
    generalize (hint country ISO_HINT). intros [iso|]; reflexivity.
  - induction ISO_HINT as [|[name iso] hints IH]; simpl.
    + split; [by intros [? ?] | by intros ?%elem_of_nil].
    + destruct (String.eqb_spec name country) as [->|Hne].
      * split; [by left | by eauto].
      * rewrite IH. split; [by right|].
        by intros [?|?]%elem_of_cons.
Qed.

(** X19: with a key, when a task waits for a response and MapTiler
    replies with a feature at the coordinates [x, y], the turn that takes
    the reply stores [{ lat: y, lng: x }] under the key of the item, appends
    the city with these coordinates to the output of its country, counts
    no miss and ends the task. *)
Theorem geojson_reply_is_cached (raw : catalog) (cache0 : gmap string coord)
    (evs : list sched) (st : state) (i : nat) (w : WorkItem)
    (fields ffields gfields : list (string * js)) (rest more : list js)
    (x y : float) :
  run true raw cache0 evs = Some st →
  (build raw).2 !! i = Some w →
  tasks st !! i = Some AwaitPrimary ∨ tasks st !! i = Some AwaitFallback →
  Js.field "features" fields = Some (JArr (JObj ffields :: rest)) →
  Js.field "geometry" ffields = Some (JObj gfields) →
  Js.field "coordinates" gfields = Some (JArr (JNum x :: JNum y :: more)) →
  ∃ r st' l,
    as_response (Adapter.geocodeMapTiler (Fetched true (Some (JObj fields))))
    = Some r ∧
    step true (build raw).2 (Respond i r) st = Some st' ∧
    tasks st' !! i = Some Settled ∧
    cache st' !! w_k w = Some (Coord y x) ∧
    out st !! w_country w = Some l ∧
    out st' !! w_country w = Some (l ++ [Entry (w_city w) (Some (Coord y x))]) ∧
    misses st' = misses st.
Proof.
  intros He Hw Hp Hf Hg Hc. pose proof (inv_run _ _ _ _ _ He) as I.
  destruct (inv_out _ _ _ _ I w) as [l Hl]; [by eapply list_elem_of_lookup_2|].
  assert (i < length (tasks st)) as Hi
    by (destruct Hp as [Hp|Hp]; by eapply lookup_lt_Some).
  exists (Returned (Some (Geo y x "maptiler"))).
  set (s1 := State (<[w_k w := Coord y x]> (cache st))
                   (<[w_country w := l ++ [Entry (w_city w) (Some (Coord y x))]]>
                      (out st))
                   (processed st) (hits st) (misses st) (tasks st)
                   (trace st ++ [Resp i (Returned (Some (Geo y x "maptiler")))])
                   (rejected st)).
  exists (set_pc i Settled (tick (build raw).2 s1)), l.
  destruct (tick_spec (build raw).2 s1)
    as (new & _ & _ & _ & _ & Hcache & Hout & _ & _ & Hmiss & Htasks & _).
  split; [|split; [|split; [|split; [|split; [|split]]]]].
  - by rewrite (first_feature fields ffields gfields rest _ Hf Hg Hc).
  - simpl. rewrite Hw. simpl.
    destruct Hp as [-> | ->]; simpl;
      unfold primary_done, fallback_done, after_primary, settle, push; simpl;
      rewrite Hl; simpl; by rewrite lookup_insert_eq.
  - simpl. rewrite Htasks. simpl. by apply list_lookup_insert_eq.
  - simpl. rewrite Hcache. simpl. by rewrite lookup_insert_eq.
  - done.
  - simpl. rewrite Hout. simpl. by rewrite lookup_insert_eq.
  - simpl. by rewrite Hmiss.
Qed.

Lemma geojson_reply_is_cached_witness :
  ∃ st r st',
    run true only_berlin first_run [Start] = Some st ∧
    as_response (Adapter.geocodeMapTiler (Fetched true (Some (JObj berlin_reply))))
    = Some r ∧
    step true (build only_berlin).2 (Respond 0 r) st = Some st' ∧
    cache st' !! "Germany::Berlin" = Some (coord_of berlin_found).
Proof.
  edestruct geojson_reply_is_cached
    with (raw := only_berlin) (cache0 := first_run) (evs := [Start]) (i := 0)
         (fields := berlin_reply)
    as (r & st' & l & H1 & H2 & _ & H4 & _);
    [vm_compute; reflexivity | reflexivity | left; vm_compute; reflexivity
    | reflexivity | reflexivity | reflexivity |].
  eexists. exists r, st'. split; [vm_compute; reflexivity|].
  split; [exact H1|]. split; [exact H2 | exact H4].
Defined.

(** ** The result does not depend on the schedule *)

(** The entries of a list are given by their names when their coordinates
    are a function of the name. *)
Lemma entries_of_names (h : string → option coord) (l : list entry) :
  (∀ e, e ∈ l → e_coord e = h (e_name e)) →
  l = (fun x => Entry x (h x)) <$> (e_name <$> l).
Proof.
  induction l as [|e l IH]; intros H; [done|]. simpl. f_equal.
  - rewrite <- (H e) by by left. by destruct e.
  - apply IH. intros e' He'. apply H. by right.
Qed.

(** The provider answers a call by what [o] says of it: the responses of
    each task are the answers to its calls, in order. *)
Definition answers (o : call → response) (tr : list io) : Prop :=
  ∀ i, resps i tr = o <$> take (length (resps i tr)) (calls i tr).

Section Confluence.

Variable keyed : bool.
Variable raw : catalog.
Variable cache0 : gmap string coord.

Local Abbreviation work := (build raw).2.

(** What a finished run leaves in the cache is in the cache of every
    finished run with the same responses. *)
Lemma cache_transfer (evs evs' : list sched) (st st' : state) :
  keyed = false ∨ NoDup (w_k <$> work) →
  run keyed raw cache0 evs = Some st →
  run keyed raw cache0 evs' = Some st' → finished st' = true →
  (∀ i, resps i (trace st) = resps i (trace st')) →
  ∀ k c, cache st !! k = Some c → cache st' !! k = Some c.
Proof.
  intros Hex He He' Hfin' Hsame k c Hc.
  pose proof (inv_run _ _ _ _ _ He) as I.
  pose proof (inv_run _ _ _ _ _ He') as I'.
  destruct (inv_cache_from _ _ _ _ I k c Hc)
    as [H0|(i & w & g & Hw & <- & -> & _ & Hlast)];
    [by apply (inv_cache0 _ _ _ _ I')|].
  assert (i < length work) as Hi by by eapply lookup_lt_Some.
  rewrite Hsame in Hlast.
  destruct (inv_found _ _ _ _ I' i w g Hw (fin_settled _ _ _ I' Hfin' i Hi) Hlast)
    as (l & Hl & Hin).
  pose proof (agree_exec keyed _ cache0 Hex (build_keys raw) _ _ _
                (build_ready raw) (build_empty raw) He') as A.
  destruct (ag_out _ _ A _ _ _ Hl Hin) as (co & Hco & Hcache).
  simpl in Hco, Hcache. simplify_eq.
  rewrite (build_keys raw w); [done|]. by eapply list_elem_of_lookup_2.
Qed.

Lemma same_result (evs1 evs2 : list sched) (st1 st2 : state) :
  keyed = false ∨ NoDup (w_k <$> work) →
  run keyed raw cache0 evs1 = Some st1 → finished st1 = true →
  run keyed raw cache0 evs2 = Some st2 → finished st2 = true →
  (∀ i, resps i (trace st1) = resps i (trace st2)) →
  cache st1 = cache st2 ∧
  hits st1 = hits st2 ∧ misses st1 = misses st2 ∧
  ∀ c l1 l2, out st1 !! c = Some l1 → out st2 !! c = Some l2 → l1 ≡ₚ l2.
Proof.
  intros Hex He1 Hfin1 He2 Hfin2 Hsame.
  pose proof (inv_run _ _ _ _ _ He1) as I1.
  pose proof (inv_run _ _ _ _ _ He2) as I2.
  assert (cache st1 = cache st2) as Hcache.
  { apply map_eq. intros k.
    destruct (cache st1 !! k) as [c|] eqn:E1.
    - symmetry. by eapply (cache_transfer evs1 evs2).
    - destruct (cache st2 !! k) as [c|] eqn:E2; [|done].
      pose proof (cache_transfer evs2 evs1 st2 st1 Hex He2 He1 Hfin1
                    (fun i => eq_sym (Hsame i)) k c E2).
      congruence. }
  split; [done|]. split; [|split].
  - rewrite (fin_hits _ _ _ I1 Hfin1), (fin_hits _ _ _ I2 Hfin2).
    apply count_ext. intros i Hi.
    destruct (lookup_lt_is_Some_2 _ _ Hi) as [w Hw].
    pose proof (fin_history _ _ _ I1 Hfin1 i w Hw) as H1.
    pose proof (fin_history _ _ _ I2 Hfin2 i w Hw) as H2.
    rewrite <- Hsame in H2. simpl in H1, H2.
    destruct H1 as [[-> E1]|[[-> (g & E1)]|[-> (r1 & r2 & E1 & _)]]];
      destruct H2 as [[-> E2]|[[-> (g' & E2)]|[-> (r1' & r2' & E2 & _)]]];
      try done; rewrite E1 in E2; done.
  - rewrite (fin_misses _ _ _ I1 Hfin1), (fin_misses _ _ _ I2 Hfin2).
    apply count_ext. intros i Hi. by rewrite Hsame.
  - intros c l1 l2 Hl1 Hl2.
    pose proof (agree_exec keyed _ cache0 Hex (build_keys raw) _ _ _
                  (build_ready raw) (build_empty raw) He1) as A1.
    pose proof (agree_exec keyed _ cache0 Hex (build_keys raw) _ _ _
                  (build_ready raw) (build_empty raw) He2) as A2.
    rewrite (entries_of_names (fun x => cache st1 !! key c x) l1),
            (entries_of_names (fun x => cache st1 !! key c x) l2).
    + apply fmap_Permutation.
      rewrite (names_run _ _ _ _ _ He1 c l1 Hl1), (names_run _ _ _ _ _ He2 c l2 Hl2).
      unfold kept. erewrite omap_seq_ext; [done|].
      intros i Hi. unfold pushed_at, settled_at.
      by rewrite (fin_settled _ _ _ I1 Hfin1 i Hi), (fin_settled _ _ _ I2 Hfin2 i Hi),
                 Hsame.
    + intros e Hin. rewrite Hcache.
      destruct (ag_out _ _ A2 _ _ _ Hl2 Hin) as (co & -> & ->). done.
    + intros e Hin.
      destruct (ag_out _ _ A1 _ _ _ Hl1 Hin) as (co & -> & ->). done.
Qed.

(** With pairwise distinct keys the calls of a task, and so its
    responses, are the same in every finished run. *)
Lemma same_responses (o : call → response) (evs1 evs2 : list sched)
    (st1 st2 : state) :
  NoDup (w_k <$> work) →
  run keyed raw cache0 evs1 = Some st1 → finished st1 = true →
  run keyed raw cache0 evs2 = Some st2 → finished st2 = true →
  answers o (trace st1) → answers o (trace st2) →
  ∀ i, resps i (trace st1) = resps i (trace st2).
Proof.
  intros Hnd He1 Hfin1 He2 Hfin2 Ho1 Ho2 i.
  pose proof (inv_run _ _ _ _ _ He1) as I1.
  pose proof (inv_run _ _ _ _ _ He2) as I2.
  destruct (decide (i < length work)) as [Hi|Hi].
  2:{ destruct (within_run _ _ _ _ _ He1 i ltac:(lia)) as [_ ->].
      by destruct (within_run _ _ _ _ _ He2 i ltac:(lia)) as [_ ->]. }
  destruct (lookup_lt_is_Some_2 _ _ Hi) as [w Hw].
  pose proof (fin_history _ _ _ I1 Hfin1 i w Hw) as H1.
  pose proof (fin_history _ _ _ I2 Hfin2 i w Hw) as H2.
  pose proof (fresh_exec keyed _ cache0 Hnd _ _ _
                (build_ready raw) (build_empty raw) He1) as F1.
  pose proof (fresh_exec keyed _ cache0 Hnd _ _ _
                (build_ready raw) (build_empty raw) He2) as F2.
  pose proof (fr_hit _ _ _ F1 i w Hw (fin_settled _ _ _ I1 Hfin1 i Hi)) as Hh1.
  pose proof (fr_hit _ _ _ F2 i w Hw (fin_settled _ _ _ I2 Hfin2 i Hi)) as Hh2.
  pose proof (inv_called _ _ _ _ I1 i w Hw) as Hc1.
  pose proof (inv_called _ _ _ _ I2 i w Hw) as Hc2.
  pose proof (Ho1 i) as A1. pose proof (Ho2 i) as A2. simpl in H1, H2.
  destruct H1 as [[E1 R1]|[[E1 (g & R1)]|[E1 (r1 & r2 & R1 & Hf1)]]];
    destruct H2 as [[E2 R2]|[[E2 (g' & R2)]|[E2 (r1' & r2' & R2 & Hf2)]]];
    rewrite E1 in *; rewrite E2 in *; rewrite R1 in *; rewrite R2 in *;
    simpl in *; try done.
  all: try (destruct Hh1 as [co Hco]; [done|]; rewrite Hc2 in Hco; done).
  all: try (destruct Hh2 as [co Hco]; [done|]; rewrite Hc1 in Hco; done).
  all: simplify_eq; try done.
  all: try congruence.
  all: exfalso;
    repeat match goal with H : Returned _ = _ |- _ => rewrite <- H in * end;
    simpl in *; congruence.
Qed.

End Confluence.

(** X20: when no two work items share a key and the providers answer
    equal calls alike, two finished runs from the same input and cache -
    under any two schedules - end with the same cache and the same hit
    and miss counts, have made the same calls for every work item, and
    list under every country the same entries up to their order. *)
Theorem result_is_schedule_independent (keyed : bool) (raw : catalog)
    (cache0 : gmap string coord) (o : call → response)
    (evs1 evs2 : list sched) (st1 st2 : state) :
  NoDup (w_k <$> (build raw).2) →
  run keyed raw cache0 evs1 = Some st1 → finished st1 = true →
  run keyed raw cache0 evs2 = Some st2 → finished st2 = true →
  answers o (trace st1) → answers o (trace st2) →
  cache st1 = cache st2 ∧
  hits st1 = hits st2 ∧ misses st1 = misses st2 ∧
  (∀ i, calls i (trace st1) = calls i (trace st2)) ∧
  ∀ c l1 l2, out st1 !! c = Some l1 → out st2 !! c = Some l2 → l1 ≡ₚ l2.
Proof.
  intros Hnd He1 Hfin1 He2 Hfin2 Ho1 Ho2.
  pose proof (same_responses keyed raw cache0 o evs1 evs2 st1 st2
                Hnd He1 Hfin1 He2 Hfin2 Ho1 Ho2) as Hsame.
  destruct (same_result keyed raw cache0 evs1 evs2 st1 st2 (or_intror Hnd)
              He1 Hfin1 He2 Hfin2 Hsame) as (Hc & Hh & Hm & Hout).
  repeat split; try done.
  intros i.
  pose proof (inv_run _ _ _ _ _ He1) as I1.
  pose proof (inv_run _ _ _ _ _ He2) as I2.
  destruct (decide (i < length (build raw).2)) as [Hi|Hi].
  2:{ destruct (within_run _ _ _ _ _ He1 i ltac:(lia)) as [-> _].
      by destruct (within_run _ _ _ _ _ He2 i ltac:(lia)) as [-> _]. }
  destruct (lookup_lt_is_Some_2 _ _ Hi) as [w Hw].
  pose proof (fin_history _ _ _ I1 Hfin1 i w Hw) as H1.
  pose proof (fin_history _ _ _ I2 Hfin2 i w Hw) as H2.
  rewrite <- Hsame in H2. simpl in H1, H2.
  destruct H1 as [[-> E1]|[[-> (g & E1)]|[-> (r1 & r2 & E1 & _)]]];
    destruct H2 as [[-> E2]|[[-> (g' & E2)]|[-> (r1' & r2' & E2 & _)]]];
    try done; rewrite E1 in E2; done.
Qed.

Definition bonn_on_map : geo := Geo 50.75 7.125 "maptiler".

(** A provider that knows Berlin and Bonn by their full query. *)
Definition atlas (c : call) : response :=
  match c with
  | geocodeMapTiler q _ =>
      if String.eqb q "Berlin, Germany" then Returned (Some east_berlin)
      else if String.eqb q "Bonn, Germany" then Returned (Some bonn_on_map)
      else Returned None
  | geocodeNominatim _ => Threw
  end.

(** Berlin answers first, or Bonn does. *)
Definition berlin_first : list sched :=
  [Start; Start; Respond 0 (Returned (Some east_berlin));
   Respond 1 (Returned (Some bonn_on_map))].

Definition bonn_first : list sched :=
  [Start; Start; Respond 1 (Returned (Some bonn_on_map));
   Respond 0 (Returned (Some east_berlin))].

Lemma result_is_schedule_independent_witness :
  ∃ st1 st2 l1 l2,
    run true two_cities first_run berlin_first = Some st1 ∧
    run true two_cities first_run bonn_first = Some st2 ∧
    out st1 !! "Germany" = Some l1 ∧ out st2 !! "Germany" = Some l2 ∧
    e_name <$> l1 = ["Berlin"; "Bonn"] ∧ e_name <$> l2 = ["Bonn"; "Berlin"] ∧
    cache st1 = cache st2 ∧ l1 ≡ₚ l2.
Proof.
  do 4 eexists.
  split; [vm_compute; reflexivity|]. split; [vm_compute; reflexivity|].
  split; [vm_compute; reflexivity|]. split; [vm_compute; reflexivity|].
  split; [vm_compute; reflexivity|]. split; [vm_compute; reflexivity|].
  edestruct (result_is_schedule_independent true two_cities first_run atlas
               berlin_first bonn_first) as (H1 & _ & _ & _ & H5).
  - apply (bool_decide_unpack (NoDup _)). vm_compute. exact I.
  - vm_compute. reflexivity.
  - vm_compute. reflexivity.
  - vm_compute. reflexivity.
  - vm_compute. reflexivity.
  - intros [|[|i]]; vm_compute; reflexivity.
  - intros [|[|i]]; vm_compute; reflexivity.
  - split; [exact H1|]. apply (H5 "Germany"); vm_compute; reflexivity.
Defined.

(** ** Two requests that fail *)

Lemma failed_reply_throws (keyed : bool) (parseFloat : js → float) (r : fetched) :
  failed_reply r = true → as_response (adapter keyed parseFloat r) = Some Threw.
Proof. by destruct keyed, r as [|[] [j|]]. Qed.

(** X21: a reply that fails - no reply at all, a status that is not OK,
    or a body that is not JSON - makes either adapter throw.  When both
    requests of a task fail so, the fallback request with the bare city
    follows the first failure at once, and the second failure ends the
    task as a miss: nothing is cached or listed, [misses] and [processed]
    grow by one, and the task has not slept. *)
Theorem failed_requests_make_a_miss (keyed : bool) (parseFloat : js → float)
    (raw : catalog) (cache0 : gmap string coord) (evs : list sched)
    (st : state) (i : nat) (w : WorkItem) (r1 r2 : fetched) :
  run keyed raw cache0 evs = Some st →
  (build raw).2 !! i = Some w → tasks st !! i = Some AwaitPrimary →
  failed_reply r1 = true → failed_reply r2 = true →
  ∃ a1 a2 st1 st2,
    as_response (adapter keyed parseFloat r1) = Some a1 ∧
    as_response (adapter keyed parseFloat r2) = Some a2 ∧
    step keyed (build raw).2 (Respond i a1) st = Some st1 ∧
    step keyed (build raw).2 (Respond i a2) st1 = Some st2 ∧
    trace st1
    = trace st ++ [Resp i Threw; Call i (provider_call keyed (w_city w) w)] ∧
    tasks st2 !! i = Some Settled ∧
    cache st2 = cache st ∧ out st2 = out st ∧
    misses st2 = S (misses st) ∧ processed st2 = S (processed st) ∧
    slept (trace st2) = slept (trace st).
Proof.
  intros He Hw Hp Hr1 Hr2. pose proof (inv_run _ _ _ _ _ He) as I.
  assert (i < length (tasks st)) as Hi by by eapply lookup_lt_Some.
  exists Threw, Threw.
  set (s1 := set_pc i AwaitFallback
               (emit (Call i (provider_call keyed (w_city w) w))
                     (emit (Resp i Threw) st))).
  set (s2 := count_miss (emit (Resp i Threw) s1)).
  exists s1, (set_pc i Settled (tick (build raw).2 s2)).
  destruct (tick_spec (build raw).2 s2)
    as (new & Htr & Hnew & _ & _ & Hcache & Hout & Hproc & _ & Hmiss & Htasks & _).
  split; [by apply failed_reply_throws|]. split; [by apply failed_reply_throws|].
  split.
  { simpl. rewrite Hw. simpl. rewrite Hp. done. }
  split.
  { simpl. rewrite Hw. simpl. rewrite list_lookup_insert_eq by done. done. }
  split.
  { simpl. by rewrite <- app_assoc. }
  split.
  { simpl. rewrite Htasks. simpl. apply list_lookup_insert_eq.
    by rewrite length_insert. }
  split; [simpl; by rewrite Hcache|]. split; [simpl; by rewrite Hout|].
  split; [simpl; by rewrite Hmiss|]. split; [simpl; by rewrite Hproc|].
  simpl. rewrite Htr. simpl. unfold slept. rewrite !sum_list_with_app. simpl.
  destruct Hnew as [->|(a & b & c & d & ->)]; simpl; lia.
Qed.

Definition error_page : fetched := Fetched false (Some (JStr "Bad Gateway")).

Lemma failed_requests_make_a_miss_witness :
  ∃ st a1 a2 st1 st2,
    run false only_berlin first_run [Start] = Some st ∧
    as_response (adapter false (fun _ => 0%float) NetworkError) = Some a1 ∧
    as_response (adapter false (fun _ => 0%float) error_page) = Some a2 ∧
    step false (build only_berlin).2 (Respond 0 a1) st = Some st1 ∧
    step false (build only_berlin).2 (Respond 0 a2) st1 = Some st2 ∧
    misses st2 = 1 ∧ slept (trace st2) = 0.
Proof.
  edestruct failed_requests_make_a_miss
    with (keyed := false) (parseFloat := fun _ : js => 0%float)
         (raw := only_berlin) (cache0 := first_run) (evs := [Start]) (i := 0)
         (r1 := NetworkError) (r2 := error_page)
    as (a1 & a2 & st1 & st2 & H1 & H2 & H3 & H4 & _ & _ & _ & _ & H9 & _ & H11);
    [vm_compute; reflexivity | reflexivity | vm_compute; reflexivity
    | reflexivity | reflexivity |].
  eexists. exists a1, a2, st1, st2.
  split; [vm_compute; reflexivity|].
  split; [exact H1|]. split; [exact H2|]. split; [exact H3|]. split; [exact H4|].
  split; [exact H9 | exact H11].
Defined.
